(** * Timing analysis tool: report parser and critical-path analyzer

    A shallow embedding of [parser.h], [parser.cpp], [analyzer.h] and
    [analyzer.cpp], and the properties of the parser and of the analyzer
    stated over it.

    Conventions of the embedding:
    - [double] is the primitive binary64 type [float]; a comparison
      [a > b] of the source is written [(b <? a)%float];
    - [std::string] is [string], a sequence of bytes;
    - a [std::shared_ptr<T>] that may be null is an [option]; a pointer to
      a [TimingNode] also carries the address of the allocation it points
      to, so that two pointers are the same instance exactly when their
      addresses agree;
    - [nodeCache], a [std::unordered_map], is a [gmap] keyed by the name;
    - a function that may throw returns an [outcome]. *)

From Stdlib Require Import Floats ZArith String Ascii List Permutation Sorted Lia.
From stdpp Require Import gmap strings list.

Set Warnings "-inexact-float".
Local Open Scope string_scope.

(** ** Doubles *)

(** A finite or infinite double is ranked by a triple compared
    lexicographically; both zeros share one rank. *)
Definition rank (x : spec_float) : Z * Z * Z :=
  match x with
  | S754_nan => (0, 0, 0)%Z
  | S754_zero _ => (0, 0, 0)%Z
  | S754_infinity true => (-2, 0, 0)%Z
  | S754_infinity false => (2, 0, 0)%Z
  | S754_finite false m e => (1, e, Zpos m)%Z
  | S754_finite true m e => (-1, - e, Zneg m)%Z
  end.

Definition lex_lt (a b : Z * Z * Z) : Prop :=
  let '(a1, a2, a3) := a in
  let '(b1, b2, b3) := b in
  (a1 < b1 \/ (a1 = b1 /\ (a2 < b2 \/ (a2 = b2 /\ a3 < b3))))%Z.

Definition is_nan_sf (x : spec_float) : bool :=
  match x with S754_nan => true | _ => false end.

(** [ordered x] holds of every double but NaN. *)
Definition ordered (x : float) : Prop := (x =? x)%float = true.

Definition key (x : float) : Z * Z * Z := rank (Prim2SF x).


(** ** Strings *)

(** [s.find(needle)] of [std::string]: the position of the first occurrence
    of [needle] in [s], [None] standing for [std::string::npos]. *)
Fixpoint find (s needle : string) : option nat :=
  if String.prefix needle s then Some 0
  else match s with
       | EmptyString => None
       | String _ s' => option_map S (find s' needle)
       end.

(** [s.find(needle) != std::string::npos] *)
Definition contains (s needle : string) : bool :=
  match find s needle with Some _ => true | None => false end.

(** [s.find(needle) == 0] *)
Definition starts_with (s needle : string) : bool :=
  match find s needle with Some 0 => true | _ => false end.

(** ** Data model ([parser.h]) *)

Record TimingNode := {
  name : string;
  type : string;
  capacitance : float;
  slew : float
}.

(** A non-null [std::shared_ptr<TimingNode>]: the address of the allocation
    and the node stored there. Nodes are never written after their
    construction, so the node read through the pointer is always the one
    it was created with. *)
Record node_ptr := {
  address : nat;
  pointee : TimingNode
}.

Record TimingEdge := {
  from : option node_ptr;
  to : option node_ptr;
  delay : float;
  netDelay : float;
  cellDelay : float
}.

(** The constructor [TimingEdge(from, to, delay)]: both parts of the delay
    start at [0.0]. *)
Definition TimingEdge_new (from to : option node_ptr) (delay : float)
  : TimingEdge :=
  {| from := from; to := to; delay := delay;
     netDelay := 0; cellDelay := 0 |}.

Record TimingPath := {
  id : string;
  startpoint : string;
  endpoint : string;
  totalDelay : float;
  edges : list (option TimingEdge)
}.

(** One turn of the loop of [getWorstStage] over [edge]. *)
Definition worst_stage_step (acc : float * option TimingEdge)
    (edge : option TimingEdge) : float * option TimingEdge :=
  let '(maxDelay, worstEdge) := acc in
  match edge with
  | None => (maxDelay, worstEdge)
  | Some e =>
      if (maxDelay <? delay e)%float then (delay e, Some e)
      else (maxDelay, worstEdge)
  end.

Definition getWorstStage (this : TimingPath) : float * option TimingEdge :=
  match edges this with
  | [] => (0%float, None)
  | _ => fold_left worst_stage_step (edges this) (0%float, None)
  end.

(** ** Analyzer ([analyzer.h], [analyzer.cpp]) *)

Record TimingPathAnalysis := {
  path : option TimingPath;
  worstStageDelay : float;
  worstStage : option TimingEdge;
  optimizationSuggestion : string
}.

(** The constructor [TimingPathAnalysis(path)]. *)
Definition TimingPathAnalysis_new (path : option TimingPath)
  : TimingPathAnalysis :=
  match path with
  | None =>
      {| path := None; worstStageDelay := 0; worstStage := None;
         optimizationSuggestion := "No path data available" |}
  | Some p =>
      let '(delay, edge) := getWorstStage p in
      {| path := Some p; worstStageDelay := delay; worstStage := edge;
         optimizationSuggestion :=
           match edge with
           | None => "Insufficient path data for optimization suggestions"
           | Some _ => EmptyString
           end |}
  end.

Definition set_suggestion (a : TimingPathAnalysis) (s : string)
  : TimingPathAnalysis :=
  {| path := path a; worstStageDelay := worstStageDelay a;
     worstStage := worstStage a; optimizationSuggestion := s |}.

Definition suggestFanoutOptimization (edge : option TimingEdge) : string :=
  match edge with
  | Some {| from := Some f; to := Some _ |} =>
      "balance fan-out after " ++ name (pointee f)
  | _ => "balance fan-out in the critical path"
  end.

Definition suggestCellReplacement (edge : option TimingEdge) : string :=
  match edge with
  | Some {| from := Some f |} =>
      if negb (String.eqb (type (pointee f)) "net") then
        let cellName := name (pointee f) in
        "replace " ++ cellName ++ " with " ++
        (if contains cellName "INV" then cellName ++ "_HF"
         else if contains cellName "BUF" then cellName ++ "_X4"
         else if contains cellName "NAND" || contains cellName "NOR"
              then cellName ++ "_HS"
         else "a faster variant of " ++ cellName)
      else "use faster cell library for critical path cells"
  | _ => "use faster cell library for critical path cells"
  end.

Definition suggestPipelineInsertion (edge : option TimingEdge) : string :=
  match edge with
  | Some {| from := Some f; to := Some t |} =>
      "insert pipeline register between " ++
      name (pointee f) ++ " â†’ " ++ name (pointee t)
  | _ => "insert pipeline register in the critical path"
  end.

Definition insufficient_data : string :=
  "Insufficient path data for optimization suggestions.".

Definition analyzePath (path : TimingPath) : TimingPathAnalysis :=
  let analysis := TimingPathAnalysis_new (Some path) in
  match worstStage analysis with
  | None => set_suggestion analysis insufficient_data
  | Some worstEdge =>
      match from worstEdge, to worstEdge with
      | Some _, Some _ =>
          if (cellDelay worstEdge <? netDelay worstEdge)%float
             && (0.5 * worstStageDelay analysis <? netDelay worstEdge)%float
          then set_suggestion analysis
                 (suggestPipelineInsertion (Some worstEdge))
          else if (netDelay worstEdge <? cellDelay worstEdge)%float
             && (0.5 * worstStageDelay analysis <? cellDelay worstEdge)%float
          then set_suggestion analysis
                 (suggestCellReplacement (Some worstEdge))
          else set_suggestion analysis
                 (suggestFanoutOptimization (Some worstEdge))
      | _, _ => set_suggestion analysis insufficient_data
      end
  end.

(** [std::sort(first, last, comp)]. The C++ standard specifies its result
    as a rearrangement of the range in which no element is ordered by
    [comp] before an element that precedes it; the relative order of
    elements that [comp] does not separate is left open. *)
Definition sorted_by {A : Type} (comp : A -> A -> bool) (l : list A) : Prop :=
  forall i j x y, i < j -> l !! i = Some x -> l !! j = Some y ->
    comp y x = false.

Definition std_sort {A : Type} (comp : A -> A -> bool)
    (input output : list A) : Prop :=
  Permutation input output /\ sorted_by comp output.

(** What [std::sort] requires of [comp]: a strict weak ordering of the
    elements it is given. The behaviour is undefined otherwise. *)
Definition strict_weak_ordering {A : Type} (comp : A -> A -> bool)
    (l : list A) : Prop :=
  (forall x, x ∈ l -> comp x x = false) /\
  (forall x y z, x ∈ l -> y ∈ l -> z ∈ l ->
     comp x y = true -> comp y z = true -> comp x z = true) /\
  (forall x y z, x ∈ l -> y ∈ l -> z ∈ l ->
     comp x y = false -> comp y x = false ->
     comp y z = false -> comp z y = false ->
     comp x z = false /\ comp z x = false).

(** The comparator of [findCriticalPaths]: [a->totalDelay > b->totalDelay]. *)
Definition by_total_delay_desc (a b : TimingPath) : bool :=
  (totalDelay b <? totalDelay a)%float.

(** [static_cast<int>(n)] for a [size_t] [n]: the value modulo [2^32],
    read as a signed 32-bit integer. *)
Definition static_cast_int (n : Z) : Z :=
  ((n + 2 ^ 31) mod 2 ^ 32 - 2 ^ 31)%Z.

Definition INT_MAX : Z := (2 ^ 31 - 1)%Z.

(** [findCriticalPaths(paths, topK)] relates its arguments to every
    result that some outcome of [std::sort] leads to, for paths that meet
    the requirement of [std::sort]. The loop
    [for (i = 0; i < std::min(topK, n); ++i)] runs over the first
    [min(topK, n)] sorted paths, and over none when that bound is not
    positive. *)
Definition findCriticalPaths (paths : list TimingPath) (topK : Z)
    (criticalPaths : list TimingPathAnalysis) : Prop :=
  strict_weak_ordering by_total_delay_desc paths /\
  exists pathPtrs : list TimingPath,
    std_sort by_total_delay_desc paths pathPtrs /\
    criticalPaths =
      map analyzePath
        (take (Z.to_nat
                 (Z.min topK (static_cast_int (Z.of_nat (length pathPtrs)))))
              pathPtrs).

(** ** Exceptions, regular expressions and [std::stod] *)

(** The result of a call that may throw a [std::exception]; [what] is the
    message of the exception. *)
Inductive outcome (A : Type) : Type :=
| Ok (a : A)
| Throw (what : string).
Arguments Ok {A} a.
Arguments Throw {A} what.

(** Character classes of the classic "C" locale. *)
Definition isspace (c : ascii) : bool :=
  let n := nat_of_ascii c in
  Nat.eqb n 32 || (Nat.leb 9 n && Nat.leb n 13).

Definition isdigit (c : ascii) : bool :=
  let n := nat_of_ascii c in
  Nat.leb 48 n && Nat.leb n 57.

Definition is_char (a c : ascii) : bool := Ascii.eqb a c.

(** The fragment of the ECMAScript grammar of [std::regex] that the two
    patterns of the parser are written in: a single character taken from
    a class, a greedy repetition [+] of such a character, concatenation,
    and a capture group. *)
Inductive regex : Type :=
| One (p : ascii -> bool)
| Plus (p : ascii -> bool)
| Seq (r1 r2 : regex)
| Group (r : regex).

(** The part of [s] in front of its suffix [s']. *)
Definition consumed (s s' : string) : string :=
  String.substring 0 (String.length s - String.length s') s.

Section Backtracking.
Context {R : Type}.

(** [p+], greedy: the longest run is tried first, then shorter ones. *)
Fixpoint plus_bt (p : ascii -> bool) (s : string)
    (k : string -> option R) : option R :=
  match s with
  | EmptyString => None
  | String c s' =>
      if p c then
        match plus_bt p s' k with
        | Some r => Some r
        | None => k s'
        end
      else None
  end.

(** Backtracking match of [r] at the start of [s]; [k] matches what
    follows [r], and [caps] are the groups closed so far. *)
Fixpoint bt (r : regex) (s : string) (caps : list string)
    (k : string -> list string -> option R) : option R :=
  match r with
  | One p =>
      match s with
      | EmptyString => None
      | String c s' => if p c then k s' caps else None
      end
  | Plus p => plus_bt p s (fun s' => k s' caps)
  | Seq r1 r2 => bt r1 s caps (fun s' caps' => bt r2 s' caps' k)
  | Group r1 =>
      bt r1 s caps (fun s' caps' => k s' (caps' ++ [consumed s s'])%list)
  end.
End Backtracking.

(** [std::regex_search(s, matches, r)]: the leftmost match, and at that
    position the first one in backtracking order. The result lists
    [matches[1].str()], [matches[2].str()], ... *)
Fixpoint regex_search (r : regex) (s : string) : option (list string) :=
  match bt r s [] (fun _ caps => Some caps) with
  | Some caps => Some caps
  | None =>
      match s with
      | EmptyString => None
      | String _ s' => regex_search r s'
      end
  end.

Definition literal (s : string) (rest : regex) : regex :=
  fold_right (fun c r => Seq (One (is_char c)) r) rest (list_ascii_of_string s).

Definition digit_or_dot (c : ascii) : bool := isdigit c || is_char "." c.
Definition nonspace (c : ascii) : bool := negb (isspace c).

(** [Path\s+(\S+)\s+(\S+)\s+(\S+)\s+([\d\.]+)] *)
Definition headerPattern : regex :=
  literal "Path"
    (Seq (Plus isspace) (Seq (Group (Plus nonspace))
    (Seq (Plus isspace) (Seq (Group (Plus nonspace))
    (Seq (Plus isspace) (Seq (Group (Plus nonspace))
    (Seq (Plus isspace) (Group (Plus digit_or_dot))))))))).

(** [(\S+\.\d+)\s+(\S+)\s+(\S+)\s+([\d\.]+)] *)
Definition stagePattern : regex :=
  Seq (Group (Seq (Plus nonspace) (Seq (One (is_char ".")) (Plus isdigit))))
    (Seq (Plus isspace) (Seq (Group (Plus nonspace))
    (Seq (Plus isspace) (Seq (Group (Plus nonspace))
    (Seq (Plus isspace) (Group (Plus digit_or_dot))))))).

(** The longest prefix of decimal digits of [s], and what follows it. *)
Fixpoint span_digits (s : string) : list ascii * string :=
  match s with
  | String c s' =>
      if isdigit c then let '(ds, rest) := span_digits s' in (c :: ds, rest)
      else ([], s)
  | EmptyString => ([], s)
  end.

Definition decimal_value (ds : list ascii) : Z :=
  fold_left (fun acc c => (10 * acc + Z.of_nat (nat_of_ascii c - 48))%Z) ds 0%Z.

(** The double nearest to [n / 10^k] (ties to even), as a specification
    float. *)
Definition nearest_double (n : positive) (k : nat) : spec_float :=
  SFdiv prec emax (S754_finite false n 0)
                  (S754_finite false (Z.to_pos (10 ^ Z.of_nat k)) 0).

(** [r] is exactly [n / 10^k]. *)
Definition exactly (r : spec_float) (n : positive) (k : nat) : bool :=
  match r with
  | S754_finite false m e =>
      match e with
      | Z0 => Z.eqb (Zpos m * 10 ^ Z.of_nat k) (Zpos n)
      | Zpos p => Z.eqb (Zpos m * 2 ^ Zpos p * 10 ^ Z.of_nat k) (Zpos n)
      | Zneg p => Z.eqb (Zpos m * 10 ^ Z.of_nat k) (Zpos n * 2 ^ Zpos p)
      end
  | _ => false
  end.

Definition subnormal_or_zero (r : spec_float) : bool :=
  match r with
  | S754_zero _ => true
  | S754_finite _ m _ => negb (Z.eqb (Zpos (digits2_pos m)) prec)
  | _ => false
  end.

(** [n / 10^k] is tiny: rounded to 53 bits with an exponent that has no
    lower bound, it is still below [2^-1022], the least normal double.
    That is so exactly when [n / 10^k < 2^-1022 - 2^-1076]. *)
Definition tiny (n : positive) (k : nat) : bool :=
  (Zpos n * 2 ^ 1076 <? (2 ^ 54 - 1) * 10 ^ Z.of_nat k)%Z.

(** [std::stod(s)] on the strings the parser passes to it, matches of
    [[\d\.]+]. [strtod] converts the longest prefix made of digits with at
    most one dot and at least one digit, rounding to the nearest double;
    [stod] throws [std::invalid_argument] when there is no such prefix
    and [std::out_of_range] when [strtod] reports a range error: the
    value is too large for a finite double, or it is tiny and is not
    converted exactly. A value that rounds to a subnormal double or to
    zero is tiny, and so is one just below [2^-1022] that rounds to
    [2^-1022] only because the doubles are coarser there. *)
Definition stod (s : string) : outcome float :=
  let '(int_digits, rest) := span_digits s in
  let frac_digits :=
    match rest with
    | String "." rest' => fst (span_digits rest')
    | _ => []
    end in
  match (int_digits ++ frac_digits)%list with
  | [] => Throw "stod"
  | ds =>
      match decimal_value ds with
      | Zpos n =>
          let r := nearest_double n (length frac_digits) in
          let x := SF2Prim r in
          if is_finite x
             && negb ((subnormal_or_zero r || tiny n (length frac_digits))
                      && negb (exactly r n (length frac_digits)))
          then Ok x else Throw "stod"
      | _ => Ok 0%float
      end
  end.

(** ** Parser ([parser.h], [parser.cpp]) *)

(** The state of a [TimingParser]: its node cache, and the address that
    the next allocation of a [TimingNode] receives. *)
Record TimingParser := {
  nodeCache : gmap string node_ptr;
  next_address : nat
}.

(** A freshly constructed parser. *)
Definition TimingParser_new : TimingParser :=
  {| nodeCache := ∅; next_address := 0 |}.

(** [std::make_shared<TimingNode>(name, type)] *)
Definition make_shared_node (name type : string) (this : TimingParser)
  : node_ptr * TimingParser :=
  ({| address := next_address this;
      pointee := {| name := name; type := type;
                    capacitance := 0; slew := 0 |} |},
   {| nodeCache := nodeCache this;
      next_address := S (next_address this) |}).

(** [nodeCache[name] = node] *)
Definition cache_node (name : string) (node : node_ptr) (this : TimingParser)
  : TimingParser :=
  {| nodeCache := <[name := node]> (nodeCache this);
     next_address := next_address this |}.

(** The type given to a node first met as the source of a stage. *)
Definition fromType (fromName : string) : string :=
  if contains fromName "NET" then "net"
  else if contains fromName "FF" || contains fromName "FLOP" then "flop"
  else if contains fromName "PI" then "primary_input"
  else "unknown".

(** The type given to a node first met as the destination of a stage. *)
Definition toType (toName : string) : string :=
  if contains toName "NET" then "net"
  else if contains toName "INV" then "inverter"
  else if contains toName "BUF" then "buffer"
  else if contains toName "NAND" then "nand"
  else if contains toName "NOR" then "nor"
  else if contains toName "FF" || contains toName "FLOP" then "flop"
  else if contains toName "PO" then "primary_output"
  else "unknown".

(** "Get or create" of [parsePathStage] for the source node ... *)
Definition fromNode_of (fromName : string) (this : TimingParser)
  : node_ptr * TimingParser :=
  match nodeCache this !! fromName with
  | Some fromNode => (fromNode, this)
  | None =>
      let '(fromNode, this) :=
        make_shared_node fromName (fromType fromName) this in
      (fromNode, cache_node fromName fromNode this)
  end.

(** ... and for the destination node. *)
Definition toNode_of (toName : string) (this : TimingParser)
  : node_ptr * TimingParser :=
  match nodeCache this !! toName with
  | Some toNode => (toNode, this)
  | None =>
      let '(toNode, this) := make_shared_node toName (toType toName) this in
      (toNode, cache_node toName toNode this)
  end.

Definition set_netDelay (e : TimingEdge) (d : float) : TimingEdge :=
  {| from := from e; to := to e; delay := delay e;
     netDelay := d; cellDelay := cellDelay e |}.

Definition set_cellDelay (e : TimingEdge) (d : float) : TimingEdge :=
  {| from := from e; to := to e; delay := delay e;
     netDelay := netDelay e; cellDelay := d |}.

(** [parsePathStage(line)]: the edge of a stage line, [Ok None] (a null
    pointer) when the line does not match, [Throw] when [std::stod]
    throws. *)
Definition parsePathStage (line : string) (this : TimingParser)
  : outcome (option TimingEdge) * TimingParser :=
  match regex_search stagePattern line with
  | Some [stageId; toName; fromName; delayText] =>
      match stod delayText with
      | Throw what => (Throw what, this)
      | Ok delay =>
          let '(fromNode, this) := fromNode_of fromName this in
          let '(toNode, this) := toNode_of toName this in
          let edge := TimingEdge_new (Some fromNode) (Some toNode) delay in
          let edge :=
            if String.eqb (type (pointee fromNode)) "net"
            then set_netDelay edge delay
            else set_cellDelay edge delay in
          (Ok (Some edge), this)
      end
  | _ => (Ok None, this)
  end.

(** [parsePathHeader(line)] returns [{id, startpoint, endpoint, delay}]. *)
Definition parsePathHeader (line : string)
  : outcome (string * string * string * float) :=
  match regex_search headerPattern line with
  | Some [id; endpoint; startpoint; delayText] =>
      match stod delayText with
      | Throw what => Throw what
      | Ok delay => Ok (id, startpoint, endpoint, delay)
      end
  | _ => Throw ("Invalid path header format: " ++ line)
  end.

(** The test that ends the section of a path. *)
Definition ends_section (line : string) : bool :=
  String.eqb line EmptyString || starts_with line "Path " || contains line "End of".

(** The [while] loop of [parsePath]: [rest] holds the lines from index
    [lineIndex] on, [edges] is [path.edges]. *)
Fixpoint parsePath_loop (id : string) (rest : list string) (lineIndex : nat)
    (edges : list (option TimingEdge)) (this : TimingParser)
  : list (option TimingEdge) * nat * TimingParser :=
  match rest with
  | [] => (edges, lineIndex, this)
  | line :: rest' =>
      if ends_section line then (edges, lineIndex, this)
      else if contains line (id ++ ".") then
        match parsePathStage line this with
        | (Ok (Some edge), this') =>
            parsePath_loop id rest' (S lineIndex) (edges ++ [Some edge])%list this'
        | (Ok None, this') =>
            parsePath_loop id rest' (S lineIndex) edges this'
        | (Throw _, this') =>
            parsePath_loop id rest' (S lineIndex) edges this'
        end
      else parsePath_loop id rest' (S lineIndex) edges this
  end.

(** [parsePath(lines, startLine)], for [startLine] an index of [lines]. *)
Definition parsePath (lines : list string) (startLine : nat)
    (this : TimingParser) : outcome (TimingPath * nat) * TimingParser :=
  match parsePathHeader (lines !!! startLine) with
  | Throw what => (Throw what, this)
  | Ok (id, startpoint, endpoint, delay) =>
      let '(edges, lineIndex, this) :=
        parsePath_loop id (drop (startLine + 1) lines) (startLine + 1) [] this in
      (Ok ({| id := id; startpoint := startpoint; endpoint := endpoint;
              totalDelay := delay; edges := edges |}, lineIndex), this)
  end.

(** The scan of [parseFile] over the lines read from the file. Every turn
    of its [while] loop moves [lineIndex] forward, so [fuel] turns are
    enough when [fuel] is the number of lines; [None] stands for a loop
    cut short by lack of fuel. *)
Fixpoint parseFile_loop (fuel : nat) (lines : list string) (lineIndex : nat)
    (paths : list TimingPath) (this : TimingParser)
  : option (list TimingPath * TimingParser) :=
  match lines !! lineIndex with
  | None => Some (paths, this)
  | Some line =>
      match fuel with
      | O => None
      | S fuel =>
          if starts_with line "Path " then
            match parsePath lines lineIndex this with
            | (Ok (path, nextLine), this') =>
                parseFile_loop fuel lines nextLine (paths ++ [path])%list this'
            | (Throw _, this') =>
                parseFile_loop fuel lines (S lineIndex) paths this'
            end
          else parseFile_loop fuel lines (S lineIndex) paths this
      end
  end.

(** [parseFile], from the point where the lines of the file have been
    read. *)
Definition parseFile (lines : list string) (this : TimingParser)
  : option (list TimingPath * TimingParser) :=
  parseFile_loop (length lines) lines 0 [] this.

(** ** Statements about the worst stage *)

(** No edge of [es] has a delay above [m]. *)
Definition none_exceeds (es : list (option TimingEdge)) (m : float) : Prop :=
  forall e, Some e ∈ es -> (m <? delay e)%float = false.

(** [e], at index [i], is the first edge of [es] attaining the maximum
    delay: no edge has a larger delay and no earlier edge has the same
    delay. *)
Definition first_maximum (es : list (option TimingEdge)) (i : nat)
    (e : TimingEdge) : Prop :=
  es !! i = Some (Some e) /\
  none_exceeds es (delay e) /\
  forall j e', j < i -> es !! j = Some (Some e') ->
    (delay e' =? delay e)%float = false.

(** ** Paths of the analyzer tests ([test_analyzer.cpp]) *)

Definition createTestPath (id : string) (delay : float) : TimingPath :=
  {| id := id; startpoint := "TEST_START"; endpoint := "TEST_END";
     totalDelay := delay; edges := [] |}.

(** [addTestEdge]; its two nodes are allocated at [addr] and [addr + 1]. *)
Definition addTestEdge (path : TimingPath) (addr : nat)
    (fromName toName : string) (delay netDelay cellDelay : float)
  : TimingPath :=
  let node_type n := if contains n "NET" then "net" else "cell" in
  let fromNode :=
    {| address := addr;
       pointee := {| name := fromName; type := node_type fromName;
                     capacitance := 0; slew := 0 |} |} in
  let toNode :=
    {| address := addr + 1;
       pointee := {| name := toName; type := node_type toName;
                     capacitance := 0; slew := 0 |} |} in
  let edge :=
    set_cellDelay
      (set_netDelay (TimingEdge_new (Some fromNode) (Some toNode) delay)
                    netDelay)
      cellDelay in
  {| id := id path; startpoint := startpoint path; endpoint := endpoint path;
     totalDelay := totalDelay path; edges := (edges path ++ [Some edge])%list |}.

Definition path1 : TimingPath :=
  let p := createTestPath "P1" 5 in
  let p := addTestEdge p 0 "START" "NET1" 1 0.3 0.7 in
  let p := addTestEdge p 2 "NET1" "CELL1" 2 0.5 1.5 in
  let p := addTestEdge p 4 "CELL1" "NET2" 1 0.6 0.4 in
  addTestEdge p 6 "NET2" "END" 1 0.3 0.7.

Definition path2 : TimingPath :=
  let p := createTestPath "P2" 4 in
  let p := addTestEdge p 8 "START" "NET3" 0.5 0.5 0 in
  let p := addTestEdge p 10 "NET3" "CELL2" 0.5 0 0.5 in
  let p := addTestEdge p 12 "CELL2" "NET4" 2.5 2 0.5 in
  addTestEdge p 14 "NET4" "END" 0.5 0 0.5.

Definition path3 : TimingPath :=
  let p := createTestPath "P3" 6 in
  let p := addTestEdge p 16 "START" "NET5" 1 0.5 0.5 in
  let p := addTestEdge p 18 "NET5" "CELL3" 1 0.5 0.5 in
  let p := addTestEdge p 20 "CELL3" "NET6" 2 1 1 in
  addTestEdge p 22 "NET6" "END" 2 1 1.

(** A path with a single stage of delay [0.0], as the stage line
    ["Z.1 NET1 INV1 0.0"] gives. *)
Definition zero_delay_path : TimingPath :=
  addTestEdge (createTestPath "Z" 0) 0 "INV1" "NET1" 0 0 0.

(** A path whose worst stage has the source ["INV1"], a cell delay of
    [1.5] and a net delay of [0.5]. *)
Definition inverter_path : TimingPath :=
  addTestEdge (createTestPath "C" 2) 0 "INV1" "NET1" 2 0.5 1.5.

Definition with_edges (p : TimingPath) (es : list (option TimingEdge))
  : TimingPath :=
  {| id := id p; startpoint := startpoint p; endpoint := endpoint p;
     totalDelay := totalDelay p; edges := es |}.

(** The three kinds of advice that [analyzePath] gives on a worst edge. *)
Definition is_advice (s : string) : bool :=
  starts_with s "insert pipeline register"
  || starts_with s "replace "
  || starts_with s "use faster cell library"
  || starts_with s "balance fan-out".

(** ** Statements about the ranking *)

(** A stable sort by [comp]: elements that [comp] does not separate keep
    the order they have in the input. *)
Fixpoint stable_insert {A : Type} (comp : A -> A -> bool) (x : A)
    (l : list A) : list A :=
  match l with
  | [] => [x]
  | y :: l' => if comp y x then y :: stable_insert comp x l' else x :: y :: l'
  end.

Fixpoint stable_sort {A : Type} (comp : A -> A -> bool) (l : list A)
  : list A :=
  match l with
  | [] => []
  | x :: l' => stable_insert comp x (stable_sort comp l')
  end.

(** No element is ordered by [comp] before one on its left. *)
Definition descending {A : Type} (comp : A -> A -> bool) : list A -> Prop :=
  StronglySorted (fun x y => comp y x = false).

(** Seventeen paths of the same total delay, in the order of their ids,
    and the same paths in another order. *)
Definition tied_ids : list string :=
  ["T00"; "T01"; "T02"; "T03"; "T04"; "T05"; "T06"; "T07"; "T08";
   "T09"; "T10"; "T11"; "T12"; "T13"; "T14"; "T15"; "T16"].

Definition reordered_ids : list string :=
  ["T08"; "T16"; "T15"; "T14"; "T13"; "T12"; "T11"; "T10"; "T09";
   "T00"; "T07"; "T06"; "T05"; "T04"; "T03"; "T02"; "T01"].

Definition tied_paths : list TimingPath :=
  map (fun id => createTestPath id 1) tied_ids.

Definition reordered_paths : list TimingPath :=
  map (fun id => createTestPath id 1) reordered_ids.

(** ** Statements about the parser *)

(** The whole delay of [e] is net delay when the type of its source is
    ["net"], and cell delay otherwise; both endpoints are set. *)
Definition split_by_source (e : TimingEdge) : Prop :=
  exists f t, from e = Some f /\ to e = Some t /\
    (type (pointee f) = "net" ->
       netDelay e = delay e /\ cellDelay e = 0%float) /\
    (type (pointee f) <> "net" ->
       cellDelay e = delay e /\ netDelay e = 0%float).

(** [n] is the instance that the cache holds for the name of [n]. *)
Definition cached (this : TimingParser) (n : node_ptr) : Prop :=
  nodeCache this !! name (pointee n) = Some n.

(** Both endpoints of [e] are instances held by the cache. *)
Definition endpoints_cached (this : TimingParser) (e : TimingEdge) : Prop :=
  exists f t, from e = Some f /\ to e = Some t /\
    cached this f /\ cached this t.

(** The endpoints of an edge. *)
Definition endpoints (e : TimingEdge) : list node_ptr :=
  match from e with Some f => [f] | None => [] end ++
  match to e with Some t => [t] | None => [] end.

(** What holds of the cache of a parser throughout its life: a node is
    kept under its own name, at an address that has been allocated, and
    nodes of different names are different allocations. *)
Definition consistent (this : TimingParser) : Prop :=
  (forall n p, nodeCache this !! n = Some p ->
     name (pointee p) = n /\ address p < next_address this) /\
  (forall n1 n2 p1 p2,
     nodeCache this !! n1 = Some p1 -> nodeCache this !! n2 = Some p2 ->
     address p1 = address p2 -> n1 = n2).

(** The edge that [parsePathStage] builds from the nodes [f] and [t] and
    the delay [d]. *)
Definition stage_edge (f t : node_ptr) (d : float) : TimingEdge :=
  if String.eqb (type (pointee f)) "net"
  then set_netDelay (TimingEdge_new (Some f) (Some t) d) d
  else set_cellDelay (TimingEdge_new (Some f) (Some t) d) d.

(** The lines of a section: those in front of the first line that ends
    it. *)
Fixpoint section_lines (rest : list string) : list string :=
  match rest with
  | [] => []
  | line :: rest' =>
      if ends_section line then [] else line :: section_lines rest'
  end.

(** [parsePathStage] on each of [stage_lines] in turn; the edges of the
    lines that give one, in order. *)
Fixpoint parse_stages (stage_lines : list string) (this : TimingParser)
  : list (option TimingEdge) * TimingParser :=
  match stage_lines with
  | [] => ([], this)
  | line :: stage_lines' =>
      let '(r, this) := parsePathStage line this in
      let '(es, this) := parse_stages stage_lines' this in
      (match r with Ok (Some e) => Some e :: es | _ => es end, this)
  end.

(** What the header of a path says. *)
Definition header_of (p : TimingPath) : string * string * string * float :=
  (id p, startpoint p, endpoint p, totalDelay p).

(** A well-formed header line: it starts with ["Path "] and
    [parsePathHeader] accepts it. *)
Definition well_formed_header (line : string)
  : option (string * string * string * float) :=
  if starts_with line "Path " then
    match parsePathHeader line with
    | Ok h => Some h
    | Throw _ => None
    end
  else None.

(** The well-formed headers of a report, in the order of their lines. *)
Definition well_formed_headers (lines : list string)
  : list (string * string * string * float) :=
  omap well_formed_header lines.

(** The lines of [block] that [parsePath] takes for stage lines of the
    path [id]. *)
Definition stage_lines (id : string) (block : list string) : list string :=
  List.filter (fun line => contains line (id ++ ".")) block.

(** What holds of an edge that a parser made on its way from the state
    [this] to the state [this']. *)
Definition parsed_edge (this this' : TimingParser)
    (edge : option TimingEdge) : Prop :=
  exists e, edge = Some e /\
    split_by_source e /\
    (delay e =? netDelay e + cellDelay e)%float = true /\
    (consistent this -> endpoints_cached this' e).

(** The report of scenario A. *)
Definition scenario_a : list string :=
  ["Path P1 FF_Q PI 2.345"; "P1.1 NET1 PI 0.123"; "P1.2 INV1 NET1 0.456"].

(** A report of two sections, the first one ended by an empty line. *)
Definition two_sections : list string :=
  ["Path P1 FF_Q PI 2.345"; "P1.1 NET1 PI 0.123"; EmptyString;
   "Path P2 NAND1_Y PI2 3.210"; "P2.1 NET3 PI2 0.210"].

(** The index that C7 words as "immediately after the last line examined
    in the block": one past the line that ends the section when there is
    one, and the number of lines otherwise. *)
Definition index_after_last_examined (lines : list string) (startLine : nat)
  : nat :=
  let last := S startLine + length (section_lines (drop (S startLine) lines)) in
  if decide (last < length lines) then S last else length lines.

(** The category of a node as a single list of checks would give it:
    ["NET"], then ["FF"] or ["FLOP"], then ["PI"] for a source, then
    ["INV"], ["BUF"], ["NAND"], ["NOR"], then ["PO"] for a destination. *)
Definition listed_category (is_source : bool) (n : string) : string :=
  if contains n "NET" then "net"
  else if contains n "FF" || contains n "FLOP" then "flop"
  else if is_source && contains n "PI" then "primary_input"
  else if contains n "INV" then "inverter"
  else if contains n "BUF" then "buffer"
  else if contains n "NAND" then "nand"
  else if contains n "NOR" then "nor"
  else if negb is_source && contains n "PO" then "primary_output"
  else "unknown".

(** ** Statements about the parser as a whole *)

(** The type of every cached node is the one inferred from its name, as a
    source or as a destination. *)
Definition well_typed (this : TimingParser) : Prop :=
  forall n p, nodeCache this !! n = Some p ->
    type (pointee p) = fromType n \/ type (pointee p) = toType n.

(** As many nodes have been allocated as the cache holds names. *)
Definition one_allocation_per_name (this : TimingParser) : Prop :=
  size (nodeCache this) = next_address this.

(** [edge] is an edge, not a null pointer, and [P] holds of it. *)
Definition edge_has (P : TimingEdge -> Prop) (edge : option TimingEdge)
  : Prop :=
  exists e, edge = Some e /\ P e.

(** The delay of [e] is all net delay when the name of its source contains
    ["NET"], and all cell delay otherwise. *)
Definition split_by_name (e : TimingEdge) : Prop :=
  exists f, from e = Some f /\
    (contains (name (pointee f)) "NET" = true ->
       netDelay e = delay e /\ cellDelay e = 0%float) /\
    (contains (name (pointee f)) "NET" = false ->
       cellDelay e = delay e /\ netDelay e = 0%float).

(** ** Statements about the analyzer as a whole *)

(** The edges of [es] that are not null pointers. *)
Definition non_null (es : list (option TimingEdge))
  : list (option TimingEdge) :=
  List.filter (fun edge => match edge with Some _ => true | None => false end)
    es.

(** No two different paths of [paths] have the same total delay. *)
Definition no_ties (paths : list TimingPath) : Prop :=
  forall a b, a ∈ paths -> b ∈ paths ->
    a = b \/ by_total_delay_desc a b = true \/ by_total_delay_desc b a = true.

(** ** Statements about parsing and analysing together *)

(** The cell that [suggestCellReplacement] names in place of
    [cellName]. *)
Definition faster_variant (cellName : string) : string :=
  if contains cellName "INV" then cellName ++ "_HF"
  else if contains cellName "BUF" then cellName ++ "_X4"
  else if contains cellName "NAND" || contains cellName "NOR"
       then cellName ++ "_HS"
  else "a faster variant of " ++ cellName.

(** [e] is an edge as [parsePathStage] builds it: its delay is a finite
    double, and its source is of type ["net"] exactly when the name of
    the source contains ["NET"]. *)
Definition parsed_stage (e : TimingEdge) : Prop :=
  exists f t d, e = stage_edge f t d /\ is_finite d = true /\
    (type (pointee f) = "net" <-> contains (name (pointee f)) "NET" = true).

(** The advice for a path whose worst stage leads from [f] to [t], when
    the path comes from the parser. *)
Definition parsed_advice (f t : node_ptr) : string :=
  if contains (name (pointee f)) "NET"
  then "insert pipeline register between " ++
       name (pointee f) ++ " â†’ " ++ name (pointee t)
  else "replace " ++ name (pointee f) ++ " with " ++
       faster_variant (name (pointee f)).

(** ** Statements about the tokens of a report *)

(** [w] is a non-empty word of characters of the class [p]. *)
Definition word_of (p : ascii -> bool) (w : string) : Prop :=
  w <> EmptyString /\
  Forall (fun c => p c = true) (list_ascii_of_string w).

(** A name as the patterns capture it with [\S+]: not empty, and without
    white space. *)
Definition token (s : string) : Prop := word_of nonspace s.

(** [matches r w caps]: the pattern [r] matches the whole of [w], and its
    groups captured [caps], in the order in which the groups close. *)
Inductive matches : regex -> string -> list string -> Prop :=
| matches_One p c :
    p c = true -> matches (One p) (String c EmptyString) []
| matches_Plus p w :
    word_of p w -> matches (Plus p) w []
| matches_Seq r1 r2 w1 w2 caps1 caps2 :
    matches r1 w1 caps1 -> matches r2 w2 caps2 ->
    matches (Seq r1 r2) (w1 ++ w2) (caps1 ++ caps2)%list
| matches_Group r w caps :
    matches r w caps -> matches (Group r) w (caps ++ [w])%list.

(** ** Statements about the reports of a directory *)

(** The report [lines] is empty, or its first line ends a section: it is
    empty, a header line, or a line with ["End of"]. *)
Definition starts_a_section (lines : list string) : Prop :=
  match lines with [] => True | line :: _ => ends_section line = true end.

(** The loop of [main] over a directory. [reports] are the lines of the
    regular files with the extension [.rpt], in the order in which the
    directory iterator gives them; one parser reads them all, and the
    paths of each report are put at the end of [allPaths]. *)
Fixpoint parse_reports (reports : list (list string))
    (allPaths : list TimingPath) (parser : TimingParser)
  : option (list TimingPath * TimingParser) :=
  match reports with
  | [] => Some (allPaths, parser)
  | lines :: reports' =>
      match parseFile lines parser with
      | Some (paths, parser') =>
          parse_reports reports' (allPaths ++ paths)%list parser'
      | None => None
      end
  end.

(** ** The command line ([main.cpp]) *)

Definition INT_MIN : Z := (- 2 ^ 31)%Z.

(** What follows the white space at the start of [s]. *)
Fixpoint skip_space (s : string) : string :=
  match s with
  | String c s' => if isspace c then skip_space s' else s
  | EmptyString => s
  end.

(** [std::stoi(s)]: [strtol] in base 10 skips white space, reads an
    optional sign and the longest run of digits, and ignores what
    follows; [stoi] throws [std::invalid_argument] when there is no digit
    and [std::out_of_range] when the value is not an [int]. Both
    exceptions carry the message ["stoi"]. *)
Definition stoi (s : string) : outcome Z :=
  let s1 := skip_space s in
  let '(negative, s2) :=
    match s1 with
    | String "-" s' => (true, s')
    | String "+" s' => (false, s')
    | _ => (false, s1)
    end in
  match fst (span_digits s2) with
  | [] => Throw "stoi"
  | ds =>
      let n := decimal_value ds in
      let v := if negative : bool then (- n)%Z else n in
      if (INT_MIN <=? v)%Z && (v <=? INT_MAX)%Z then Ok v else Throw "stoi"
  end.

(** The parameters that [main] reads from the command line. *)
Record Options := {
  inputFile : string;
  inputDir : string;
  outputFile : string;
  topK : Z
}.

Definition default_options : Options :=
  {| inputFile := EmptyString; inputDir := EmptyString;
     outputFile := EmptyString; topK := 10 |}.

(** How the loop over the arguments ends: with the help text, at an
    argument that it does not know, with the exception that [std::stoi]
    throws, or at the end of the arguments. *)
Inductive arguments_result : Type :=
| Help
| Unknown (arg : string)
| Uncaught (what : string)
| Accepted (o : Options).

(** [arg == short || arg == long] *)
Definition is_flag (arg short long : string) : bool :=
  String.eqb arg short || String.eqb arg long.

(** The loop [for (int i = 1; i < argc; i++)] of [main] over [argv[1]],
    [argv[2]], ...; a flag takes its value, [argv[++i]], only when there
    is a next argument. *)
Fixpoint parse_arguments (args : list string) (o : Options)
  : arguments_result :=
  match args with
  | [] => Accepted o
  | arg :: rest =>
      if is_flag arg "-h" "--help" then Help
      else
        match rest with
        | [] => Unknown arg
        | value :: rest' =>
            if is_flag arg "-f" "--file" then
              parse_arguments rest'
                {| inputFile := value; inputDir := inputDir o;
                   outputFile := outputFile o; topK := topK o |}
            else if is_flag arg "-d" "--dir" then
              parse_arguments rest'
                {| inputFile := inputFile o; inputDir := value;
                   outputFile := outputFile o; topK := topK o |}
            else if is_flag arg "-o" "--output" then
              parse_arguments rest'
                {| inputFile := inputFile o; inputDir := inputDir o;
                   outputFile := value; topK := topK o |}
            else if is_flag arg "-k" "--topk" then
              match stoi value with
              | Ok n =>
                  parse_arguments rest'
                    {| inputFile := inputFile o; inputDir := inputDir o;
                       outputFile := outputFile o; topK := n |}
              | Throw what => Uncaught what
              end
            else Unknown arg
        end
  end.

(** What [main] does with its arguments: it returns a code without
    reading a report, it is terminated by an exception that nothing
    catches ([std::stoi] is called outside the [try] block), or it goes on
    to read one report or the reports of a directory. *)
Inductive main_result : Type :=
| Return (code : Z)
| Terminate (what : string)
| ProcessFile (file output : string) (k : Z)
| ProcessDirectory (dir output : string) (k : Z).

Definition main (args : list string) : main_result :=
  match parse_arguments args default_options with
  | Help => Return 0
  | Unknown _ => Return 1
  | Uncaught what => Terminate what
  | Accepted o =>
      if String.eqb (inputFile o) EmptyString
         && String.eqb (inputDir o) EmptyString
      then Return 1
      else if negb (String.eqb (inputFile o) EmptyString)
      then ProcessFile (inputFile o) (outputFile o) (topK o)
      else ProcessDirectory (inputDir o) (outputFile o) (topK o)
  end.

(** The flags that take a value. *)
Definition value_flags : list string :=
  ["-f"; "--file"; "-d"; "--dir"; "-o"; "--output"; "-k"; "--topk"].

(** [value] is given on the command line [args] to one of the flags
    [short] and [long]. *)
Definition given (args : list string) (short long value : string) : Prop :=
  exists i flag, args !! (2 * i) = Some flag /\
    is_flag flag short long = true /\ args !! (2 * i + 1) = Some value.

(** What holds of a command line [args] from which [main] goes on to
    read reports, writing to [output] and asking for [k] paths: the
    arguments are pairs of a flag and its value, [output] and [k] are
    the defaults or values given to their flags, and [k] is an [int]. *)
Definition accepted_command_line (args : list string) (output : string)
    (k : Z) : Prop :=
  Nat.Even (length args) /\
  (forall i arg, args !! (2 * i) = Some arg -> arg ∈ value_flags) /\
  (output = EmptyString \/ given args "-o" "--output" output) /\
  (INT_MIN <= k <= INT_MAX)%Z /\
  (k = 10%Z \/
   exists text, given args "-k" "--topk" text /\ stoi text = Ok k).

(** ** Statements about the header lines of a report *)

(** White space between two tokens: one or more white-space
    characters. *)
Definition white_space (s : string) : Prop := word_of isspace s.

Definition all_digits (s : string) : Prop :=
  Forall (fun c => isdigit c = true) (list_ascii_of_string s).

(** A non-negative decimal: digits, with or without a dot before, among
    or after them. *)
Definition decimal (text : string) : Prop :=
  exists int frac, all_digits int /\ all_digits frac /\
    int ++ frac <> EmptyString /\
    (text = int ++ "." ++ frac \/ (frac = EmptyString /\ text = int)).

(** The header format of a report,
    [Path <id> <endpoint> <startpoint> <totalDelay>]: the tokens are
    separated by white space, and [<totalDelay>] is a non-negative
    decimal. *)
Definition header_format (line id endpoint startpoint totalDelay : string)
  : Prop :=
  exists ws1 ws2 ws3 ws4,
    line = "Path" ++ ws1 ++ id ++ ws2 ++ endpoint ++ ws3 ++ startpoint
           ++ ws4 ++ totalDelay /\
    white_space ws1 /\ white_space ws2 /\ white_space ws3 /\
    white_space ws4 /\
    token id /\ token endpoint /\ token startpoint /\ decimal totalDelay.

(** [line] is a valid header for the fields [h] of a path: it starts with
    ["Path "], it has the header format, and [std::stod] converts its
    delay. *)
Definition valid_header (line : string)
    (h : string * string * string * float) : Prop :=
  let '(id, startpoint, endpoint, delay) := h in
  starts_with line "Path " = true /\
  exists totalDelay,
    header_format line id endpoint startpoint totalDelay /\
    stod totalDelay = Ok delay.

(** The lines of a report that start with ["Path "]. *)
Definition header_lines (lines : list string) : list string :=
  List.filter (fun line => starts_with line "Path ") lines.

(** [s] is empty or starts with a character outside the class [p]. *)
Definition starts_outside (p : ascii -> bool) (s : string) : Prop :=
  match s with
  | EmptyString => True
  | String c _ => p c = false
  end.

Definition zeros (n : nat) : string :=
  string_of_list_ascii (repeat "0"%char n).

(** A header in the format of a report, with a delay of [10^309]. *)
Definition out_of_range_header : string :=
  "Path P1 FF_Q PI 1" ++ zeros 309.

(** A report with a header that misses its delay between two
    sections. *)
Definition broken_header : list string :=
  ["Path P1 FF_Q PI 2.345"; "P1.1 NET1 PI 0.123"; "Path P9 FF_Q PI";
   "P9.1 NET9 PI 0.5"; "Path P2 NAND1_Y PI2 3.210"; "P2.1 NET3 PI2 0.210"].

(** * Properties *)

(** ** Searching in strings *)

Lemma append_cons c s t : String c s ++ t = String c (s ++ t).
Proof. reflexivity. Qed.

Lemma prefix_split needle : forall s,
  String.prefix needle s = true <-> exists post, s = needle ++ post.
Proof.
  induction needle as [|c needle IH]; intros [|c' s]; simpl.
  - split; [intros _; by exists EmptyString|done].
  - split; [intros _; by exists (String c' s)|done].
  - split; [done|]. intros [post Hpost]. by rewrite append_cons in Hpost.
  - destruct (Ascii.ascii_dec c c') as [<-|Hne].
    + rewrite IH. split; intros [post Hpost]; exists post;
        rewrite append_cons in *; congruence.
    + split; [done|]. intros [post Hpost].
      rewrite append_cons in Hpost. congruence.
Qed.

Lemma find_eq s needle :
  find s needle =
    if String.prefix needle s then Some 0
    else match s with
         | EmptyString => None
         | String _ s' => option_map S (find s' needle)
         end.
Proof. by destruct s. Qed.

Lemma starts_with_prefix s needle :
  starts_with s needle = String.prefix needle s.
Proof.
  unfold starts_with. rewrite find_eq.
  destruct (String.prefix needle s); [done|].
  destruct s as [|c s]; [done|]. by destruct (find s needle).
Qed.

(** [contains s needle] holds exactly when [needle] occurs in [s]. *)
Lemma contains_spec needle : forall s,
  contains s needle = true <-> exists pre post, s = pre ++ needle ++ post.
Proof.
  unfold contains. induction s as [|c s IH]; rewrite find_eq.
  - destruct (String.prefix needle EmptyString) eqn:Hp.
    + split; [intros _|done].
      apply prefix_split in Hp as [post Hpost]. by exists EmptyString, post.
    + split; [done|]. intros (pre & post & Hs).
      destruct pre as [|c' pre]; [|by rewrite append_cons in Hs].
      assert (String.prefix needle EmptyString = true) as E
        by (apply prefix_split; eauto).
      congruence.
  - destruct (String.prefix needle (String c s)) eqn:Hp.
    + split; [intros _|done].
      apply prefix_split in Hp as [post Hpost]. by exists EmptyString, post.
    + destruct (find s needle) as [i|]; cbn [option_map].
      * split; [intros _|done].
        destruct (proj1 IH eq_refl) as (pre & post & ->).
        by exists (String c pre), post.
      * split; [done|]. intros (pre & post & Hs).
        destruct pre as [|c' pre].
        -- assert (String.prefix needle (String c s) = true) as E
             by (apply prefix_split; eauto).
           congruence.
        -- rewrite append_cons in Hs. injection Hs as -> ->.
           assert (@eq bool false true) as E by (apply IH; eauto).
           discriminate.
Qed.

(** ** Comparisons of doubles

    The facts about [<?] and [=?] on [float] that the scan of the worst
    stage and the edge invariant rely on, derived from the IEEE 754
    specification of the primitive operations. *)

Module F64.
Lemma SFcompare_nan_r x : SFcompare x S754_nan = None.
Proof. destruct x; reflexivity. Qed.

Lemma SFcompare_rank x y :
  is_nan_sf x = false -> is_nan_sf y = false ->
  exists c, SFcompare x y = Some c /\
    match c with
    | Lt => lex_lt (rank x) (rank y)
    | Eq => rank x = rank y
    | Gt => lex_lt (rank y) (rank x)
    end.
Proof.
  intros Hx Hy.
  destruct x as [sx|sx| |sx mx ex], y as [sy|sy| |sy my ey];
    try discriminate; simpl;
    try (destruct sx); try (destruct sy);
    try (eexists; split; [reflexivity|]; simpl; first [reflexivity | lia]).
  - (* both negative and finite *)
    eexists; split; [reflexivity|].
    change (Pos.compare_cont Eq mx my) with (Pos.compare mx my).
    destruct (Z.compare_spec ex ey) as [He|He|He];
      [destruct (Pos.compare_spec mx my) as [Hm|Hm|Hm]|..]; simpl.
    + subst; reflexivity.
    + right; split; [reflexivity|]. right. split; lia.
    + right; split; [reflexivity|]. right. split; lia.
    + right; split; [reflexivity|]. left. lia.
    + right; split; [reflexivity|]. left. lia.
  - (* both positive and finite *)
    eexists; split; [reflexivity|].
    change (Pos.compare_cont Eq mx my) with (Pos.compare mx my).
    destruct (Z.compare_spec ex ey) as [He|He|He];
      [destruct (Pos.compare_spec mx my) as [Hm|Hm|Hm]|..]; simpl.
    + subst; reflexivity.
    + right; split; [reflexivity|]. right. split; lia.
    + right; split; [reflexivity|]. right. split; lia.
    + right; split; [reflexivity|]. left. lia.
    + right; split; [reflexivity|]. left. lia.
Qed.

Lemma lex_lt_trans a b c : lex_lt a b -> lex_lt b c -> lex_lt a c.
Proof.
  destruct a as [[a1 a2] a3], b as [[b1 b2] b3], c as [[c1 c2] c3].
  unfold lex_lt. lia.
Qed.

Lemma lex_lt_irrefl a : ~ lex_lt a a.
Proof. destruct a as [[a1 a2] a3]. unfold lex_lt. lia. Qed.

Lemma lex_lt_total a b : lex_lt a b \/ a = b \/ lex_lt b a.
Proof.
  destruct a as [[a1 a2] a3], b as [[b1 b2] b3]. unfold lex_lt.
  destruct (Z.lt_total a1 b1) as [?|[?|?]]; [lia| |lia].
  destruct (Z.lt_total a2 b2) as [?|[?|?]]; [lia| |lia].
  destruct (Z.lt_total a3 b3) as [?|[?|?]]; [lia| |lia].
  right; left; congruence.
Qed.

Lemma ordered_spec x : ordered x <-> is_nan_sf (Prim2SF x) = false.
Proof.
  unfold ordered. rewrite FloatAxioms.eqb_spec. unfold SFeqb.
  destruct (is_nan_sf (Prim2SF x)) eqn:Hn.
  - destruct (Prim2SF x); try discriminate. simpl. split; discriminate.
  - destruct (SFcompare_rank _ _ Hn Hn) as (c & -> & Hc).
    destruct c; [tauto|..]; exfalso; eapply lex_lt_irrefl; eassumption.
Qed.

Lemma ltb_spec_key x y :
  (x <? y)%float = true <-> ordered x /\ ordered y /\ lex_lt (key x) (key y).
Proof.
  rewrite FloatAxioms.ltb_spec, !ordered_spec. unfold SFltb, key.
  destruct (is_nan_sf (Prim2SF x)) eqn:Hx.
  { destruct (Prim2SF x); try discriminate. simpl.
    split; [discriminate|intros (? & _); discriminate]. }
  destruct (is_nan_sf (Prim2SF y)) eqn:Hy.
  { destruct (Prim2SF y); try discriminate. rewrite SFcompare_nan_r.
    split; [discriminate|intros (_ & ? & _); discriminate]. }
  destruct (SFcompare_rank _ _ Hx Hy) as (c & -> & Hc).
  destruct c; split; try discriminate; try tauto.
  - intros (_ & _ & H). rewrite Hc in H. destruct (lex_lt_irrefl _ H).
  - intros (_ & _ & H). destruct (lex_lt_irrefl _ (lex_lt_trans _ _ _ H Hc)).
Qed.

Lemma eqb_spec_key x y :
  (x =? y)%float = true <-> ordered x /\ ordered y /\ key x = key y.
Proof.
  rewrite FloatAxioms.eqb_spec, !ordered_spec. unfold SFeqb, key.
  destruct (is_nan_sf (Prim2SF x)) eqn:Hx.
  { destruct (Prim2SF x); try discriminate. simpl.
    split; [discriminate|intros (? & _); discriminate]. }
  destruct (is_nan_sf (Prim2SF y)) eqn:Hy.
  { destruct (Prim2SF y); try discriminate. rewrite SFcompare_nan_r.
    split; [discriminate|intros (_ & ? & _); discriminate]. }
  destruct (SFcompare_rank _ _ Hx Hy) as (c & -> & Hc).
  destruct c; split; try discriminate; try tauto.
  - intros (_ & _ & H). rewrite H in Hc. destruct (lex_lt_irrefl _ Hc).
  - intros (_ & _ & H). rewrite H in Hc. destruct (lex_lt_irrefl _ Hc).
Qed.

Lemma ltb_ordered_r x y : (x <? y)%float = true -> ordered y.
Proof. rewrite ltb_spec_key. tauto. Qed.

Lemma ltb_irrefl x : (x <? x)%float = false.
Proof.
  destruct (x <? x)%float eqn:H; [|reflexivity].
  apply ltb_spec_key in H as (_ & _ & H). destruct (lex_lt_irrefl _ H).
Qed.

Lemma ltb_trans x y z :
  (x <? y)%float = true -> (y <? z)%float = true -> (x <? z)%float = true.
Proof.
  rewrite !ltb_spec_key. intros (? & ? & ?) (? & ? & ?).
  eauto using lex_lt_trans.
Qed.

(** [y] does not exceed [x], and [x] is below [z]: [y] does not exceed [z]. *)
Lemma not_ltb_ltb_trans x y z :
  (x <? y)%float = false -> (x <? z)%float = true -> (z <? y)%float = false.
Proof.
  intros Hxy Hxz. destruct (z <? y)%float eqn:Hzy; [|reflexivity].
  rewrite (ltb_trans _ _ _ Hxz Hzy) in Hxy. discriminate.
Qed.

(** A double that does not exceed [x] differs from any double above [x]. *)
Lemma not_ltb_ltb_neq x y z :
  (x <? y)%float = false -> (x <? z)%float = true -> (y =? z)%float = false.
Proof.
  intros Hxy Hxz. destruct (y =? z)%float eqn:Hyz; [|reflexivity].
  apply eqb_spec_key in Hyz as (Hy & Hz & Hk).
  apply ltb_spec_key in Hxz as (Hx & _ & Hlt).
  rewrite <- Hk in Hlt.
  assert ((x <? y)%float = true) as E by (apply ltb_spec_key; auto).
  rewrite E in Hxy. discriminate.
Qed.

Lemma eqb_not_ltb x y : (x =? y)%float = true -> (y <? x)%float = false.
Proof.
  intros Hxy. destruct (y <? x)%float eqn:H; [|reflexivity].
  apply eqb_spec_key in Hxy as (_ & _ & Hk).
  apply ltb_spec_key in H as (_ & _ & H). rewrite Hk in H.
  destruct (lex_lt_irrefl _ H).
Qed.

(** Among doubles other than NaN, "does not exceed" is transitive. *)
Lemma not_ltb_trans x y z :
  ordered x -> ordered y -> ordered z ->
  (x <? y)%float = false -> (y <? z)%float = false -> (x <? z)%float = false.
Proof.
  intros Hx Hy Hz Hxy Hyz. destruct (x <? z)%float eqn:Hxz; [|reflexivity].
  apply ltb_spec_key in Hxz as (_ & _ & Hxz).
  destruct (lex_lt_total (key x) (key y)) as [H|[H|H]].
  - assert ((x <? y)%float = true) as E by (apply ltb_spec_key; auto).
    congruence.
  - rewrite H in Hxz.
    assert ((y <? z)%float = true) as E by (apply ltb_spec_key; auto).
    congruence.
  - assert ((y <? z)%float = true) as E
      by (apply ltb_spec_key; eauto using lex_lt_trans).
    congruence.
Qed.

(** Adding zero to a double other than NaN gives a double equal to it. *)
Lemma add_zero_r x : ordered x -> (x =? x + 0)%float = true.
Proof.
  intros Hx. pose proof Hx as Hn. apply ordered_spec in Hn.
  rewrite FloatAxioms.eqb_spec, FloatAxioms.add_spec.
  change (Prim2SF 0) with (S754_zero false).
  destruct (Prim2SF x) as [s|s| |s m e] eqn:E; try discriminate.
  - destruct s; reflexivity.
  - destruct s; reflexivity.
  - unfold SF64add, SFadd.
    rewrite <- E. fold (SFeqb (Prim2SF x) (Prim2SF x)).
    rewrite <- FloatAxioms.eqb_spec. exact Hx.
Qed.

Lemma add_zero_l x : ordered x -> (x =? 0 + x)%float = true.
Proof.
  intros Hx. pose proof Hx as Hn. apply ordered_spec in Hn.
  rewrite FloatAxioms.eqb_spec, FloatAxioms.add_spec.
  change (Prim2SF 0) with (S754_zero false).
  destruct (Prim2SF x) as [s|s| |s m e] eqn:E; try discriminate.
  - destruct s; reflexivity.
  - destruct s; reflexivity.
  - unfold SF64add, SFadd.
    rewrite <- E. fold (SFeqb (Prim2SF x) (Prim2SF x)).
    rewrite <- FloatAxioms.eqb_spec. exact Hx.
Qed.

Lemma is_finite_ordered x : is_finite x = true -> ordered x.
Proof.
  unfold is_finite, is_nan, ordered.
  destruct (x =? x)%float; [reflexivity|discriminate].
Qed.

End F64.

(** ** The worst stage of a path *)

Section WorstStage.

Implicit Types (es : list (option TimingEdge)) (e : TimingEdge).

Lemma ltb_asym x y : (x <? y)%float = true -> (y <? x)%float = false.
Proof.
  intros H. destruct (y <? x)%float eqn:E; [|reflexivity].
  pose proof (F64.ltb_trans _ _ _ H E) as C.
  rewrite F64.ltb_irrefl in C. discriminate.
Qed.

Lemma ltb_neq x y : (x <? y)%float = true -> (x =? y)%float = false.
Proof.
  intros H. eapply F64.not_ltb_ltb_neq; [apply F64.ltb_irrefl|exact H].
Qed.

(** What the scan establishes, from any starting maximum [m0]. *)
Lemma scan_spec es : forall m0 w0 m w,
  fold_left worst_stage_step es (m0, w0) = (m, w) ->
  none_exceeds es m /\
  ((m = m0 /\ w = w0) \/
   (exists i e, es !! i = Some (Some e) /\ w = Some e /\ m = delay e /\
      (m0 <? m)%float = true /\
      forall j e', j < i -> es !! j = Some (Some e') ->
        (delay e' =? m)%float = false)).
Proof.
  induction es as [|x es IH]; intros m0 w0 m w Hscan; simpl in Hscan.
  - inversion Hscan; subst. split; [|left; done].
    intros e He. inversion He.
  - destruct x as [e0|]; simpl in Hscan.
    + destruct (m0 <? delay e0)%float eqn:Hup.
      * (* the maximum moves to [e0] *)
        destruct (IH _ _ _ _ Hscan) as [Hmax [[-> ->]|Hlater]].
        -- split.
           ++ intros e He. apply elem_of_cons in He as [[= <-]|He];
                [apply F64.ltb_irrefl|by apply Hmax].
           ++ right. exists 0, e0. repeat split; try done.
              intros j e' Hj. lia.
        -- destruct Hlater as (i & e & Hi & -> & -> & Hlt & Hbefore).
           split.
           ++ intros e' He. apply elem_of_cons in He as [[= <-]|He];
                [by apply ltb_asym|by apply Hmax].
           ++ right. exists (S i), e. repeat split; try done.
              ** eapply F64.ltb_trans; eassumption.
              ** intros [|j] e' Hj Hl; simpl in Hl.
                 --- inversion Hl; subst. by apply ltb_neq.
                 --- apply (Hbefore j); [lia|done].
      * (* the maximum stays *)
        destruct (IH _ _ _ _ Hscan) as [Hmax [[-> ->]|Hlater]].
        -- split; [|left; done].
           intros e He. apply elem_of_cons in He as [[= <-]|He];
             [done|by apply Hmax].
        -- destruct Hlater as (i & e & Hi & -> & -> & Hlt & Hbefore).
           split.
           ++ intros e' He. apply elem_of_cons in He as [[= <-]|He];
                [|by apply Hmax].
              eapply F64.not_ltb_ltb_trans; eassumption.
           ++ right. exists (S i), e. repeat split; try done.
              intros [|j] e' Hj Hl; simpl in Hl.
              ** inversion Hl; subst.
                 eapply F64.not_ltb_ltb_neq; eassumption.
              ** apply (Hbefore j); [lia|done].
    + (* a null edge is skipped *)
      destruct (IH _ _ _ _ Hscan) as [Hmax [[-> ->]|Hlater]].
      * split; [|left; done].
        intros e He. apply elem_of_cons in He as [[=]|He]. by apply Hmax.
      * destruct Hlater as (i & e & Hi & -> & -> & Hlt & Hbefore).
        split.
        -- intros e' He. apply elem_of_cons in He as [[=]|He].
           by apply Hmax.
        -- right. exists (S i), e. repeat split; try done.
           intros [|j] e' Hj Hl; simpl in Hl; [done|].
           apply (Hbefore j); [lia|done].
Qed.

Lemma getWorstStage_scan (p : TimingPath) :
  getWorstStage p = fold_left worst_stage_step (edges p) (0%float, None).
Proof. unfold getWorstStage. by destruct (edges p). Qed.

(** The scan returns an edge exactly when some edge has a delay above
    [0.0]; the edge it returns is then a first maximum. *)
Lemma getWorstStage_some (p : TimingPath) m e :
  getWorstStage p = (m, Some e) ->
  m = delay e /\ (0 <? delay e)%float = true /\
  exists i, first_maximum (edges p) i e.
Proof.
  rewrite getWorstStage_scan. intros Hscan.
  destruct (scan_spec _ _ _ _ _ Hscan) as [Hmax [[_ [=]]|Hfound]].
  destruct Hfound as (i & e' & Hi & [= <-] & -> & Hpos & Hbefore).
  repeat split; try done. exists i. repeat split; done.
Qed.

Lemma getWorstStage_none (p : TimingPath) m :
  getWorstStage p = (m, None) ->
  m = 0%float /\ none_exceeds (edges p) 0.
Proof.
  rewrite getWorstStage_scan. intros Hscan.
  destruct (scan_spec _ _ _ _ _ Hscan) as [Hmax [[-> _]|Hfound]]; [done|].
  by destruct Hfound as (i & e' & _ & [=] & _).
Qed.

(** Two doubles above [0.0], neither of which exceeds the other, are
    equal. *)
Lemma not_ltb_eqb x y :
  ordered x -> ordered y ->
  (x <? y)%float = false -> (y <? x)%float = false ->
  (x =? y)%float = true.
Proof.
  intros Hx Hy Hxy Hyx.
  destruct (F64.lex_lt_total (key x) (key y)) as [H|[H|H]].
  - assert ((x <? y)%float = true) as E by (apply F64.ltb_spec_key; auto).
    congruence.
  - apply F64.eqb_spec_key; auto.
  - assert ((y <? x)%float = true) as E by (apply F64.ltb_spec_key; auto).
    congruence.
Qed.

(** A first maximum with a delay other than NaN is unique. *)
Lemma first_maximum_unique es i1 e1 i2 e2 :
  ordered (delay e1) -> ordered (delay e2) ->
  first_maximum es i1 e1 -> first_maximum es i2 e2 ->
  i1 = i2 /\ e1 = e2.
Proof.
  intros Ho1 Ho2 (Hi1 & Hmax1 & Hb1) (Hi2 & Hmax2 & Hb2).
  assert (Some e1 ∈ es) as In1 by (eapply list_elem_of_lookup_2; eauto).
  assert (Some e2 ∈ es) as In2 by (eapply list_elem_of_lookup_2; eauto).
  assert ((delay e1 =? delay e2)%float = true) as Heq
    by (apply not_ltb_eqb; auto).
  assert ((delay e2 =? delay e1)%float = true) as Heq'
    by (apply not_ltb_eqb; auto).
  destruct (Nat.lt_total i1 i2) as [Hlt|[->|Hlt]].
  - rewrite (Hb2 _ _ Hlt Hi1) in Heq. discriminate.
  - split; [done|]. congruence.
  - rewrite (Hb1 _ _ Hlt Hi2) in Heq'. discriminate.
Qed.

End WorstStage.

(** C3, as stated, fails: in a path whose only edge has the delay [0.0]
    that edge is the first one attaining the maximum delay, and
    [getWorstStage] returns no worst edge. *)
Lemma getWorstStage_first_maximum_counterexample :
  exists e, first_maximum (edges zero_delay_path) 0 e /\
    getWorstStage zero_delay_path <> (delay e, Some e) /\
    getWorstStage zero_delay_path = (0%float, None).
Proof.
  eexists. split; [|split].
  - split; [reflexivity|]. split.
    + intros e He. apply list_elem_of_singleton in He. by inversion He.
    + intros j e' Hj. lia.
  - vm_compute. discriminate.
  - reflexivity.
Qed.

(** C3, amended: in every path in which some edge has a delay above [0.0],
    [getWorstStage] returns the first edge attaining the maximum delay, in
    path order, together with that maximum; in a path in which no edge has
    a delay above [0.0], and so in a path with no edges, it returns [0.0]
    and no worst edge. *)
Theorem getWorstStage_first_maximum (p : TimingPath) :
  (forall i e, first_maximum (edges p) i e -> (0 <? delay e)%float = true ->
     getWorstStage p = (delay e, Some e)) /\
  ((exists e, Some e ∈ edges p /\ (0 <? delay e)%float = true) ->
     exists i e, first_maximum (edges p) i e /\
       (0 <? delay e)%float = true) /\
  (none_exceeds (edges p) 0 -> getWorstStage p = (0%float, None)) /\
  (edges p = [] -> getWorstStage p = (0%float, None)).
Proof.
  repeat split.
  - intros i e Hfirst Hpos.
    destruct (getWorstStage p) as [m [e1|]] eqn:Hw.
    + apply getWorstStage_some in Hw as (-> & Hpos1 & i1 & Hfirst1).
      destruct (first_maximum_unique _ _ _ _ _
                  (F64.ltb_ordered_r _ _ Hpos1) (F64.ltb_ordered_r _ _ Hpos)
                  Hfirst1 Hfirst) as [_ ->].
      reflexivity.
    + apply getWorstStage_none in Hw as [_ Hnone].
      destruct Hfirst as (Hi & _).
      rewrite (Hnone e) in Hpos; [discriminate|].
      eapply list_elem_of_lookup_2; eauto.
  - intros (e & He & Hpos).
    destruct (getWorstStage p) as [m [e1|]] eqn:Hw.
    + apply getWorstStage_some in Hw as (-> & Hpos1 & i1 & Hfirst1). eauto.
    + apply getWorstStage_none in Hw as [_ Hnone].
      rewrite (Hnone e He) in Hpos. discriminate.
  - intros Hnone.
    destruct (getWorstStage p) as [m [e1|]] eqn:Hw.
    + apply getWorstStage_some in Hw as (-> & Hpos1 & i1 & (Hi & _)).
      rewrite (Hnone e1) in Hpos1; [discriminate|].
      eapply list_elem_of_lookup_2; eauto.
    + apply getWorstStage_none in Hw as [-> _]. reflexivity.
  - intros Hnil. unfold getWorstStage. by rewrite Hnil.
Qed.

(** In [path1] of the analyzer tests the worst stage is the second edge,
    from ["NET1"] to ["CELL1"], of delay [2.0]. *)
Lemma getWorstStage_first_maximum_witness :
  exists e, edges path1 !! 1 = Some (Some e) /\ delay e = 2%float /\
    getWorstStage path1 = (delay e, Some e).
Proof.
  eexists. split; [reflexivity|]. split; [reflexivity|].
  refine (proj1 (getWorstStage_first_maximum path1) 1 _ _ _).
  - split; [reflexivity|]. split.
    + intros e He. vm_compute in He.
      repeat (apply elem_of_cons in He as [He|He];
              [inversion He; subst; reflexivity|]).
      inversion He.
    + intros [|j] e' Hj Hl; [|lia].
      vm_compute in Hl. inversion Hl; subst. reflexivity.
  - reflexivity.
Defined.

(** ** The advice of [analyzePath] *)

Lemma getWorstStage_none_exceeds (p : TimingPath) :
  none_exceeds (edges p) 0 -> getWorstStage p = (0%float, None).
Proof.
  intros Hnone.
  destruct (getWorstStage p) as [m [e1|]] eqn:Hw.
  - apply getWorstStage_some in Hw as (-> & Hpos1 & i1 & (Hi & _)).
    rewrite (Hnone e1) in Hpos1; [discriminate|].
    eapply list_elem_of_lookup_2; eauto.
  - apply getWorstStage_none in Hw as [-> _]. reflexivity.
Qed.

Lemma analyzePath_no_worst_stage (p : TimingPath) m :
  getWorstStage p = (m, None) ->
  analyzePath p =
    {| path := Some p; worstStageDelay := m; worstStage := None;
       optimizationSuggestion := insufficient_data |}.
Proof.
  intros Hw. unfold analyzePath, TimingPathAnalysis_new. rewrite Hw.
  reflexivity.
Qed.

Lemma analyzePath_worst_stage (p : TimingPath) m e f t :
  getWorstStage p = (m, Some e) -> from e = Some f -> to e = Some t ->
  optimizationSuggestion (analyzePath p) =
    if (cellDelay e <? netDelay e)%float && (0.5 * m <? netDelay e)%float
    then suggestPipelineInsertion (Some e)
    else if (netDelay e <? cellDelay e)%float && (0.5 * m <? cellDelay e)%float
    then suggestCellReplacement (Some e)
    else suggestFanoutOptimization (Some e).
Proof.
  intros Hw Hf Ht. unfold analyzePath, TimingPathAnalysis_new. rewrite Hw.
  simpl. rewrite Hf, Ht.
  destruct ((cellDelay e <? netDelay e)%float && (0.5 * m <? netDelay e)%float);
    [reflexivity|].
  destruct ((netDelay e <? cellDelay e)%float && (0.5 * m <? cellDelay e)%float);
    reflexivity.
Qed.

(** Without a worst edge, or when an endpoint of the worst edge is null,
    the text is the one on insufficient data. *)
Lemma analyzePath_insufficient (p : TimingPath) :
  (snd (getWorstStage p) = None \/
   exists e, snd (getWorstStage p) = Some e /\
     (from e = None \/ to e = None)) ->
  optimizationSuggestion (analyzePath p) = insufficient_data.
Proof.
  unfold analyzePath, TimingPathAnalysis_new.
  destruct (getWorstStage p) as [m w]. simpl.
  intros [->|(e & -> & Hnull)]; [done|]. simpl.
  destruct Hnull as [-> | ->]; [done|]. by destruct (from e).
Qed.

(** C10: in a path whose edge list is not empty and in which every edge
    has a delay equal to [0.0], [getWorstStage] returns [0.0] and no worst
    edge, and [analyzePath] gives the fixed text on insufficient data,
    the one it gives for a path with no edges. *)
Theorem zero_delays_give_no_worst_stage (p : TimingPath) :
  edges p <> [] ->
  (forall e, Some e ∈ edges p -> (delay e =? 0)%float = true) ->
  getWorstStage p = (0%float, None) /\
  worstStageDelay (analyzePath p) = 0%float /\
  worstStage (analyzePath p) = None /\
  optimizationSuggestion (analyzePath p) =
    "Insufficient path data for optimization suggestions." /\
  optimizationSuggestion (analyzePath p) =
    optimizationSuggestion (analyzePath (with_edges p [])).
Proof.
  intros _ Hzero.
  assert (getWorstStage p = (0%float, None)) as Hw.
  { apply getWorstStage_none_exceeds. intros e He.
    apply F64.eqb_not_ltb. by apply Hzero. }
  rewrite (analyzePath_no_worst_stage _ _ Hw). simpl.
  repeat split; try done.
Qed.

(** The path with the single stage ["INV1"] to ["NET1"] of delay [0.0]. *)
Lemma zero_delays_give_no_worst_stage_witness :
  edges zero_delay_path <> [] /\
  (forall e, Some e ∈ edges zero_delay_path ->
     (delay e =? 0)%float = true) /\
  getWorstStage zero_delay_path = (0%float, None) /\
  optimizationSuggestion (analyzePath zero_delay_path) =
    "Insufficient path data for optimization suggestions.".
Proof.
  assert (edges zero_delay_path <> []) as Hedges by discriminate.
  assert (forall e, Some e ∈ edges zero_delay_path ->
            (delay e =? 0)%float = true) as Hzero.
  { intros e He. vm_compute in He.
    apply list_elem_of_singleton in He. inversion He; subst. reflexivity. }
  destruct (zero_delays_give_no_worst_stage zero_delay_path Hedges Hzero)
    as (Hworst & _ & _ & Hadvice & _).
  repeat split; assumption.
Defined.

(** C2, as stated, fails: [zero_delay_path] has an edge, and the text that
    [analyzePath] gives for it is none of the three kinds of advice. *)
Lemma analyzePath_advice_counterexample :
  edges zero_delay_path <> [] /\
  optimizationSuggestion (analyzePath zero_delay_path) =
    "Insufficient path data for optimization suggestions." /\
  is_advice (optimizationSuggestion (analyzePath zero_delay_path)) = false.
Proof. repeat split. discriminate. Qed.

(** C2, amended: for every path in which [getWorstStage] finds a worst
    edge [e] (some edge has a delay above [0.0]) with source [f] and
    destination [t], the text of [analyzePath] is
    - the pipeline-insertion text naming [f] and [t] when
      [netDelay > cellDelay] and [netDelay > 0.5 * worstStageDelay];
    - else, when [cellDelay > netDelay] and
      [cellDelay > 0.5 * worstStageDelay], the cell-replacement text: the
      generic text on a faster cell library when the type of [f] is
      ["net"], and otherwise the name of [f] with [_HF] when it contains
      ["INV"], else with [_X4] when it contains ["BUF"], else with [_HS]
      when it contains ["NAND"] or ["NOR"], else "a faster variant of"
      that name;
    - in all remaining cases the fan-out text naming [f]. *)
Theorem analyzePath_advice (p : TimingPath) (d : float) (e : TimingEdge)
    (f t : node_ptr) :
  getWorstStage p = (d, Some e) -> from e = Some f -> to e = Some t ->
  let advice := optimizationSuggestion (analyzePath p) in
  let source := name (pointee f) in
  let net_dominated :=
    (cellDelay e <? netDelay e)%float && (0.5 * d <? netDelay e)%float in
  let cell_dominated :=
    (netDelay e <? cellDelay e)%float && (0.5 * d <? cellDelay e)%float in
  (net_dominated = true ->
     advice = "insert pipeline register between " ++ source ++ " â†’ "
                ++ name (pointee t)) /\
  (net_dominated = false -> cell_dominated = true ->
     (type (pointee f) = "net" ->
        advice = "use faster cell library for critical path cells") /\
     (type (pointee f) <> "net" ->
        (contains source "INV" = true ->
           advice = "replace " ++ source ++ " with " ++ source ++ "_HF") /\
        (contains source "INV" = false -> contains source "BUF" = true ->
           advice = "replace " ++ source ++ " with " ++ source ++ "_X4") /\
        (contains source "INV" = false -> contains source "BUF" = false ->
         contains source "NAND" || contains source "NOR" = true ->
           advice = "replace " ++ source ++ " with " ++ source ++ "_HS") /\
        (contains source "INV" = false -> contains source "BUF" = false ->
         contains source "NAND" || contains source "NOR" = false ->
           advice = "replace " ++ source ++ " with a faster variant of "
                      ++ source))) /\
  (net_dominated = false -> cell_dominated = false ->
     advice = "balance fan-out after " ++ source).
Proof.
  intros Hw Hf Ht advice source net_dominated cell_dominated.
  pose proof (analyzePath_worst_stage _ _ _ _ _ Hw Hf Ht) as Hadvice.
  fold advice net_dominated cell_dominated in Hadvice.
  destruct e as [from0 to0 delay0 net0 cell0]. simpl in *. subst from0 to0.
  split; [|split].
  - intros Hnet. rewrite Hnet in Hadvice. exact Hadvice.
  - intros Hnet Hcell. rewrite Hnet, Hcell in Hadvice.
    rewrite Hadvice. simpl. fold source. split.
    + intros Hty. apply String.eqb_eq in Hty. by rewrite Hty.
    + intros Hty. apply String.eqb_neq in Hty. rewrite Hty. simpl.
      split; [|split; [|split]].
      * by intros ->.
      * by intros -> ->.
      * by intros -> -> ->.
      * by intros -> -> ->.
  - intros Hnet Hcell. rewrite Hnet, Hcell in Hadvice. exact Hadvice.
Qed.

(** Scenario C: the source of the worst edge is ["INV1"], the cell delay
    [1.5] exceeds the net delay [0.5] and half of the stage delay [2.0]. *)
Lemma analyzePath_advice_witness :
  exists e f t,
    getWorstStage inverter_path = (2%float, Some e) /\
    from e = Some f /\ to e = Some t /\
    name (pointee f) = "INV1" /\
    cellDelay e = 1.5%float /\ netDelay e = 0.5%float /\
    optimizationSuggestion (analyzePath inverter_path)
    = "replace INV1 with INV1_HF".
Proof.
  do 3 eexists. do 6 (split; [reflexivity|]).
  destruct (analyzePath_advice inverter_path 2 _ _ _
              eq_refl eq_refl eq_refl) as (_ & Hcell & _).
  destruct (Hcell eq_refl eq_refl) as (_ & Hcellname).
  destruct Hcellname as (Hinv & _); [discriminate|].
  exact (Hinv eq_refl).
Defined.

(** The expectations of the analyzer tests. *)

Example test_FindsWorstStage :
  exists e f t,
    worstStage (analyzePath path1) = Some e /\
    worstStageDelay (analyzePath path1) = 2%float /\
    from e = Some f /\ name (pointee f) = "NET1" /\
    to e = Some t /\ name (pointee t) = "CELL1".
Proof. do 3 eexists. repeat split. Qed.

Example test_SuggestsCellReplacement :
  optimizationSuggestion (analyzePath path1)
  = "use faster cell library for critical path cells".
Proof. reflexivity. Qed.

Example test_SuggestsPipelineInsertion :
  optimizationSuggestion (analyzePath path2)
  = "insert pipeline register between CELL2 â†’ NET4".
Proof. reflexivity. Qed.

Example test_SuggestsFanoutOptimization :
  optimizationSuggestion (analyzePath path3) = "balance fan-out after CELL3".
Proof. reflexivity. Qed.

(** ** The ranking of [findCriticalPaths] *)

Section Sorting.
Context {A : Type} (comp : A -> A -> bool) (dom : A -> Prop).
Hypothesis comp_asym : forall x y, comp x y = true -> comp y x = false.
Hypothesis comp_cotrans : forall x y z, dom x -> dom y -> dom z ->
  comp z y = false -> comp y x = false -> comp z x = false.

Lemma stable_insert_perm x l : Permutation (x :: l) (stable_insert comp x l).
Proof.
  induction l as [|y l IH]; simpl; [done|].
  destruct (comp y x); [|done].
  rewrite perm_swap. by apply perm_skip.
Qed.

Lemma stable_sort_perm l : Permutation l (stable_sort comp l).
Proof.
  induction l as [|x l IH]; simpl; [done|].
  rewrite <- stable_insert_perm. by apply perm_skip.
Qed.

Lemma stable_insert_descending x l :
  dom x -> Forall dom l -> descending comp l ->
  descending comp (stable_insert comp x l).
Proof.
  intros Hx Hdom Hsorted. induction Hsorted as [|y l Hl IH Hy]; simpl.
  - repeat constructor.
  - apply Forall_cons in Hdom as [Hdy Hdl].
    destruct (comp y x) eqn:Hyx.
    + constructor; [by apply IH|].
      rewrite <- stable_insert_perm. constructor; [by apply comp_asym|done].
    + constructor; [by constructor|].
      constructor; [done|].
      rewrite Forall_forall in Hy, Hdl. apply Forall_forall.
      intros z Hz. apply (comp_cotrans x y z); auto.
Qed.

Lemma stable_sort_descending l :
  Forall dom l -> descending comp (stable_sort comp l).
Proof.
  induction l as [|x l IH]; simpl; intros Hdom; [constructor|].
  apply Forall_cons in Hdom as [Hx Hl].
  apply stable_insert_descending; auto.
  by rewrite <- stable_sort_perm.
Qed.

Lemma descending_sorted_by l : descending comp l -> sorted_by comp l.
Proof.
  intros Hsorted. induction Hsorted as [|x l Hl IH Hx].
  - intros i j a b _ Hi. inversion Hi.
  - intros [|i] [|j] a b Hij Hi Hj; simpl in *; try lia.
    + inversion Hi; subst. rewrite Forall_forall in Hx. apply Hx.
      eapply list_elem_of_lookup_2; eauto.
    + apply (IH i j); auto with lia.
Qed.

(** A stable sort is one of the outcomes that [std::sort] may have. *)
Lemma stable_sort_std_sort l :
  Forall dom l -> std_sort comp l (stable_sort comp l).
Proof.
  intros Hdom. split; [apply stable_sort_perm|].
  by apply descending_sorted_by, stable_sort_descending.
Qed.

End Sorting.

Lemma static_cast_int_small n :
  (0 <= n <= INT_MAX)%Z -> static_cast_int n = n.
Proof.
  unfold static_cast_int, INT_MAX. intros Hn.
  rewrite Z.mod_small by lia. lia.
Qed.

(** The comparison of total delays is a strict weak ordering of paths
    whose total delay is not NaN. *)
Lemma by_total_delay_desc_strict_weak (paths : list TimingPath) :
  Forall (fun p => ordered (totalDelay p)) paths ->
  strict_weak_ordering by_total_delay_desc paths.
Proof.
  rewrite Forall_forall. intros Hdom. unfold by_total_delay_desc.
  split; [|split].
  - intros x _. apply F64.ltb_irrefl.
  - intros x y z _ _ _ Hxy Hyz. by apply (F64.ltb_trans _ (totalDelay y)).
  - intros x y z Hx Hy Hz Hxy Hyx Hyz Hzy. split.
    + apply (F64.not_ltb_trans _ (totalDelay y)); auto.
    + apply (F64.not_ltb_trans _ (totalDelay y)); auto.
Qed.

(** [findCriticalPaths] returns: a stable sort is one of the outcomes
    that [std::sort] may have. *)
Lemma findCriticalPaths_returns (paths : list TimingPath) (topK : Z) :
  Forall (fun p => ordered (totalDelay p)) paths ->
  exists criticalPaths, findCriticalPaths paths topK criticalPaths.
Proof.
  intros Hdom. eexists. split; [by apply by_total_delay_desc_strict_weak|].
  exists (stable_sort by_total_delay_desc paths).
  split; [|reflexivity].
  apply (stable_sort_std_sort _ (fun p => ordered (totalDelay p))); [..|done].
  - intros x y. apply ltb_asym.
  - intros x y z Hx Hy Hz Hzy Hyx. unfold by_total_delay_desc in *.
    by apply (F64.not_ltb_trans _ (totalDelay y)).
Qed.

(** With [2^31] paths the count of paths, cast to [int], is negative, and
    nothing is returned. *)
Lemma findCriticalPaths_size_wraps (paths : list TimingPath) (topK : Z)
    (criticalPaths : list TimingPathAnalysis) :
  Z.of_nat (length paths) = (2 ^ 31)%Z ->
  findCriticalPaths paths topK criticalPaths -> criticalPaths = [].
Proof.
  intros Hlen (_ & pathPtrs & [Hperm _] & ->).
  apply Permutation_length in Hperm. rewrite <- Hperm, Hlen.
  replace (static_cast_int (2 ^ 31)) with (- 2 ^ 31)%Z by reflexivity.
  replace (Z.to_nat _) with 0 by lia. reflexivity.
Qed.

Lemma tied_paths_reordered : Permutation tied_paths reordered_paths.
Proof.
  apply Permutation_map.
  apply (bool_decide_unpack (tied_ids ≡ₚ reordered_ids)).
  vm_compute. exact I.
Qed.

Lemma same_delay_sorted (l : list TimingPath) (d : float) :
  Forall (fun p => totalDelay p = d) l -> sorted_by by_total_delay_desc l.
Proof.
  rewrite Forall_forall. intros Hsame i j x y _ Hi Hj.
  unfold by_total_delay_desc.
  rewrite (Hsame x), (Hsame y) by (eapply list_elem_of_lookup_2; eauto).
  apply F64.ltb_irrefl.
Qed.

(** C1, as stated, fails: the seventeen paths of [tied_paths] have the
    same total delay, and [std::sort] may leave them in the order of
    [reordered_paths], the order that an introsort with a median-of-three
    pivot and an insertion sort below sixteen elements gives, as in
    libstdc++. The first path returned is then ["T08"]; a stable sort
    keeps ["T00"] first. *)
Lemma findCriticalPaths_stable_counterexample :
  findCriticalPaths tied_paths 1 [analyzePath (createTestPath "T08" 1)] /\
  Forall (fun p => totalDelay p = 1%float) tied_paths /\
  take 1 (stable_sort by_total_delay_desc tied_paths)
    = [createTestPath "T00" 1] /\
  map path [analyzePath (createTestPath "T08" 1)]
  <> map Some (take 1 (stable_sort by_total_delay_desc tied_paths)).
Proof.
  split; [|split; [by repeat constructor|split; [reflexivity|discriminate]]].
  split; [apply by_total_delay_desc_strict_weak; by repeat constructor|].
  exists reordered_paths. split; [split|reflexivity].
  - apply tied_paths_reordered.
  - apply (same_delay_sorted _ 1). by repeat constructor.
Qed.

(** C1, amended: for every list of fewer than [2^31] paths that meets the
    requirement of [std::sort] (no total delay is NaN) and every integer
    [topK], every result of [findCriticalPaths] has the length
    [min(topK, |paths|)] when [topK > 0] and is empty when [topK <= 0]; it
    holds the analyses of paths [selected] that, together with the paths
    left out, are a rearrangement of the input; along [selected] the total
    delay never increases, and no path left out has a total delay above
    that of a selected one. The order of paths of equal total delay is
    left open. *)
Theorem findCriticalPaths_top_descending (paths : list TimingPath) (topK : Z)
    (criticalPaths : list TimingPathAnalysis) :
  (Z.of_nat (length paths) <= INT_MAX)%Z ->
  findCriticalPaths paths topK criticalPaths ->
  ((0 < topK)%Z ->
     Z.of_nat (length criticalPaths) = Z.min topK (Z.of_nat (length paths))) /\
  ((topK <= 0)%Z -> criticalPaths = []) /\
  exists selected rest : list TimingPath,
    criticalPaths = map analyzePath selected /\
    map path criticalPaths = map Some selected /\
    Permutation paths (selected ++ rest) /\
    (forall i j a b, i < j ->
       selected !! i = Some a -> selected !! j = Some b ->
       (totalDelay a <? totalDelay b)%float = false) /\
    (forall a b, a ∈ selected -> b ∈ rest ->
       (totalDelay a <? totalDelay b)%float = false).
Proof.
  intros Hlen (_ & pathPtrs & [Hperm Hsorted] & ->).
  pose proof (Permutation_length Hperm) as Hsize.
  rewrite static_cast_int_small by (unfold INT_MAX in *; lia).
  set (n := Z.to_nat (Z.min topK (Z.of_nat (length pathPtrs)))).
  split; [|split].
  - intros Hpos. rewrite length_map, length_take. lia.
  - intros Hneg. replace n with 0 by lia. reflexivity.
  - exists (take n pathPtrs), (drop n pathPtrs). repeat split.
    + rewrite <- list_fmap_compose. apply list_fmap_ext.
      intros _ p _. simpl. unfold analyzePath, TimingPathAnalysis_new.
      destruct (getWorstStage p) as [m [e|]]; simpl; [|reflexivity].
      destruct (from e), (to e); try reflexivity.
      destruct (_ && _); [reflexivity|]. destruct (_ && _); reflexivity.
    + by rewrite take_drop.
    + intros i j a b Hij Hi Hj.
      apply lookup_take_Some in Hi as [Hi _].
      apply lookup_take_Some in Hj as [Hj _].
      apply (Hsorted i j a b Hij Hi Hj).
    + intros a b Ha Hb.
      apply list_elem_of_lookup in Ha as [i Hi].
      apply list_elem_of_lookup in Hb as [j Hj].
      apply lookup_take_Some in Hi as [Hi Hin].
      rewrite lookup_drop in Hj.
      apply (Hsorted i (n + j) a b); [lia|done..].
Qed.

(** The analyzer test: of the paths of total delay [5.0], [4.0] and [6.0],
    the two most critical ones are [path3] and [path1], in this order. *)
Lemma findCriticalPaths_top_descending_witness :
  (Z.of_nat (length [path1; path2; path3]) <= INT_MAX)%Z /\
  findCriticalPaths [path1; path2; path3] 2
    [analyzePath path3; analyzePath path1] /\
  Z.of_nat (length [analyzePath path3; analyzePath path1]) = Z.min 2 3.
Proof.
  assert (findCriticalPaths [path1; path2; path3] 2
            [analyzePath path3; analyzePath path1]) as Hrun.
  { split; [apply by_total_delay_desc_strict_weak; by repeat constructor|].
    exists [path3; path1; path2]. split; [split|reflexivity].
    - rewrite (Permutation_app_comm [path1; path2] [path3]). reflexivity.
    - intros [|[|[|i]]] [|[|[|j]]] x y Hij Hi Hj; simpl in *; try lia;
        try discriminate; inversion Hi; inversion Hj; subst; reflexivity. }
  assert ((Z.of_nat (length [path1; path2; path3]) <= INT_MAX)%Z) as Hlen
    by (vm_compute; discriminate).
  destruct (findCriticalPaths_top_descending _ _ _ Hlen Hrun)
    as (Hsize & _ & _).
  split; [exact Hlen|]. split; [exact Hrun|]. exact (Hsize eq_refl).
Defined.

(** ** The node cache *)

Lemma consistent_new : consistent TimingParser_new.
Proof. split; intros *; simpl; by rewrite lookup_empty. Qed.

Section NodeCache.
Implicit Types (this : TimingParser) (n : string) (p : node_ptr).

Lemma make_cached_spec n ty this :
  nodeCache this !! n = None ->
  let p := fst (make_shared_node n ty this) in
  let this' := cache_node n p (snd (make_shared_node n ty this)) in
  nodeCache this ⊆ nodeCache this' /\
  nodeCache this' !! n = Some p /\
  address p = next_address this /\
  pointee p = {| name := n; type := ty; capacitance := 0; slew := 0 |} /\
  (consistent this -> consistent this').
Proof.
  intros Hfresh. simpl. split; [|split; [|split; [|split]]].
  - by apply insert_subseteq.
  - apply lookup_insert_eq.
  - reflexivity.
  - reflexivity.
  - intros [Hnames Hinj]. split.
    + intros n' p'. simpl. destruct (decide (n = n')) as [<-|Hne].
      * rewrite lookup_insert_eq. intros [= <-]. simpl. split; [done|lia].
      * rewrite lookup_insert_ne by done. intros Hn'.
        apply Hnames in Hn'. split; [tauto|lia].
    + intros n1 n2 p1 p2. simpl.
      destruct (decide (n = n1)) as [<-|Hne1],
               (decide (n = n2)) as [<-|Hne2];
        rewrite ?lookup_insert_eq, ?lookup_insert_ne by done; try done.
      * intros [= <-] H2 Haddr. simpl in Haddr. apply Hnames in H2. lia.
      * intros H1 [= <-] Haddr. simpl in Haddr. apply Hnames in H1. lia.
      * apply Hinj.
Qed.

(** A name that the cache holds resolves to the cached instance, in
    either role, and the parser is left as it is. *)
Lemma resolve_cached n p this :
  nodeCache this !! n = Some p ->
  fromNode_of n this = (p, this) /\ toNode_of n this = (p, this).
Proof. intros Hn. unfold fromNode_of, toNode_of. by rewrite Hn. Qed.

(** A name that the cache does not hold is given a new allocation, which
    the cache then holds. *)
Lemma fromNode_of_fresh n this :
  nodeCache this !! n = None ->
  fromNode_of n this =
    (fst (make_shared_node n (fromType n) this),
     cache_node n (fst (make_shared_node n (fromType n) this))
                  (snd (make_shared_node n (fromType n) this))).
Proof. intros Hn. unfold fromNode_of. by rewrite Hn. Qed.

Lemma toNode_of_fresh n this :
  nodeCache this !! n = None ->
  toNode_of n this =
    (fst (make_shared_node n (toType n) this),
     cache_node n (fst (make_shared_node n (toType n) this))
                  (snd (make_shared_node n (toType n) this))).
Proof. intros Hn. unfold toNode_of. by rewrite Hn. Qed.

Lemma fromNode_of_spec n this p this' :
  fromNode_of n this = (p, this') ->
  nodeCache this ⊆ nodeCache this' /\
  nodeCache this' !! n = Some p /\
  (consistent this -> consistent this' /\ name (pointee p) = n).
Proof.
  destruct (nodeCache this !! n) as [q|] eqn:Hn.
  - rewrite (proj1 (resolve_cached _ _ _ Hn)). intros [= <- <-].
    split; [done|]. split; [done|]. intros Hc. split; [done|].
    by apply (proj1 Hc) in Hn as [? _].
  - rewrite (fromNode_of_fresh _ _ Hn). intros [= <- <-].
    destruct (make_cached_spec n (fromType n) this Hn)
      as (Hsub & Hlook & _ & Hnode & Hcons).
    split; [done|]. split; [done|]. intros Hc. split; [by apply Hcons|].
    reflexivity.
Qed.

Lemma toNode_of_spec n this p this' :
  toNode_of n this = (p, this') ->
  nodeCache this ⊆ nodeCache this' /\
  nodeCache this' !! n = Some p /\
  (consistent this -> consistent this' /\ name (pointee p) = n).
Proof.
  destruct (nodeCache this !! n) as [q|] eqn:Hn.
  - rewrite (proj2 (resolve_cached _ _ _ Hn)). intros [= <- <-].
    split; [done|]. split; [done|]. intros Hc. split; [done|].
    by apply (proj1 Hc) in Hn as [? _].
  - rewrite (toNode_of_fresh _ _ Hn). intros [= <- <-].
    destruct (make_cached_spec n (toType n) this Hn)
      as (Hsub & Hlook & _ & Hnode & Hcons).
    split; [done|]. split; [done|]. intros Hc. split; [by apply Hcons|].
    reflexivity.
Qed.

End NodeCache.

(** ** The patterns and [std::stod] on sample lines *)

Example headerPattern_scenario_a :
  regex_search headerPattern "Path P1     FF_Q        PI          2.345"
  = Some ["P1"; "FF_Q"; "PI"; "2.345"].
Proof. reflexivity. Qed.

(** A line of column titles starts with ["Path "] and is no header. *)
Example headerPattern_titles :
  regex_search headerPattern "Path   Endpoint   Startpoint   Delay" = None.
Proof. reflexivity. Qed.

Example stagePattern_scenario_a :
  regex_search stagePattern "P1.1   NET1        PI          0.123"
  = Some ["P1.1"; "NET1"; "PI"; "0.123"].
Proof. reflexivity. Qed.

(** The stage id is matched greedily and may hold several dots. *)
Example stagePattern_backtracks :
  regex_search stagePattern "top.P1.12 A B 7 rest"
  = Some ["top.P1.12"; "A"; "B"; "7"].
Proof. reflexivity. Qed.

Example stod_decimal : stod "0.123" = Ok 0.123%float.
Proof. reflexivity. Qed.

Example stod_prefix : stod "1.2.3" = Ok 1.2%float.
Proof. reflexivity. Qed.

Example stod_no_digit : stod "..." = Throw "stod".
Proof. reflexivity. Qed.

(** ** Stage lines *)

Lemma stod_ordered s x : stod s = Ok x -> ordered x.
Proof.
  unfold stod. destruct (span_digits s) as [int_digits rest].
  destruct (int_digits ++ _)%list; [discriminate|].
  destruct (decimal_value _) as [|n|n]; try (intros [= <-]; reflexivity).
  destruct (is_finite _ && _) eqn:Hfin; [|discriminate].
  intros [= <-]. apply andb_true_iff in Hfin as [Hfin _].
  by apply F64.is_finite_ordered.
Qed.

Lemma parsePathStage_edge line this e this' :
  parsePathStage line this = (Ok (Some e), this') ->
  exists stageId toName fromName delayText d f t this1,
    regex_search stagePattern line
      = Some [stageId; toName; fromName; delayText] /\
    stod delayText = Ok d /\
    fromNode_of fromName this = (f, this1) /\
    toNode_of toName this1 = (t, this') /\
    e = stage_edge f t d.
Proof.
  unfold parsePathStage.
  destruct (regex_search stagePattern line)
    as [[|stageId [|toName [|fromName [|delayText [|? ?]]]]]|];
    try discriminate.
  destruct (stod delayText) as [d|what] eqn:Hd; [|discriminate].
  destruct (fromNode_of fromName this) as [f this1] eqn:Hf.
  destruct (toNode_of toName this1) as [t this2] eqn:Ht.
  intros [= <- <-]. by exists stageId, toName, fromName, delayText, d, f, t, this1.
Qed.

Lemma parsePathStage_no_edge line this r this' :
  parsePathStage line this = (r, this') ->
  (forall e, r <> Ok (Some e)) -> this' = this.
Proof.
  unfold parsePathStage.
  destruct (regex_search stagePattern line)
    as [[|stageId [|toName [|fromName [|delayText [|? ?]]]]]|];
    try (by intros [= <- <-]).
  destruct (stod delayText) as [d|what] eqn:Hd; [|by intros [= <- <-]].
  destruct (fromNode_of fromName this) as [f this1] eqn:Hf.
  destruct (toNode_of toName this1) as [t this2] eqn:Ht.
  intros [= <- <-] Hne. by destruct (Hne _ eq_refl).
Qed.

Lemma stage_edge_split f t d : split_by_source (stage_edge f t d).
Proof.
  exists f, t. unfold stage_edge.
  destruct (String.eqb_spec (type (pointee f)) "net") as [Hty|Hty]; simpl.
  - repeat split; try done.
  - split; [done|]. split; [done|]. split; [done|]. by intros _.
Qed.

Lemma stage_edge_sum f t d :
  ordered d ->
  let e := stage_edge f t d in
  (delay e =? netDelay e + cellDelay e)%float = true.
Proof.
  intros Hd. unfold stage_edge.
  destruct (String.eqb (type (pointee f)) "net"); simpl.
  - by apply F64.add_zero_r.
  - by apply F64.add_zero_l.
Qed.

Lemma parsePathStage_spec line this r this' :
  parsePathStage line this = (r, this') ->
  nodeCache this ⊆ nodeCache this' /\
  (consistent this -> consistent this') /\
  forall e, r = Ok (Some e) ->
    split_by_source e /\
    (delay e =? netDelay e + cellDelay e)%float = true /\
    (consistent this -> endpoints_cached this' e).
Proof.
  intros Hrun.
  assert ((exists e, r = Ok (Some e)) \/ (forall e, r <> Ok (Some e)))
    as [[e ->]|Hnone].
  { destruct r as [[e|]|what]; [left; eauto|right; congruence..]. }
  - destruct (parsePathStage_edge _ _ _ _ Hrun)
      as (stageId & toName & fromName & delayText & d & f & t & this1
          & _ & Hd & Hf & Ht & ->).
    apply fromNode_of_spec in Hf as (Hsub1 & Hf & Hc1).
    apply toNode_of_spec in Ht as (Hsub2 & Ht & Hc2).
    split; [by transitivity (nodeCache this1)|].
    split; [intros Hc; by apply Hc2, Hc1|].
    intros e [= <-]. split; [apply stage_edge_split|].
    split; [apply stage_edge_sum; by eapply stod_ordered|].
    intros Hc. destruct (Hc1 Hc) as [Hc' Hfn]. destruct (Hc2 Hc') as [_ Htn].
    exists f, t. unfold cached. rewrite Hfn, Htn.
    assert (nodeCache this' !! fromName = Some f) by (by eapply lookup_weaken).
    unfold stage_edge. by destruct (String.eqb _ _).
  - assert (this' = this) as -> by (by eapply parsePathStage_no_edge).
    split; [done|]. split; [done|]. intros e ->. by destruct (Hnone e).
Qed.

(** ** Sections of a report *)

Lemma endpoints_cached_weaken this this' e :
  nodeCache this ⊆ nodeCache this' ->
  endpoints_cached this e -> endpoints_cached this' e.
Proof.
  intros Hsub (f & t & Hf & Ht & Hcf & Hct). exists f, t.
  unfold cached in *. eauto 6 using lookup_weaken.
Qed.

Lemma parsed_edge_weaken this0 this this1 this' edge :
  (consistent this0 -> consistent this) ->
  nodeCache this1 ⊆ nodeCache this' ->
  parsed_edge this this1 edge -> parsed_edge this0 this' edge.
Proof.
  intros Hc Hsub (e & -> & Hsplit & Hsum & Hcached).
  exists e. repeat split; try done.
  intros Hc0. eapply endpoints_cached_weaken; eauto.
Qed.

Lemma parse_stages_spec ls : forall this es this',
  parse_stages ls this = (es, this') ->
  nodeCache this ⊆ nodeCache this' /\
  (consistent this -> consistent this') /\
  Forall (parsed_edge this this') es.
Proof.
  induction ls as [|line ls IH]; intros this es this'; simpl.
  - intros [= <- <-]. split; [done|]. split; [done|]. constructor.
  - destruct (parsePathStage line this) as [r this1] eqn:Hstage.
    destruct (parse_stages ls this1) as [es1 this2] eqn:Hrest.
    intros [= <- <-].
    apply parsePathStage_spec in Hstage as (Hsub1 & Hc1 & Hedge).
    apply IH in Hrest as (Hsub2 & Hc2 & Hes).
    split; [by transitivity (nodeCache this1)|].
    split; [by intros Hc; apply Hc2, Hc1|].
    assert (Forall (parsed_edge this this2) es1) as Hes'.
    { eapply Forall_impl; [exact Hes|]. intros edge.
      by apply parsed_edge_weaken. }
    destruct r as [[e|]|what]; try done.
    constructor; [|done].
    destruct (Hedge e eq_refl) as (Hsplit & Hsum & Hcached).
    exists e. repeat split; try done.
    intros Hc. eapply endpoints_cached_weaken; eauto.
Qed.

(** The loop of [parsePath] runs over the lines of the section, gives
    those that contain the id and a dot to [parsePathStage], and stops at
    the index of the line that ends the section, or at the end of the
    lines. *)
Lemma parsePath_loop_spec id rest : forall lineIndex edges this,
  parsePath_loop id rest lineIndex edges this =
    let block := section_lines rest in
    let '(es, this') := parse_stages (stage_lines id block) this in
    ((edges ++ es)%list, lineIndex + length block, this').
Proof.
  induction rest as [|line rest IH]; intros lineIndex edges this; simpl.
  - by rewrite app_nil_r, Nat.add_0_r.
  - destruct (ends_section line); simpl.
    { by rewrite app_nil_r, Nat.add_0_r. }
    unfold stage_lines. simpl. fold (stage_lines id (section_lines rest)).
    destruct (contains line (id ++ ".")); simpl.
    + destruct (parsePathStage line this) as [r this1].
      assert (forall edges',
        parsePath_loop id rest (S lineIndex) edges' this1 =
        (let '(es, this') :=
           parse_stages (stage_lines id (section_lines rest)) this1 in
         ((edges' ++ es)%list, lineIndex + S (length (section_lines rest)),
          this'))) as Hnext.
      { intros edges'. rewrite IH. simpl.
        destruct (parse_stages _ this1). f_equal. f_equal. lia. }
      destruct r as [[e|]|what]; rewrite Hnext;
        destruct (parse_stages _ this1) as [es this2]; try done.
      by rewrite <- app_assoc.
    + rewrite IH. simpl. destruct (parse_stages _ this) as [es this2].
      f_equal. f_equal. lia.
Qed.

Lemma parsePath_spec lines startLine this :
  parsePath lines startLine this =
    match parsePathHeader (lines !!! startLine) with
    | Throw what => (Throw what, this)
    | Ok (id, startpoint, endpoint, delay) =>
        let block := section_lines (drop (S startLine) lines) in
        let '(es, this') := parse_stages (stage_lines id block) this in
        (Ok ({| id := id; startpoint := startpoint; endpoint := endpoint;
                totalDelay := delay; edges := es |},
             S startLine + length block), this')
    end.
Proof.
  unfold parsePath.
  destruct (parsePathHeader _) as [[[[id sp] ep] d]|what]; [|done].
  rewrite parsePath_loop_spec, Nat.add_1_r. simpl.
  by destruct (parse_stages _ this).
Qed.

Lemma section_lines_prefix rest :
  rest = (section_lines rest ++ drop (length (section_lines rest)) rest)%list.
Proof.
  induction rest as [|line rest IH]; simpl; [done|].
  destruct (ends_section line); simpl; [done|]. by rewrite <- IH.
Qed.

Lemma section_lines_inside rest :
  Forall (fun line => ends_section line = false) (section_lines rest).
Proof.
  induction rest as [|line rest IH]; simpl; [constructor|].
  destruct (ends_section line) eqn:Hline; by constructor.
Qed.

Lemma section_lines_end rest :
  length (section_lines rest) = length rest \/
  exists line, rest !! length (section_lines rest) = Some line /\
    ends_section line = true.
Proof.
  induction rest as [|line rest IH]; simpl; [by left|].
  destruct (ends_section line) eqn:Hline; simpl; [right; eauto|].
  destruct IH as [->|IH]; [by left|by right].
Qed.

(** ** The scan of a report *)

Lemma starts_with_ends_section line :
  starts_with line "Path " = true -> ends_section line = true.
Proof.
  intros H. unfold ends_section. rewrite H. by rewrite orb_true_r.
Qed.

Lemma well_formed_headers_cons line lines :
  well_formed_headers (line :: lines) =
    match well_formed_header line with
    | Some h => h :: well_formed_headers lines
    | None => well_formed_headers lines
    end.
Proof. reflexivity. Qed.

Lemma well_formed_headers_inside block :
  Forall (fun line => ends_section line = false) block ->
  well_formed_headers block = [].
Proof.
  induction 1 as [|line block Hline _ IH]; [done|].
  rewrite well_formed_headers_cons, IH.
  unfold well_formed_header.
  destruct (starts_with line "Path ") eqn:Hpath; [|done].
  apply starts_with_ends_section in Hpath. congruence.
Qed.

(** The headers after a section are those after its header line. *)
Lemma well_formed_headers_skip_section lines i :
  well_formed_headers (drop (S i) lines) =
  well_formed_headers
    (drop (S i + length (section_lines (drop (S i) lines))) lines).
Proof.
  rewrite (section_lines_prefix (drop (S i) lines)) at 1.
  unfold well_formed_headers. rewrite omap_app.
  fold (well_formed_headers (section_lines (drop (S i) lines))).
  rewrite well_formed_headers_inside by apply section_lines_inside.
  by rewrite drop_drop.
Qed.

Lemma parseFile_loop_spec lines : forall fuel lineIndex paths this,
  length lines <= lineIndex + fuel ->
  exists paths' this',
    parseFile_loop fuel lines lineIndex paths this
      = Some ((paths ++ paths')%list, this') /\
    map header_of paths' = well_formed_headers (drop lineIndex lines) /\
    nodeCache this ⊆ nodeCache this' /\
    (consistent this -> consistent this') /\
    Forall (fun p => Forall (parsed_edge this this') (edges p)) paths'.
Proof.
  induction fuel as [|fuel IH]; intros i paths this Hfuel.
  - exists [], this. simpl.
    rewrite lookup_ge_None_2, drop_ge, app_nil_r by lia.
    split; [done|]. split; [done|]. split; [done|]. split; [done|].
    constructor.
  - simpl. destruct (lines !! i) as [line|] eqn:Hline.
    2:{ exists [], this. apply lookup_ge_None in Hline.
        rewrite drop_ge, app_nil_r by lia.
        split; [done|]. split; [done|]. split; [done|]. split; [done|].
        constructor. }
    rewrite (drop_S _ _ _ Hline).
    rewrite well_formed_headers_cons. unfold well_formed_header.
    destruct (starts_with line "Path ") eqn:Hpath.
    2:{ apply IH. lia. }
    rewrite parsePath_spec, (list_lookup_total_correct _ _ _ Hline).
    destruct (parsePathHeader line) as [[[[id sp] ep] d]|what].
    2:{ apply IH. lia. }
    simpl.
    destruct (parse_stages _ this) as [es this1] eqn:Hstages.
    apply parse_stages_spec in Hstages as (Hsub1 & Hc1 & Hes).
    set (next := S (i + length (section_lines (drop (S i) lines)))).
    set (p := {| id := id; startpoint := sp; endpoint := ep;
                 totalDelay := d; edges := es |}).
    destruct (IH next (paths ++ [p])%list this1 ltac:(lia))
      as (paths' & this' & Hrun & Hheaders & Hsub2 & Hc2 & Hpaths).
    exists (p :: paths'), this'.
    split; [by rewrite Hrun, <- app_assoc|].
    split.
    { simpl. rewrite Hheaders. unfold header_of at 1. simpl.
      by rewrite well_formed_headers_skip_section. }
    split; [by transitivity (nodeCache this1)|].
    split; [by intros Hc; apply Hc2, Hc1|].
    constructor.
    + simpl. eapply Forall_impl; [exact Hes|]. intros edge.
      by apply parsed_edge_weaken.
    + eapply Forall_impl; [exact Hpaths|]. intros q Hq. simpl in Hq.
      eapply Forall_impl; [exact Hq|]. intros edge.
      by apply parsed_edge_weaken.
Qed.

Lemma parseFile_spec lines this :
  exists paths this',
    parseFile lines this = Some (paths, this') /\
    map header_of paths = well_formed_headers lines /\
    nodeCache this ⊆ nodeCache this' /\
    (consistent this -> consistent this') /\
    Forall (fun p => Forall (parsed_edge this this') (edges p)) paths.
Proof.
  destruct (parseFile_loop_spec lines (length lines) 0 [] this ltac:(lia))
    as (paths & this' & Hrun & Hrest).
  exists paths, this'. split; [exact Hrun|exact Hrest].
Qed.

(** ** The parser *)

(** C8: parsing the header ["Path P1 FF_Q PI 2.345"] followed by the
    stages ["P1.1 NET1 PI 0.123"] and ["P1.2 INV1 NET1 0.456"] yields
    exactly one path, with id ["P1"], startpoint ["PI"], endpoint
    ["FF_Q"], total delay [2.345] and two edges: the first one from
    ["PI"] to ["NET1"], the second one to ["INV1"], of type
    ["inverter"]. The header places the endpoint before the startpoint,
    a stage line the destination before the source. *)
Theorem scenario_a_parse :
  exists p e0 e1 f0 t0 t1 this',
    parseFile ["Path P1 FF_Q PI 2.345"; "P1.1 NET1 PI 0.123";
               "P1.2 INV1 NET1 0.456"] TimingParser_new
      = Some ([p], this') /\
    id p = "P1" /\ startpoint p = "PI" /\ endpoint p = "FF_Q" /\
    totalDelay p = 2.345%float /\
    edges p = [Some e0; Some e1] /\
    from e0 = Some f0 /\ name (pointee f0) = "PI" /\
    to e0 = Some t0 /\ name (pointee t0) = "NET1" /\
    to e1 = Some t1 /\ name (pointee t1) = "INV1" /\
    type (pointee t1) = "inverter".
Proof.
  do 7 eexists. split; [vm_compute; reflexivity|].
  repeat split.
Qed.

(** C4: every edge that the parser produces has both endpoints set and a
    delay equal to the sum of its net delay and its cell delay, one of
    which is the whole delay and the other [0.0]: the net delay is the
    whole delay exactly when the type of the source is ["net"]. *)
Theorem parsed_edges_split_delay (lines : list string) (this : TimingParser)
    (paths : list TimingPath) (this' : TimingParser) :
  parseFile lines this = Some (paths, this') ->
  forall p edge, p ∈ paths -> edge ∈ edges p ->
  exists e f t, edge = Some e /\ from e = Some f /\ to e = Some t /\
    (delay e =? netDelay e + cellDelay e)%float = true /\
    (type (pointee f) = "net" ->
       netDelay e = delay e /\ cellDelay e = 0%float) /\
    (type (pointee f) <> "net" ->
       cellDelay e = delay e /\ netDelay e = 0%float).
Proof.
  intros Hrun p edge Hp Hedge.
  destruct (parseFile_spec lines this)
    as (paths0 & this0 & Hrun0 & _ & _ & _ & Hpaths).
  rewrite Hrun in Hrun0. injection Hrun0 as <- <-.
  rewrite Forall_forall in Hpaths. specialize (Hpaths p Hp).
  rewrite Forall_forall in Hpaths.
  destruct (Hpaths edge Hedge)
    as (e & -> & (f & t & Hf & Ht & Hnet & Hcell) & Hsum & _).
  by exists e, f, t.
Qed.

(** In scenario A the first stage, from ["PI"], is all cell delay and the
    second one, from ["NET1"], all net delay. *)
Lemma parsed_edges_split_delay_witness :
  exists p e0 e1 this',
    parseFile scenario_a TimingParser_new = Some ([p], this') /\
    edges p = [Some e0; Some e1] /\
    (delay e0 =? netDelay e0 + cellDelay e0)%float = true /\
    cellDelay e0 = delay e0 /\ netDelay e1 = delay e1.
Proof.
  do 4 eexists. split; [vm_compute; reflexivity|].
  split; [reflexivity|].
  edestruct (parsed_edges_split_delay scenario_a TimingParser_new)
    as (e & f & t & He & Hf & Ht & Hsum & _); [vm_compute; reflexivity|..].
  - apply list_elem_of_singleton. reflexivity.
  - simpl. apply list_elem_of_here.
  - injection He as <-. split; [exact Hsum|]. split; reflexivity.
Defined.

Lemma ends_section_true line :
  ends_section line = true ->
  line = EmptyString \/ starts_with line "Path " = true
  \/ contains line "End of" = true.
Proof.
  unfold ends_section. intros H.
  apply orb_true_iff in H as [H|H]; [|by right; right].
  apply orb_true_iff in H as [H|H]; [|by right; left].
  left. by apply String.eqb_eq.
Qed.

Lemma ends_section_false line :
  ends_section line = false ->
  line <> EmptyString /\ starts_with line "Path " = false
  /\ contains line "End of" = false.
Proof.
  unfold ends_section. intros H.
  apply orb_false_iff in H as [H ?]. apply orb_false_iff in H as [H ?].
  by apply String.eqb_neq in H.
Qed.

(** C7, as stated, fails: in [two_sections] the scan that starts at the
    header of index 0 examines the stage line of index 1 and the empty
    line of index 2, which ends the section. The index after the last
    line examined is 3, the index of the next header; the index returned
    is 2, the index of the line that ended the scan. *)
Lemma parsePath_section_counterexample :
  exists path this',
    parsePath two_sections 0 TimingParser_new = (Ok (path, 2), this') /\
    two_sections !! 2 = Some EmptyString /\ ends_section EmptyString = true /\
    index_after_last_examined two_sections 0 = 3.
Proof.
  do 2 eexists. split; [vm_compute; reflexivity|]. repeat split.
Qed.

(** C7, amended: for every sequence of lines and every index of a header
    that [parsePathHeader] accepts, the scan of the stages ends at the
    first later line that is empty, starts with ["Path "] or contains
    ["End of"], or at the end of the lines; every line in front of it
    that contains the id of the path followed by a dot is given to
    [parsePathStage] as a stage line, in order; and the index returned is
    the index of the line that ended the scan, or the number of lines
    when no line ended it. *)
Theorem parsePath_section (lines : list string) (startLine : nat)
    (this : TimingParser) (header id startpoint endpoint : string)
    (delay : float) :
  lines !! startLine = Some header ->
  parsePathHeader header = Ok (id, startpoint, endpoint, delay) ->
  exists path nextLine this',
    parsePath lines startLine this = (Ok (path, nextLine), this') /\
    header_of path = (id, startpoint, endpoint, delay) /\
    startLine < nextLine <= length lines /\
    (forall j line, startLine < j < nextLine -> lines !! j = Some line ->
       line <> EmptyString /\ starts_with line "Path " = false
       /\ contains line "End of" = false) /\
    (nextLine = length lines \/
     exists line, lines !! nextLine = Some line /\
       (line = EmptyString \/ starts_with line "Path " = true
        \/ contains line "End of" = true)) /\
    (edges path, this') =
      parse_stages
        (List.filter (fun line => contains line (id ++ "."))
           (take (nextLine - S startLine) (drop (S startLine) lines)))
        this.
Proof.
  intros Hheader Hparse.
  rewrite parsePath_spec, (list_lookup_total_correct _ _ _ Hheader), Hparse.
  set (rest := drop (S startLine) lines).
  set (block := section_lines rest). simpl.
  assert (take (length block) rest = block) as Htake.
  { rewrite (section_lines_prefix rest) at 1. by rewrite take_app_length. }
  assert (length block <= length rest) as Hlen.
  { rewrite <- Htake at 1. rewrite length_take. lia. }
  assert (length rest = length lines - S startLine) as Hrest
    by apply length_drop.
  apply lookup_lt_Some in Hheader as Hstart.
  destruct (parse_stages (stage_lines id block) this) as [es this1] eqn:Hes.
  eexists _, _, _. split; [reflexivity|].
  split; [reflexivity|]. split; [lia|]. split; [|split].
  - intros j line Hj Hline. apply ends_section_false.
    pose proof (section_lines_inside rest) as Hinside.
    rewrite Forall_forall in Hinside. apply Hinside. fold block.
    apply list_elem_of_lookup. exists (j - S startLine).
    rewrite <- Htake. apply lookup_take_Some. split; [|lia].
    unfold rest. rewrite lookup_drop.
    by replace (S startLine + (j - S startLine)) with j by lia.
  - destruct (section_lines_end rest) as [Hend|(line & Hline & Hend)].
    + left. fold block in Hend. lia.
    + right. exists line. split; [|by apply ends_section_true].
      change (S (startLine + length block))
        with (S startLine + length block).
      rewrite <- lookup_drop. exact Hline.
  - simpl. replace (startLine + length block - startLine)
      with (length block) by lia.
    rewrite Htake. by rewrite <- Hes.
Qed.

(** In [two_sections] the section of the first header runs up to the
    empty line of index 2. *)
Lemma parsePath_section_witness :
  two_sections !! 0 = Some "Path P1 FF_Q PI 2.345" /\
  parsePathHeader "Path P1 FF_Q PI 2.345"
    = Ok ("P1", "PI", "FF_Q", 2.345%float) /\
  exists path this',
    parsePath two_sections 0 TimingParser_new = (Ok (path, 2), this') /\
    length (edges path) = 1.
Proof.
  assert (parsePathHeader "Path P1 FF_Q PI 2.345"
          = Ok ("P1", "PI", "FF_Q", 2.345%float)) as Hheader
    by (vm_compute; reflexivity).
  split; [reflexivity|]. split; [exact Hheader|].
  destruct (parsePath_section two_sections 0 TimingParser_new
              _ _ _ _ _ eq_refl Hheader)
    as (path & nextLine & this' & Hrun & _ & _ & _ & _ & Hedges).
  exists path, this'.
  assert (parsePath two_sections 0 TimingParser_new
          = (Ok (path, nextLine), this')) as Hrun' by exact Hrun.
  vm_compute in Hrun. injection Hrun as <- <- <-.
  split; [exact Hrun'|reflexivity].
Defined.

(** ** Node identity *)

Lemma endpoints_of_cached this e n :
  endpoints_cached this e -> n ∈ endpoints e -> cached this n.
Proof.
  intros (f & t & Hf & Ht & Hcf & Hct). unfold endpoints. rewrite Hf, Ht.
  simpl. intros Hn.
  apply elem_of_cons in Hn as [->|Hn]; [done|].
  apply list_elem_of_singleton in Hn as ->. done.
Qed.

Lemma session_endpoints lines this paths this' :
  consistent this ->
  parseFile lines this = Some (paths, this') ->
  consistent this' /\
  nodeCache this ⊆ nodeCache this' /\
  forall p e n, p ∈ paths -> Some e ∈ edges p -> n ∈ endpoints e ->
    cached this' n.
Proof.
  intros Hc Hrun.
  destruct (parseFile_spec lines this)
    as (paths0 & this0 & Hrun0 & _ & Hsub & Hc' & Hpaths).
  rewrite Hrun in Hrun0. injection Hrun0 as <- <-.
  split; [by apply Hc'|]. split; [done|].
  intros p e n Hp He Hn.
  rewrite Forall_forall in Hpaths. specialize (Hpaths p Hp).
  rewrite Forall_forall in Hpaths.
  destruct (Hpaths _ He) as (e' & [= <-] & _ & _ & Hcached).
  eapply endpoints_of_cached; eauto.
Qed.

Lemma cached_same_name this n1 n2 :
  cached this n1 -> cached this n2 ->
  name (pointee n1) = name (pointee n2) -> n1 = n2.
Proof. unfold cached. intros H1 H2 Hname. congruence. Qed.

(** C9: throughout the life of a parser, a name resolves to one instance.
    A name that the cache holds resolves, as a source or as a
    destination, to the cached instance, and the parser is left as it
    is; a name that it does not hold is given a new allocation, which
    the cache holds from then on; no entry of the cache is ever removed
    or replaced. So all endpoints of the same name, in any stages and
    paths of a report and of the reports parsed after it, are the same
    instance, and endpoints of different names are different ones. *)
Theorem node_identity_in_session (lines : list string) (this : TimingParser)
    (paths : list TimingPath) (this' : TimingParser) :
  consistent this ->
  parseFile lines this = Some (paths, this') ->
  (forall n p, nodeCache this !! n = Some p -> nodeCache this' !! n = Some p) /\
  consistent this' /\
  (forall p e n, p ∈ paths -> Some e ∈ edges p -> n ∈ endpoints e ->
     nodeCache this' !! name (pointee n) = Some n) /\
  (forall p1 e1 n1 p2 e2 n2,
     p1 ∈ paths -> Some e1 ∈ edges p1 -> n1 ∈ endpoints e1 ->
     p2 ∈ paths -> Some e2 ∈ edges p2 -> n2 ∈ endpoints e2 ->
     (name (pointee n1) = name (pointee n2) -> n1 = n2) /\
     (address n1 = address n2 -> name (pointee n1) = name (pointee n2))) /\
  (forall lines2 paths2 this2 p1 e1 n1 p2 e2 n2,
     parseFile lines2 this' = Some (paths2, this2) ->
     p1 ∈ paths -> Some e1 ∈ edges p1 -> n1 ∈ endpoints e1 ->
     p2 ∈ paths2 -> Some e2 ∈ edges p2 -> n2 ∈ endpoints e2 ->
     name (pointee n1) = name (pointee n2) -> n1 = n2) /\
  (forall state n p, nodeCache state !! n = Some p ->
     fromNode_of n state = (p, state) /\ toNode_of n state = (p, state)) /\
  (forall state n resolve,
     consistent state -> nodeCache state !! n = None ->
     resolve = fromNode_of \/ resolve = toNode_of ->
     let p := fst (resolve n state) in
     let state' := snd (resolve n state) in
     name (pointee p) = n /\ address p = next_address state /\
     nodeCache state' !! n = Some p /\
     forall n' q, nodeCache state !! n' = Some q ->
       address q <> address p /\ nodeCache state' !! n' = Some q).
Proof.
  intros Hc Hrun.
  destruct (session_endpoints _ _ _ _ Hc Hrun) as (Hc' & Hsub & Hcached).
  split; [intros n p Hn; by eapply lookup_weaken|].
  split; [done|]. split; [exact Hcached|]. split; [|split; [|split]].
  - intros p1 e1 n1 p2 e2 n2 Hp1 He1 Hn1 Hp2 He2 Hn2.
    pose proof (Hcached _ _ _ Hp1 He1 Hn1) as H1.
    pose proof (Hcached _ _ _ Hp2 He2 Hn2) as H2.
    split; [by apply (cached_same_name this')|].
    apply (proj2 Hc' _ _ _ _ H1 H2).
  - intros lines2 paths2 this2 p1 e1 n1 p2 e2 n2 Hrun2
      Hp1 He1 Hn1 Hp2 He2 Hn2.
    destruct (session_endpoints _ _ _ _ Hc' Hrun2) as (_ & Hsub2 & Hcached2).
    apply (cached_same_name this2); [|by eapply Hcached2].
    unfold cached. eapply lookup_weaken; [|exact Hsub2].
    by eapply Hcached.
  - intros state n p. apply resolve_cached.
  - intros state n resolve Hstate Hn Hresolve.
    assert (forall ty,
      let p := fst (make_shared_node n ty state) in
      let state' := cache_node n p (snd (make_shared_node n ty state)) in
      name (pointee p) = n /\ address p = next_address state /\
      nodeCache state' !! n = Some p /\
      forall n' q, nodeCache state !! n' = Some q ->
        address q <> address p /\ nodeCache state' !! n' = Some q) as Hnew.
    { intros ty.
      destruct (make_cached_spec n ty state Hn) as (Hs & Hl & Ha & Hp & _).
      split; [by rewrite Hp|]. split; [done|]. split; [done|].
      intros n' q Hq. split; [|by eapply lookup_weaken].
      apply (proj1 Hstate) in Hq as [_ Hq]. simpl. lia. }
    destruct Hresolve as [-> | ->].
    + rewrite (fromNode_of_fresh _ _ Hn). apply Hnew.
    + rewrite (toNode_of_fresh _ _ Hn). apply Hnew.
Qed.

(** Scenario A, parsed by a new parser: the cache stays consistent and
    every endpoint of every edge, among them ["NET1"], the destination of
    the first stage and the source of the second one, is the instance
    that the cache holds for its name. *)
Lemma node_identity_in_session_witness :
  consistent TimingParser_new /\
  exists paths this',
    parseFile scenario_a TimingParser_new = Some (paths, this') /\
    consistent this' /\
    forall p e n, p ∈ paths -> Some e ∈ edges p -> n ∈ endpoints e ->
      nodeCache this' !! name (pointee n) = Some n.
Proof.
  split; [apply consistent_new|].
  destruct (parseFile scenario_a TimingParser_new)
    as [[paths this']|] eqn:Hrun; [|vm_compute in Hrun; discriminate].
  destruct (node_identity_in_session _ _ _ _ consistent_new Hrun)
    as (_ & Hc & Hcached & _).
  exists paths, this'. split; [reflexivity|]. split; assumption.
Defined.

(** ** Node categories *)

(** C6, as stated, fails: a new source named ["INV1"] is given the type
    ["unknown"], not ["inverter"], and a new destination named
    ["FF1_INV"] the type ["inverter"], not ["flop"]. *)
Lemma node_category_counterexample :
  type (pointee (fst (fromNode_of "INV1" TimingParser_new))) = "unknown" /\
  listed_category true "INV1" = "inverter" /\
  type (pointee (fst (toNode_of "FF1_INV" TimingParser_new))) = "inverter" /\
  listed_category false "FF1_INV" = "flop".
Proof. repeat split. Qed.

(** C6, amended: the type of a node is inferred when its name is first
    resolved, from the first check that matches. For a name first met as
    the source of a stage the checks are: ["NET"] gives ["net"], then
    ["FF"] or ["FLOP"] gives ["flop"], then ["PI"] gives
    ["primary_input"], otherwise ["unknown"]. For a name first met as a
    destination they are: ["NET"] gives ["net"], then ["INV"] gives
    ["inverter"], ["BUF"] gives ["buffer"], ["NAND"] gives ["nand"],
    ["NOR"] gives ["nor"], then ["FF"] or ["FLOP"] gives ["flop"], then
    ["PO"] gives ["primary_output"], otherwise ["unknown"]. A name that
    contains both ["NET"] and ["FF"] resolves to ["net"] in either role.
    A name that the cache holds keeps the node it was first given. *)
Theorem node_category_by_role (n : string) (this : TimingParser) :
  (nodeCache this !! n = None ->
   let as_source := type (pointee (fst (fromNode_of n this))) in
   let as_destination := type (pointee (fst (toNode_of n this))) in
   let flop := contains n "FF" || contains n "FLOP" in
   (contains n "NET" = true ->
      as_source = "net" /\ as_destination = "net") /\
   (contains n "NET" = false ->
      (flop = true -> as_source = "flop") /\
      (flop = false -> contains n "PI" = true ->
         as_source = "primary_input") /\
      (flop = false -> contains n "PI" = false -> as_source = "unknown") /\
      (contains n "INV" = true -> as_destination = "inverter") /\
      (contains n "INV" = false ->
         (contains n "BUF" = true -> as_destination = "buffer") /\
         (contains n "BUF" = false ->
            (contains n "NAND" = true -> as_destination = "nand") /\
            (contains n "NAND" = false ->
               (contains n "NOR" = true -> as_destination = "nor") /\
               (contains n "NOR" = false ->
                  (flop = true -> as_destination = "flop") /\
                  (flop = false -> contains n "PO" = true ->
                     as_destination = "primary_output") /\
                  (flop = false -> contains n "PO" = false ->
                     as_destination = "unknown"))))))) /\
  (forall p, nodeCache this !! n = Some p ->
     fst (fromNode_of n this) = p /\ fst (toNode_of n this) = p).
Proof.
  split.
  - intros Hn. rewrite (fromNode_of_fresh _ _ Hn), (toNode_of_fresh _ _ Hn).
    simpl. unfold fromType, toType.
    destruct (contains n "NET"), (contains n "FF"), (contains n "FLOP"),
      (contains n "PI"), (contains n "INV"), (contains n "BUF"),
      (contains n "NAND"), (contains n "NOR"), (contains n "PO");
      simpl; intuition congruence.
  - intros p Hp. destruct (resolve_cached _ _ _ Hp) as [-> ->]. done.
Qed.

(** The names of the parser tests: ["PI"] and ["NET1"] as sources,
    ["INV1"] and ["BUF1"] as destinations. *)
Lemma node_category_by_role_witness :
  type (pointee (fst (fromNode_of "PI" TimingParser_new))) = "primary_input"
  /\ type (pointee (fst (fromNode_of "NET1" TimingParser_new))) = "net"
  /\ type (pointee (fst (toNode_of "INV1" TimingParser_new))) = "inverter"
  /\ type (pointee (fst (toNode_of "BUF1" TimingParser_new))) = "buffer".
Proof.
  pose proof (proj1 (node_category_by_role "PI" TimingParser_new) eq_refl)
    as [_ Hpi].
  pose proof (proj1 (node_category_by_role "NET1" TimingParser_new) eq_refl)
    as [Hnet _].
  pose proof (proj1 (node_category_by_role "INV1" TimingParser_new) eq_refl)
    as [_ Hinv].
  pose proof (proj1 (node_category_by_role "BUF1" TimingParser_new) eq_refl)
    as [_ Hbuf].
  split; [exact (proj1 (proj2 (Hpi eq_refl)) eq_refl eq_refl)|].
  split; [exact (proj1 (Hnet eq_refl))|].
  split; [exact (proj1 (proj2 (proj2 (proj2 (Hinv eq_refl)))) eq_refl)|].
  destruct (Hbuf eq_refl) as (_ & _ & _ & _ & Hb).
  exact (proj1 (Hb eq_refl) eq_refl).
Defined.

(** * Further properties of the parser and of the analyzer *)

(** ** Invariants of a parser *)

Section ParserInvariant.
Variable I : TimingParser -> Prop.
Variable P : TimingEdge -> Prop.
Hypothesis stage_keeps : forall line this r this',
  I this -> parsePathStage line this = (r, this') ->
  I this' /\ forall e, r = Ok (Some e) -> P e.

Lemma parse_stages_keeps ls : forall this es this',
  I this -> parse_stages ls this = (es, this') ->
  I this' /\ Forall (edge_has P) es.
Proof.
  induction ls as [|line ls IH]; intros this es this' Hinv; simpl.
  - intros [= <- <-]. split; [done|constructor].
  - destruct (parsePathStage line this) as [r this1] eqn:Hstage.
    destruct (parse_stages ls this1) as [es1 this2] eqn:Hrest.
    intros [= <- <-].
    destruct (stage_keeps _ _ _ _ Hinv Hstage) as [Hinv1 Hedge].
    destruct (IH _ _ _ Hinv1 Hrest) as [Hinv2 Hes].
    split; [done|]. destruct r as [[e|]|what]; try done.
    constructor; [|done]. exists e. split; [done|]. by apply Hedge.
Qed.

Lemma parseFile_loop_keeps lines : forall fuel lineIndex paths this paths' this',
  I this ->
  Forall (fun p => Forall (edge_has P) (edges p)) paths ->
  parseFile_loop fuel lines lineIndex paths this = Some (paths', this') ->
  I this' /\ Forall (fun p => Forall (edge_has P) (edges p)) paths'.
Proof.
  induction fuel as [|fuel IH]; intros i paths this paths' this' Hinv Hpaths;
    simpl; destruct (lines !! i) as [line|] eqn:Hline;
    try (intros [= <- <-]; by split); try discriminate.
  destruct (starts_with line "Path "); [|by apply IH].
  rewrite parsePath_spec, (list_lookup_total_correct _ _ _ Hline).
  destruct (parsePathHeader line) as [[[[id sp] ep] d]|what]; [|by apply IH].
  simpl. destruct (parse_stages _ this) as [es this1] eqn:Hstages.
  destruct (parse_stages_keeps _ _ _ _ Hinv Hstages) as [Hinv1 Hes].
  apply IH; [done|]. apply Forall_app. split; [done|].
  by repeat constructor.
Qed.

Lemma parseFile_keeps lines this paths this' :
  I this -> parseFile lines this = Some (paths, this') ->
  I this' /\
  forall p e, p ∈ paths -> Some e ∈ edges p -> P e.
Proof.
  intros Hinv Hrun.
  destruct (parseFile_loop_keeps lines _ _ _ _ _ _ Hinv (Forall_nil_2 _) Hrun)
    as [Hinv' Hpaths].
  split; [done|]. intros p e Hp He.
  rewrite Forall_forall in Hpaths. specialize (Hpaths p Hp).
  rewrite Forall_forall in Hpaths.
  by destruct (Hpaths _ He) as (e' & [= <-] & HP).
Qed.

End ParserInvariant.

(** ** Allocations and types of the cached nodes *)

Lemma fromType_net n : fromType n = "net" <-> contains n "NET" = true.
Proof.
  unfold fromType. destruct (contains n "NET"); [done|].
  destruct (_ || _); [done|]. by destruct (contains n "PI").
Qed.

Lemma toType_net n : toType n = "net" <-> contains n "NET" = true.
Proof.
  unfold toType. destruct (contains n "NET"); [done|].
  destruct (contains n "INV"); [done|]. destruct (contains n "BUF"); [done|].
  destruct (contains n "NAND"); [done|]. destruct (contains n "NOR"); [done|].
  destruct (_ || _); [done|]. by destruct (contains n "PO").
Qed.

Lemma well_typed_net this n p :
  well_typed this -> nodeCache this !! n = Some p ->
  type (pointee p) = "net" <-> contains n "NET" = true.
Proof.
  intros Hty Hn. destruct (Hty n p Hn) as [-> | ->];
    [apply fromType_net|apply toType_net].
Qed.

Lemma make_cached_invariants n ty this :
  nodeCache this !! n = None -> ty = fromType n \/ ty = toType n ->
  let p := fst (make_shared_node n ty this) in
  let this' := cache_node n p (snd (make_shared_node n ty this)) in
  (well_typed this -> well_typed this') /\
  (one_allocation_per_name this -> one_allocation_per_name this').
Proof.
  intros Hn Hty. simpl. split.
  - intros Hwt n' p'. simpl. destruct (decide (n = n')) as [<-|Hne].
    + rewrite lookup_insert_eq. by intros [= <-].
    + rewrite lookup_insert_ne by done. apply Hwt.
  - unfold one_allocation_per_name. simpl. intros <-.
    by apply map_size_insert_None.
Qed.

Lemma fromNode_of_invariants n this p this' :
  fromNode_of n this = (p, this') ->
  (well_typed this -> well_typed this') /\
  (one_allocation_per_name this -> one_allocation_per_name this').
Proof.
  destruct (nodeCache this !! n) as [q|] eqn:Hn.
  - rewrite (proj1 (resolve_cached _ _ _ Hn)). by intros [= <- <-].
  - rewrite (fromNode_of_fresh _ _ Hn). intros [= <- <-].
    apply make_cached_invariants; auto.
Qed.

Lemma toNode_of_invariants n this p this' :
  toNode_of n this = (p, this') ->
  (well_typed this -> well_typed this') /\
  (one_allocation_per_name this -> one_allocation_per_name this').
Proof.
  destruct (nodeCache this !! n) as [q|] eqn:Hn.
  - rewrite (proj2 (resolve_cached _ _ _ Hn)). by intros [= <- <-].
  - rewrite (toNode_of_fresh _ _ Hn). intros [= <- <-].
    apply make_cached_invariants; auto.
Qed.

Lemma parsePathStage_invariants line this r this' :
  parsePathStage line this = (r, this') ->
  (well_typed this -> well_typed this') /\
  (one_allocation_per_name this -> one_allocation_per_name this') /\
  forall e, r = Ok (Some e) ->
    consistent this -> well_typed this -> split_by_name e.
Proof.
  intros Hrun.
  assert ((exists e, r = Ok (Some e)) \/ (forall e, r <> Ok (Some e)))
    as [[e ->]|Hnone].
  { destruct r as [[e|]|what]; [left; eauto|right; congruence..]. }
  - destruct (parsePathStage_edge _ _ _ _ Hrun)
      as (stageId & toName & fromName & delayText & d & f & t & this1
          & _ & Hd & Hf & Ht & ->).
    destruct (fromNode_of_invariants _ _ _ _ Hf) as [Hwt1 Hone1].
    destruct (toNode_of_invariants _ _ _ _ Ht) as [Hwt2 Hone2].
    split; [auto|]. split; [auto|].
    intros e [= <-] Hc Hwt.
    apply fromNode_of_spec in Hf as (_ & Hlook & Hc1).
    destruct (Hc1 Hc) as [_ Hname].
    pose proof (well_typed_net _ _ _ (Hwt1 Hwt) Hlook) as Hnet.
    rewrite <- Hname in Hnet.
    destruct (stage_edge_split f t d) as (f' & t' & Hf' & _ & Hn & Hcell).
    exists f'. split; [done|].
    assert (f' = f) as ->.
    { unfold stage_edge in Hf'. destruct (String.eqb _ _); simpl in Hf';
        congruence. }
    split.
    + intros Hcontains. apply Hn. by apply Hnet.
    + intros Hcontains. apply Hcell. rewrite Hnet. congruence.
  - assert (this' = this) as -> by (by eapply parsePathStage_no_edge).
    split; [done|]. split; [done|]. intros e ->. by destruct (Hnone e).
Qed.

(** X1: the parser allocates exactly one node for each name that enters its
    cache: after a report the number of allocations is again the number
    of cached names. *)
Theorem parser_allocates_once (lines : list string) (this : TimingParser)
    (paths : list TimingPath) (this' : TimingParser) :
  one_allocation_per_name this ->
  parseFile lines this = Some (paths, this') ->
  size (nodeCache this') = next_address this'.
Proof.
  intros Hone Hrun.
  apply (parseFile_keeps one_allocation_per_name (fun _ => True))
    with (lines := lines) (paths := paths) (this' := this') in Hone
    as [Hone' _]; [done| |done].
  intros line s r s' Hs Hstage.
  by destruct (parsePathStage_invariants _ _ _ _ Hstage) as (_ & H & _); auto.
Qed.

(** Scenario A names three nodes in four places: three allocations. *)
Lemma parser_allocates_once_witness :
  one_allocation_per_name TimingParser_new /\
  exists paths this',
    parseFile scenario_a TimingParser_new = Some (paths, this') /\
    size (nodeCache this') = 3 /\ next_address this' = 3.
Proof.
  assert (one_allocation_per_name TimingParser_new) as Hnew by reflexivity.
  split; [exact Hnew|].
  destruct (parseFile scenario_a TimingParser_new)
    as [[paths this']|] eqn:Hrun; [|vm_compute in Hrun; discriminate].
  pose proof (parser_allocates_once _ _ _ _ Hnew Hrun) as Hsize.
  exists paths, this'. split; [reflexivity|].
  vm_compute in Hrun. injection Hrun as <- <-.
  split; [exact Hsize|reflexivity].
Defined.

Lemma well_typed_new : well_typed TimingParser_new.
Proof. intros n p. simpl. by rewrite lookup_empty. Qed.

(** X2: whatever the order in which the names are met, an edge that the
    parser produces carries its whole delay as net delay exactly when the
    name of its source contains ["NET"]: both chains of checks test
    ["NET"] first. *)
Theorem parsed_edges_split_by_name (lines : list string)
    (this : TimingParser) (paths : list TimingPath) (this' : TimingParser) :
  consistent this -> well_typed this ->
  parseFile lines this = Some (paths, this') ->
  well_typed this' /\
  forall p e, p ∈ paths -> Some e ∈ edges p ->
    exists f, from e = Some f /\
      (contains (name (pointee f)) "NET" = true ->
         netDelay e = delay e /\ cellDelay e = 0%float) /\
      (contains (name (pointee f)) "NET" = false ->
         cellDelay e = delay e /\ netDelay e = 0%float).
Proof.
  intros Hc Hwt Hrun.
  destruct (parseFile_keeps (fun s => consistent s /\ well_typed s)
              split_by_name) with (lines := lines) (this := this)
              (paths := paths) (this' := this') as [[_ Hwt'] Hedges];
    [|done|done|by split].
  intros line s r s' [Hcs Hwts] Hstage.
  destruct (parsePathStage_invariants _ _ _ _ Hstage) as (Hw & _ & Hsplit).
  destruct (parsePathStage_spec _ _ _ _ Hstage) as (_ & Hcons & _).
  split; [split; auto|]. intros e He. by apply Hsplit.
Qed.

Lemma parsed_edges_split_by_name_witness :
  consistent TimingParser_new /\ well_typed TimingParser_new /\
  exists p e0 e1 this',
    parseFile scenario_a TimingParser_new = Some ([p], this') /\
    edges p = [Some e0; Some e1] /\
    cellDelay e0 = delay e0 /\ netDelay e1 = delay e1.
Proof.
  split; [apply consistent_new|]. split; [apply well_typed_new|].
  do 4 eexists. split; [vm_compute; reflexivity|]. split; [reflexivity|].
  edestruct (parsed_edges_split_by_name scenario_a TimingParser_new)
    as [_ Hedges];
    [apply consistent_new|apply well_typed_new|vm_compute; reflexivity|].
  split.
  - edestruct Hedges as (f & Hf & _ & Hcell);
      [apply list_elem_of_here|apply list_elem_of_here|].
    injection Hf as <-. exact (proj1 (Hcell eq_refl)).
  - edestruct Hedges as (f & Hf & Hnet & _);
      [apply list_elem_of_here
      |apply list_elem_of_further, list_elem_of_here|].
    injection Hf as <-. exact (proj1 (Hnet eq_refl)).
Defined.

(** ** Reports without a header *)

Lemma parseFile_loop_no_header lines : forall fuel lineIndex paths this,
  length lines <= lineIndex + fuel ->
  well_formed_headers (drop lineIndex lines) = [] ->
  parseFile_loop fuel lines lineIndex paths this = Some (paths, this).
Proof.
  induction fuel as [|fuel IH]; intros i paths this Hfuel Hnone; simpl.
  - by rewrite lookup_ge_None_2 by lia.
  - destruct (lines !! i) as [line|] eqn:Hline; [|done].
    rewrite (drop_S _ _ _ Hline), well_formed_headers_cons in Hnone.
    unfold well_formed_header in Hnone.
    destruct (starts_with line "Path ") eqn:Hpath; [|apply IH; [lia|done]].
    unfold parsePath. rewrite (list_lookup_total_correct _ _ _ Hline).
    destruct (parsePathHeader line) as [h|what]; [discriminate|].
    apply IH; [lia|done].
Qed.

(** X3: a report in which no line is a well-formed header gives no path and
    leaves the parser as it is: stage lines outside the section of a
    path create no node. *)
Theorem parseFile_without_header (lines : list string)
    (this : TimingParser) :
  well_formed_headers lines = [] ->
  parseFile lines this = Some ([], this).
Proof. intros Hnone. apply parseFile_loop_no_header; [lia|done]. Qed.

Lemma parseFile_without_header_witness :
  parseFile ["P1.1 NET1 PI 0.123"; "Path   Endpoint   Startpoint   Delay";
             "P1.2 INV1 NET1 0.456"] TimingParser_new
  = Some ([], TimingParser_new).
Proof. apply parseFile_without_header. reflexivity. Defined.

(** ** Parsing a report again *)

(** Once the names of a stage line are cached, the line gives the same
    edge, with the same nodes, and changes nothing. *)
Lemma parsePathStage_again line this r this1 X :
  parsePathStage line this = (r, this1) ->
  nodeCache this1 ⊆ nodeCache X ->
  parsePathStage line X = (r, X).
Proof.
  unfold parsePathStage.
  destruct (regex_search stagePattern line)
    as [[|stageId [|toName [|fromName [|delayText [|? ?]]]]]|];
    try (by intros [= <- <-]).
  destruct (stod delayText) as [d|what]; [|by intros [= <- <-]].
  destruct (fromNode_of fromName this) as [f this0] eqn:Hf.
  destruct (toNode_of toName this0) as [t this2] eqn:Ht.
  intros [= <- <-] Hsub.
  apply fromNode_of_spec in Hf as (_ & Hf & _).
  apply toNode_of_spec in Ht as (Hsub2 & Ht & _).
  assert (nodeCache X !! fromName = Some f) as HXf
    by (eapply lookup_weaken; [|exact Hsub];
        by eapply lookup_weaken).
  assert (nodeCache X !! toName = Some t) as HXt
    by (by eapply lookup_weaken).
  rewrite (proj1 (resolve_cached _ _ _ HXf)).
  by rewrite (proj2 (resolve_cached _ _ _ HXt)).
Qed.

Lemma parse_stages_again ls : forall this es this' X,
  parse_stages ls this = (es, this') ->
  nodeCache this' ⊆ nodeCache X ->
  parse_stages ls X = (es, X).
Proof.
  induction ls as [|line ls IH]; intros this es this' X; simpl.
  - by intros [= <- <-].
  - destruct (parsePathStage line this) as [r this1] eqn:Hstage.
    destruct (parse_stages ls this1) as [es1 this2] eqn:Hrest.
    intros [= <- <-] Hsub.
    pose proof (parse_stages_spec _ _ _ _ Hrest) as (Hsub1 & _).
    rewrite (parsePathStage_again _ _ _ _ X Hstage)
      by (by transitivity (nodeCache this2)).
    by rewrite (IH _ _ _ X Hrest Hsub).
Qed.

(** The paths that the loop adds do not depend on those it starts
    with. *)
Lemma parseFile_loop_acc lines : forall fuel lineIndex paths this r this',
  parseFile_loop fuel lines lineIndex paths this = Some (r, this') ->
  exists new, r = (paths ++ new)%list /\
    forall acc,
      parseFile_loop fuel lines lineIndex acc this
      = Some ((acc ++ new)%list, this').
Proof.
  induction fuel as [|fuel IH]; intros i paths this r this'; simpl;
    destruct (lines !! i) as [line|] eqn:Hline;
    try (intros [= <- <-]; exists []; split; [by rewrite app_nil_r|];
         intros acc; by rewrite app_nil_r);
    try discriminate.
  destruct (starts_with line "Path "); [|by apply IH].
  destruct (parsePath lines i this) as [[[p next]|what] this1];
    [|by apply IH].
  intros Hrun. apply IH in Hrun as (new & -> & Hacc).
  exists (p :: new). split; [by rewrite <- app_assoc|].
  intros acc. specialize (Hacc (acc ++ [p])%list).
  by rewrite <- app_assoc in Hacc.
Qed.

Lemma parseFile_loop_grows lines fuel lineIndex paths this r this' :
  parseFile_loop fuel lines lineIndex paths this = Some (r, this') ->
  nodeCache this ⊆ nodeCache this'.
Proof.
  intros Hrun. apply parseFile_loop_acc in Hrun as (new & _ & Hrun).
  specialize (Hrun []).
  apply (parseFile_loop_keeps (fun s => nodeCache this ⊆ nodeCache s)
           (fun _ => True)) in Hrun as [Hsub _]; [done| |done|constructor].
  intros line s r0 s' Hs Hstage. split; [|done].
  destruct (parsePathStage_spec _ _ _ _ Hstage) as (Hsub & _).
  by transitivity (nodeCache s).
Qed.

Lemma parseFile_loop_again lines X : forall fuel lineIndex this new this',
  parseFile_loop fuel lines lineIndex [] this = Some (new, this') ->
  nodeCache this' ⊆ nodeCache X ->
  parseFile_loop fuel lines lineIndex [] X = Some (new, X).
Proof.
  induction fuel as [|fuel IH]; intros i this new this'; simpl;
    destruct (lines !! i) as [line|] eqn:Hline;
    try (by intros [= <- <-]); try discriminate.
  destruct (starts_with line "Path "); [|by apply IH].
  rewrite !parsePath_spec, (list_lookup_total_correct _ _ _ Hline).
  destruct (parsePathHeader line) as [[[[id sp] ep] d]|what]; [|by apply IH].
  simpl. destruct (parse_stages _ this) as [es this1] eqn:Hstages.
  intros Hrun Hsub.
  pose proof (parseFile_loop_grows _ _ _ _ _ _ _ Hrun) as Hsub1.
  rewrite (parse_stages_again _ _ _ _ X Hstages)
    by (by transitivity (nodeCache this')).
  apply parseFile_loop_acc in Hrun as (new' & -> & Hacc).
  specialize (Hacc []). simpl in Hacc.
  apply (IH _ _ _ _ Hacc) in Hsub.
  apply parseFile_loop_acc in Hsub as (new2 & Hnew2 & Hacc2).
  simpl in Hnew2. subst new2. apply Hacc2.
Qed.

(** X4: a report parsed again by the same parser, at once or after other
    reports, gives the same paths, with the same node instances, and
    leaves the cache as it is: nothing is allocated for names already
    met. *)
Theorem parseFile_again (lines : list string) (this : TimingParser)
    (paths : list TimingPath) (this' later : TimingParser) :
  parseFile lines this = Some (paths, this') ->
  nodeCache this' ⊆ nodeCache later ->
  parseFile lines later = Some (paths, later).
Proof. apply parseFile_loop_again. Qed.

Lemma parseFile_again_witness :
  exists paths this',
    parseFile scenario_a TimingParser_new = Some (paths, this') /\
    parseFile scenario_a this' = Some (paths, this').
Proof.
  destruct (parseFile scenario_a TimingParser_new)
    as [[paths this']|] eqn:Hrun; [|vm_compute in Hrun; discriminate].
  exists paths, this'. split; [reflexivity|].
  by apply (parseFile_again _ _ _ _ _ Hrun).
Defined.

(** ** Reports put one after the other *)

Lemma parseFile_loop_more_fuel lines : forall fuel lineIndex paths this r,
  parseFile_loop fuel lines lineIndex paths this = Some r ->
  parseFile_loop (S fuel) lines lineIndex paths this = Some r.
Proof.
  induction fuel as [|fuel IH]; intros i paths this r.
  - simpl. by destruct (lines !! i).
  - intros Hrun. simpl in Hrun.
    change (parseFile_loop (S (S fuel)) lines i paths this)
      with (match lines !! i with
            | None => Some (paths, this)
            | Some line =>
                if starts_with line "Path " then
                  match parsePath lines i this with
                  | (Ok (path, nextLine), this') =>
                      parseFile_loop (S fuel) lines nextLine
                        (paths ++ [path])%list this'
                  | (Throw _, this') =>
                      parseFile_loop (S fuel) lines (S i) paths this'
                  end
                else parseFile_loop (S fuel) lines (S i) paths this
            end).
    destruct (lines !! i) as [line|]; [|done].
    destruct (starts_with line "Path "); [|by apply IH].
    destruct (parsePath lines i this) as [[[p next]|what] this1];
      by apply IH.
Qed.

Lemma parseFile_loop_fuel_plus lines k : forall fuel lineIndex paths this r,
  parseFile_loop fuel lines lineIndex paths this = Some r ->
  parseFile_loop (k + fuel) lines lineIndex paths this = Some r.
Proof.
  induction k as [|k IH]; intros fuel i paths this r Hrun; [done|].
  by apply parseFile_loop_more_fuel, IH.
Qed.

(** A section does not run into lines that start with a line ending
    it. *)
Lemma section_lines_app rest l2 :
  match l2 with [] => True | line :: _ => ends_section line = true end ->
  section_lines (rest ++ l2) = section_lines rest.
Proof.
  intros Hl2. induction rest as [|line rest IH]; simpl.
  - destruct l2 as [|line l2]; [done|]. simpl. by rewrite Hl2.
  - destruct (ends_section line); [done|]. by rewrite IH.
Qed.

Lemma section_lines_length rest : length (section_lines rest) <= length rest.
Proof.
  induction rest as [|line rest IH]; simpl; [done|].
  destruct (ends_section line); simpl; lia.
Qed.

Lemma parseFile_loop_first l1 l2 k :
  match l2 with [] => True | line :: _ => ends_section line = true end ->
  forall fuel lineIndex paths this r this1 res,
    lineIndex <= length l1 ->
    parseFile_loop fuel l1 lineIndex paths this = Some (r, this1) ->
    parseFile_loop k (l1 ++ l2) (length l1) r this1 = Some res ->
    parseFile_loop (fuel + k) (l1 ++ l2) lineIndex paths this = Some res.
Proof.
  intros Hl2. induction fuel as [|fuel IH];
    intros i paths this r this1 res Hi Hrun Hrest.
  - simpl in Hrun. destruct (l1 !! i) as [line|] eqn:Hline; [done|].
    injection Hrun as <- <-. apply lookup_ge_None in Hline.
    by replace i with (length l1) by lia.
  - simpl in Hrun. destruct (l1 !! i) as [line|] eqn:Hline.
    2:{ injection Hrun as <- <-. apply lookup_ge_None in Hline.
        replace i with (length l1) by lia.
        by apply (parseFile_loop_fuel_plus _ (S fuel)). }
    pose proof (lookup_lt_Some _ _ _ Hline) as Hlt.
    simpl. rewrite (lookup_app_l_Some _ _ _ _ Hline).
    destruct (starts_with line "Path ");
      [|by apply (IH _ _ _ r this1); [lia|..]].
    rewrite parsePath_spec in Hrun. rewrite parsePath_spec.
    rewrite (list_lookup_total_correct _ _ _ Hline) in Hrun.
    rewrite (list_lookup_total_correct _ _ _ (lookup_app_l_Some _ _ _ _ Hline)).
    destruct (parsePathHeader line) as [[[[id sp] ep] d]|what];
      [|by apply (IH _ _ _ r this1); [lia|..]].
    rewrite drop_app_le by lia. rewrite section_lines_app by done.
    simpl in *. destruct (parse_stages _ this) as [es this2].
    apply (IH _ _ _ r this1); [|done..].
    pose proof (section_lines_length (drop (S i) l1)) as Hlen.
    rewrite length_drop in Hlen. lia.
Qed.

Lemma parseFile_loop_shift l1 l2 : forall fuel j paths this,
  parseFile_loop fuel (l1 ++ l2) (length l1 + j) paths this
  = parseFile_loop fuel l2 j paths this.
Proof.
  induction fuel as [|fuel IH]; intros j paths this; simpl;
    rewrite lookup_app_r, Nat.add_comm, Nat.add_sub by lia;
    [done|].
  destruct (l2 !! j) as [line|] eqn:Hline; [|done].
  replace (S (j + length l1)) with (length l1 + S j) by lia.
  destruct (starts_with line "Path "); [|by apply IH].
  rewrite !parsePath_spec.
  rewrite (list_lookup_total_correct _ _ _ Hline).
  assert ((l1 ++ l2)%list !! (j + length l1) = Some line) as Hline'
    by (by rewrite lookup_app_r, Nat.add_sub by lia).
  rewrite (list_lookup_total_correct _ _ _ Hline').
  destruct (parsePathHeader line) as [[[[id sp] ep] d]|what]; [|by apply IH].
  replace (drop (S (j + length l1)) (l1 ++ l2)) with (drop (S j) l2).
  2:{ rewrite drop_app_ge by lia. f_equal. lia. }
  simpl. destruct (parse_stages _ this) as [es this2].
  rewrite <- IH. f_equal. lia.
Qed.

Lemma parseFile_append (l1 l2 : list string) (this this1 this2 : TimingParser)
    (paths1 paths2 : list TimingPath) :
  starts_a_section l2 ->
  parseFile l1 this = Some (paths1, this1) ->
  parseFile l2 this1 = Some (paths2, this2) ->
  parseFile (l1 ++ l2) this = Some ((paths1 ++ paths2)%list, this2).
Proof.
  intros Hl2 Hrun1 Hrun2. unfold parseFile. rewrite length_app.
  apply (parseFile_loop_first l1 l2 (length l2) Hl2 _ _ _ _ _ _ _
           (Nat.le_0_l _) Hrun1).
  replace (length l1) with (length l1 + 0) at 1 by lia.
  rewrite parseFile_loop_shift.
  apply parseFile_loop_acc in Hrun2 as (new & Hnew & Hacc).
  simpl in Hnew. subst new. apply Hacc.
Qed.

(** X5: parsing two reports put one after the other is parsing the first
    one and then the second one with the same parser, when the second
    report starts with a line that ends a section (a header line, for
    one). *)
Theorem parseFile_app (l1 l2 : list string) (this this1 this2 : TimingParser)
    (paths1 paths2 : list TimingPath) :
  match l2 with [] => True | line :: _ => ends_section line = true end ->
  parseFile l1 this = Some (paths1, this1) ->
  parseFile l2 this1 = Some (paths2, this2) ->
  parseFile (l1 ++ l2) this = Some ((paths1 ++ paths2)%list, this2).
Proof. apply parseFile_append. Qed.

(** The two sections of [two_sections], parsed as two reports. *)
Lemma parseFile_app_witness :
  exists paths1 this1 paths2 this2,
    parseFile (take 3 two_sections) TimingParser_new
      = Some (paths1, this1) /\
    parseFile (drop 3 two_sections) this1 = Some (paths2, this2) /\
    parseFile two_sections TimingParser_new
      = Some ((paths1 ++ paths2)%list, this2).
Proof.
  destruct (parseFile (take 3 two_sections) TimingParser_new)
    as [[paths1 this1]|] eqn:Hrun1; [|vm_compute in Hrun1; discriminate].
  destruct (parseFile (drop 3 two_sections) this1)
    as [[paths2 this2]|] eqn:Hrun2.
  2:{ destruct (parseFile_spec (drop 3 two_sections) this1)
        as (? & ? & Hsome & _). congruence. }
  exists paths1, this1, paths2, this2.
  split; [reflexivity|]. split; [exact Hrun2|].
  by apply (parseFile_app (take 3 two_sections) (drop 3 two_sections)
              _ _ _ _ _ eq_refl Hrun1 Hrun2).
Defined.

(** ** The text of an analysis *)

Lemma starts_with_app needle post : starts_with (needle ++ post) needle = true.
Proof. rewrite starts_with_prefix. apply prefix_split. by exists post. Qed.

Lemma is_advice_pipeline x : is_advice ("insert pipeline register" ++ x) = true.
Proof. unfold is_advice. by rewrite starts_with_app. Qed.

Lemma is_advice_replace x : is_advice ("replace " ++ x) = true.
Proof. unfold is_advice. by rewrite starts_with_app, orb_true_r. Qed.

Lemma is_advice_library x : is_advice ("use faster cell library" ++ x) = true.
Proof. unfold is_advice. by rewrite starts_with_app, !orb_true_r. Qed.

Lemma is_advice_fanout x : is_advice ("balance fan-out" ++ x) = true.
Proof. unfold is_advice. by rewrite starts_with_app, !orb_true_r. Qed.

Lemma suggestPipelineInsertion_advice edge :
  is_advice (suggestPipelineInsertion edge) = true.
Proof.
  destruct edge as [[[f|] [t|] d n c]|];
    first [exact (is_advice_pipeline (" between " ++ name (pointee f)
                    ++ " â†’ " ++ name (pointee t)))
          |exact (is_advice_pipeline " in the critical path")].
Qed.

Lemma suggestCellReplacement_advice edge :
  is_advice (suggestCellReplacement edge) = true.
Proof.
  destruct edge as [[[f|] t d n c]|];
    try exact (is_advice_library " for critical path cells").
  unfold suggestCellReplacement.
  destruct (negb _); [apply is_advice_replace|].
  exact (is_advice_library " for critical path cells").
Qed.

Lemma suggestFanoutOptimization_advice edge :
  is_advice (suggestFanoutOptimization edge) = true.
Proof.
  destruct edge as [[[f|] [t|] d n c]|];
    first [exact (is_advice_fanout (" after " ++ name (pointee f)))
          |exact (is_advice_fanout " in the critical path")].
Qed.

(** X6: every analysis carries a text: the one on insufficient data or one of
    the three kinds of advice, never the empty text that the constructor
    of [TimingPathAnalysis] leaves when there is a worst stage. *)
Theorem analyzePath_text (p : TimingPath) :
  (optimizationSuggestion (analyzePath p)
   = "Insufficient path data for optimization suggestions."
   \/ is_advice (optimizationSuggestion (analyzePath p)) = true) /\
  optimizationSuggestion (analyzePath p) <> EmptyString.
Proof.
  assert (optimizationSuggestion (analyzePath p) = insufficient_data
          \/ is_advice (optimizationSuggestion (analyzePath p)) = true) as H.
  { unfold analyzePath.
    destruct (worstStage (TimingPathAnalysis_new (Some p))) as [e|];
      [|by left].
    destruct (from e), (to e); try (by left). right.
    destruct (_ && _); [apply suggestPipelineInsertion_advice|].
    destruct (_ && _);
      [apply suggestCellReplacement_advice
      |apply suggestFanoutOptimization_advice]. }
  split; [exact H|]. intros Hempty. rewrite Hempty in H.
  by destruct H.
Qed.

(** ** Null edges *)

Lemma worst_stage_scan_non_null es : forall acc,
  fold_left worst_stage_step (non_null es) acc
  = fold_left worst_stage_step es acc.
Proof.
  induction es as [|[e|] es IH]; intros [m w]; simpl; [done| |apply IH].
  apply IH.
Qed.

(** X7: null edges in a path have no influence on its worst stage. *)
Theorem getWorstStage_non_null (p : TimingPath) :
  getWorstStage (with_edges p (non_null (edges p))) = getWorstStage p.
Proof.
  rewrite !getWorstStage_scan. simpl. apply worst_stage_scan_non_null.
Qed.

(** ** Rankings without ties *)

Lemma sorted_by_tail {A : Type} (comp : A -> A -> bool) x l :
  sorted_by comp (x :: l) -> sorted_by comp l.
Proof. intros Hs i j a b Hij Hi Hj. apply (Hs (S i) (S j)); auto with lia. Qed.

Lemma sorted_by_head {A : Type} (comp : A -> A -> bool) x y l :
  sorted_by comp (x :: l) -> y ∈ l -> comp y x = false.
Proof.
  intros Hs Hy. apply list_elem_of_lookup in Hy as [j Hj].
  apply (Hs 0 (S j)); auto with lia.
Qed.

(** A list has at most one sorted rearrangement when [comp] orders any
    two different elements. *)
Lemma sorted_rearrangement_unique {A : Type} (comp : A -> A -> bool) :
  forall l1 l2 : list A,
    Permutation l1 l2 -> sorted_by comp l1 -> sorted_by comp l2 ->
    (forall a b, a ∈ l1 -> b ∈ l1 ->
       a = b \/ comp a b = true \/ comp b a = true) ->
    l1 = l2.
Proof.
  induction l1 as [|x l1 IH]; intros l2 Hperm Hs1 Hs2 Htotal.
  - by apply Permutation_nil in Hperm.
  - destruct l2 as [|y l2].
    { symmetry in Hperm. by apply Permutation_nil in Hperm. }
    assert (x = y) as <-.
    { assert (y ∈ x :: l1) as Hy
        by (rewrite Hperm; apply list_elem_of_here).
      assert (x ∈ y :: l2) as Hx
        by (rewrite <- Hperm; apply list_elem_of_here).
      apply elem_of_cons in Hy as [->|Hy]; [done|].
      apply elem_of_cons in Hx as [->|Hx]; [done|].
      pose proof (sorted_by_head _ _ _ _ Hs1 Hy) as Hyx.
      pose proof (sorted_by_head _ _ _ _ Hs2 Hx) as Hxy.
      destruct (Htotal x y) as [->|[H|H]]; try done; try congruence.
      - apply list_elem_of_here.
      - by apply list_elem_of_further. }
    f_equal. apply Permutation_cons_inv in Hperm.
    apply IH; eauto using sorted_by_tail.
    intros a b Ha Hb. apply Htotal; by apply list_elem_of_further.
Qed.

(** X8: when no two different paths have the same total delay, the result of
    [findCriticalPaths] does not depend on what [std::sort] does with
    equivalent elements: it is unique. *)
Theorem findCriticalPaths_unique (paths : list TimingPath) (topK : Z)
    (result1 result2 : list TimingPathAnalysis) :
  no_ties paths ->
  findCriticalPaths paths topK result1 ->
  findCriticalPaths paths topK result2 ->
  result1 = result2.
Proof.
  intros Hties (_ & sorted1 & [Hperm1 Hsorted1] & ->)
               (_ & sorted2 & [Hperm2 Hsorted2] & ->).
  assert (sorted1 = sorted2) as ->; [|done].
  apply (sorted_rearrangement_unique by_total_delay_desc); try done.
  - by rewrite <- Hperm1.
  - intros a b Ha Hb. apply Hties; by rewrite Hperm1.
Qed.

(** The paths of the analyzer tests, of total delay [5.0], [4.0] and
    [6.0]: the two most critical ones can only be [path3] and [path1]. *)
Lemma findCriticalPaths_unique_witness :
  no_ties [path1; path2; path3] /\
  forall result, findCriticalPaths [path1; path2; path3] 2 result ->
    result = [analyzePath path3; analyzePath path1].
Proof.
  assert (no_ties [path1; path2; path3]) as Hties.
  { intros a b Ha Hb.
    repeat (apply elem_of_cons in Ha as [->|Ha]);
      repeat (apply elem_of_cons in Hb as [->|Hb]);
      try (by inversion Ha); try (by inversion Hb);
      first [by left | by right; left | by right; right]. }
  split; [exact Hties|]. intros result Hrun.
  apply (findCriticalPaths_unique _ _ _ _ Hties Hrun).
  split; [apply by_total_delay_desc_strict_weak; by repeat constructor|].
  exists [path3; path1; path2]. split; [split|reflexivity].
  - rewrite (Permutation_app_comm [path1; path2] [path3]). reflexivity.
  - intros [|[|[|i]]] [|[|[|j]]] x y Hij Hi Hj; simpl in *; try lia;
      try discriminate; inversion Hi; inversion Hj; subst; reflexivity.
Defined.

(** ** Half of a positive double *)

Section Halving.
Local Open Scope Z_scope.

Lemma shr_52 m :
  SpecFloat.iter_pos shr_1 52
    (Build_shr_record (Zpos (4503599627370496 * m)) false false)
  = Build_shr_record (Zpos m) false false.
Proof. vm_compute. reflexivity. Qed.

Lemma shr_53 m :
  SpecFloat.iter_pos shr_1 53
    (Build_shr_record (Zpos (4503599627370496 * m)) false false)
  = shr_1 (Build_shr_record (Zpos m) false false).
Proof. vm_compute. reflexivity. Qed.

Lemma digits_times_2_52 m :
  Zdigits2 (Zpos (4503599627370496 * m)) = Zpos (digits2_pos m) + 52.
Proof.
  cbv [Zdigits2 Pos.mul]. cbn [digits2_pos]. rewrite !Pos2Z.inj_succ. lia.
Qed.

Lemma shr_nonpos mrs e n : n <= 0 -> shr mrs e n = (mrs, e).
Proof. destruct n; [reflexivity|lia|reflexivity]. Qed.

Lemma digits_succ p :
  (digits2_pos (Pos.succ p) <= Pos.succ (digits2_pos p))%positive.
Proof. induction p; simpl; lia. Qed.

(** The product of [0.5] and a positive double, as IEEE 754 rounds it, is
    below that double: for a normal double above the least exponent the
    exponent goes down by one, and for the others the significand is
    halved and rounded to even. *)
Lemma half_of_valid m e :
  bounded prec emax m e = true ->
  SFltb (SF64mul (S754_finite false 4503599627370496 (-53))
                 (S754_finite false m e))
        (S754_finite false m e) = true.
Proof.
  intros Hb. unfold bounded, canonical_mantissa in Hb.
  apply andb_true_iff in Hb as [Hcanon He].
  apply Z.eqb_eq in Hcanon. apply Z.leb_le in He.
  unfold fexp, SpecFloat.emin in Hcanon. unfold prec, emax in *.
  unfold SF64mul, SFmul. cbn [xorb].
  unfold binary_round_aux, shr_fexp.
  rewrite digits_times_2_52. unfold fexp, SpecFloat.emin, prec, emax.
  set (D := Zpos (digits2_pos m)) in *.
  destruct (Z_le_gt_dec (-1073) e) as [Hnormal|Hmin].
  - assert (D = 53) as HD by lia.
    replace (Z.max (D + 52 + (-53 + e) - 53) (3 - 1024 - 53) - (-53 + e))
      with 52 by lia.
    cbn [shr shr_record_of_loc]. rewrite shr_52.
    cbn [shr_m loc_of_shr_record round_nearest_even Zdigits2].
    fold D. rewrite shr_nonpos by lia.
    cbn [shr_m shr_record_of_loc].
    replace (-53 + e + 52 <=? 1024 - 53) with true
      by (symmetry; apply Z.leb_le; lia).
    unfold SFltb, SFcompare.
    replace (-53 + e + 52 ?= e) with Lt
      by (symmetry; apply Z.compare_lt_iff; lia).
    reflexivity.
  - assert (e = -1074 /\ D <= 53) as [-> HD] by lia.
    replace (Z.max (D + 52 + (-53 + -1074) - 53) (3 - 1024 - 53)
             - (-53 + -1074))
      with 53 by lia.
    cbn [shr shr_record_of_loc]. rewrite shr_53.
    destruct m as [p|p|].
    + assert (Z.pos (digits2_pos p) <= 52) as Hp
        by (subst D; cbn [digits2_pos] in HD; lia).
      cbn [shr_1 shr_m loc_of_shr_record orb round_nearest_even].
      assert (exists q,
                (if Z.even (Z.pos p) then Z.pos p else Z.pos p + 1) = Z.pos q
                /\ Z.pos (digits2_pos q) <= 53 /\ (q < p~1)%positive)
        as (q & -> & Hq & Hlt).
      { destruct (Z.even (Z.pos p)).
        - exists p. split; [reflexivity|]. split; lia.
        - exists (Pos.succ p). split; [lia|]. split; [|lia].
          pose proof (digits_succ p). lia. }
      cbn [Zdigits2]. rewrite shr_nonpos by lia. cbn [shr_m].
      replace (-53 + -1074 + 53 <=? 1024 - 53) with true by reflexivity.
      unfold SFltb, SFcompare.
      replace (-53 + -1074 + 53 ?= -1074) with Eq by reflexivity.
      change (Pos.compare_cont Eq q p~1) with (q ?= p~1)%positive.
      by rewrite (proj2 (Pos.compare_lt_iff q p~1) Hlt).
    + assert (Z.pos (digits2_pos p) <= 52) as Hp
        by (subst D; cbn [digits2_pos] in HD; lia).
      cbn [shr_1 shr_m loc_of_shr_record orb round_nearest_even Zdigits2].
      rewrite shr_nonpos by lia. cbn [shr_m].
      replace (-53 + -1074 + 53 <=? 1024 - 53) with true by reflexivity.
      unfold SFltb, SFcompare.
      replace (-53 + -1074 + 53 ?= -1074) with Eq by reflexivity.
      change (Pos.compare_cont Eq p p~0) with (p ?= p~0)%positive.
      rewrite (proj2 (Pos.compare_lt_iff p p~0)); [reflexivity|lia].
    + reflexivity.
Qed.

End Halving.

Lemma half_below d :
  (0 <? d)%float = true -> is_finite d = true ->
  (0.5 * d <? d)%float = true.
Proof.
  intros Hpos Hfin.
  rewrite FloatAxioms.ltb_spec in Hpos. rewrite FloatAxioms.ltb_spec.
  rewrite FloatAxioms.mul_spec.
  pose proof (Prim2SF_valid d) as Hvalid.
  unfold is_finite, is_infinity in Hfin.
  rewrite FloatAxioms.eqb_spec, FloatAxioms.abs_spec in Hfin.
  assert (Prim2SF 0.5 = S754_finite false 4503599627370496 (-53)) as ->
    by reflexivity.
  assert (Prim2SF 0 = S754_zero false) as Hzero by reflexivity.
  rewrite Hzero in Hpos.
  destruct (Prim2SF d) as [s|s| |s m e]; try discriminate.
  - destruct s; [discriminate|].
    rewrite orb_comm in Hfin. discriminate.
  - destruct s; [discriminate|]. by apply half_of_valid.
Qed.

(** ** From the report to the advice *)

Lemma stod_finite s x : stod s = Ok x -> is_finite x = true.
Proof.
  unfold stod. destruct (span_digits s) as [int_digits rest].
  destruct (int_digits ++ _)%list; [discriminate|].
  destruct (decimal_value _) as [|n|n]; try (intros [= <-]; reflexivity).
  destruct (is_finite _ && _) eqn:Hfin; [|discriminate].
  intros [= <-]. by apply andb_true_iff in Hfin as [Hfin _].
Qed.

Lemma parsePathStage_parsed_stage line this e this' :
  parsePathStage line this = (Ok (Some e), this') ->
  consistent this -> well_typed this -> parsed_stage e.
Proof.
  intros Hrun Hc Hwt.
  destruct (parsePathStage_edge _ _ _ _ Hrun)
    as (stageId & toName & fromName & delayText & d & f & t & this1
        & _ & Hd & Hf & Ht & ->).
  exists f, t, d. split; [done|]. split; [by eapply stod_finite|].
  destruct (fromNode_of_invariants _ _ _ _ Hf) as [Hwt1 _].
  apply fromNode_of_spec in Hf as (_ & Hlook & Hc1).
  destruct (Hc1 Hc) as [_ Hname].
  pose proof (well_typed_net _ _ _ (Hwt1 Hwt) Hlook) as Hnet.
  by rewrite <- Hname in Hnet.
Qed.

Lemma analyzePath_worstStage (p : TimingPath) :
  worstStage (analyzePath p) = snd (getWorstStage p).
Proof.
  unfold analyzePath, TimingPathAnalysis_new.
  destruct (getWorstStage p) as [m [e|]]; [|reflexivity].
  cbn [worstStage snd].
  destruct (from e); [|reflexivity]. destruct (to e); [|reflexivity].
  destruct (_ && _); [reflexivity|]. by destruct (_ && _).
Qed.

Lemma suggestCellReplacement_cell e f :
  from e = Some f -> type (pointee f) <> "net" ->
  suggestCellReplacement (Some e) =
    "replace " ++ name (pointee f) ++ " with " ++
    faster_variant (name (pointee f)).
Proof.
  intros Hf Hty. unfold suggestCellReplacement. destruct e as [fr t d nd cd].
  cbn [from] in Hf. subst fr.
  by rewrite (proj2 (String.eqb_neq _ _) Hty).
Qed.

Lemma parsed_stage_advice (p : TimingPath) m e :
  getWorstStage p = (m, Some e) -> parsed_stage e ->
  exists f t, from e = Some f /\ to e = Some t /\
    optimizationSuggestion (analyzePath p) = parsed_advice f t.
Proof.
  intros Hw (f & t & d & He & Hfin & Hnet).
  destruct (getWorstStage_some _ _ _ Hw) as (Hm & Hpos & _).
  assert (from e = Some f /\ to e = Some t /\ delay e = d) as (Hf & Ht & Hd).
  { subst e. unfold stage_edge. by destruct (String.eqb _ _). }
  rewrite Hd in Hm, Hpos. subst m.
  pose proof (half_below d Hpos Hfin) as Hhalf.
  exists f, t. split; [done|]. split; [done|].
  rewrite (analyzePath_worst_stage _ _ _ f t Hw Hf Ht). unfold parsed_advice.
  destruct (String.eqb_spec (type (pointee f)) "net") as [Hty|Hty].
  - assert (netDelay e = d /\ cellDelay e = 0%float) as [-> ->].
    { subst e. unfold stage_edge.
      by rewrite (proj2 (String.eqb_eq _ _) Hty). }
    rewrite Hpos, Hhalf, (proj1 Hnet Hty). cbn [andb].
    unfold suggestPipelineInsertion. destruct e as [fr to' d' nd cd].
    cbn [from to] in Hf, Ht. by subst fr to'.
  - assert (netDelay e = 0%float /\ cellDelay e = d) as [-> ->].
    { subst e. unfold stage_edge.
      by rewrite (proj2 (String.eqb_neq _ _) Hty). }
    rewrite (ltb_asym _ _ Hpos), Hpos, Hhalf. cbn [andb].
    destruct (contains (name (pointee f)) "NET") eqn:Hcontains.
    + by destruct Hty; apply Hnet.
    + by apply suggestCellReplacement_cell.
Qed.

(** X9: parsing and analysing together: for a path that the parser
    produces, the advice is decided by the name of the source of its
    worst stage alone. When no stage has a positive delay there is no
    worst stage and the text is the insufficient-data one; otherwise the
    worst stage is a stage of the path, and the advice is a pipeline
    register between its two nodes when the name of its source contains
    ["NET"], and a replacement of the source cell by its faster variant
    when it does not. Neither the fan-out advice nor the advice to use a
    faster cell library is given for such a path. *)
Theorem parsed_path_advice (lines : list string) (this : TimingParser)
    (paths : list TimingPath) (this' : TimingParser) (p : TimingPath) :
  consistent this -> well_typed this ->
  parseFile lines this = Some (paths, this') -> p ∈ paths ->
  match worstStage (analyzePath p) with
  | None => optimizationSuggestion (analyzePath p) = insufficient_data
  | Some e =>
      Some e ∈ edges p /\
      exists f t, from e = Some f /\ to e = Some t /\
        optimizationSuggestion (analyzePath p) = parsed_advice f t
  end.
Proof.
  intros Hc Hwt Hrun Hp.
  destruct (parseFile_keeps (fun s => consistent s /\ well_typed s)
              parsed_stage) with (lines := lines) (this := this)
              (paths := paths) (this' := this') as [_ Hedges];
    [|done|done|].
  { intros line s r s' [Hcs Hwts] Hstage.
    destruct (parsePathStage_invariants _ _ _ _ Hstage) as (Hw & _ & _).
    destruct (parsePathStage_spec _ _ _ _ Hstage) as (_ & Hcons & _).
    split; [split; auto|]. intros e ->.
    by eapply parsePathStage_parsed_stage. }
  rewrite analyzePath_worstStage.
  destruct (getWorstStage p) as [m [e|]] eqn:Hw; cbn [snd].
  - destruct (getWorstStage_some _ _ _ Hw) as (_ & _ & i & Hi & _).
    assert (Some e ∈ edges p) as He by (by eapply list_elem_of_lookup_2).
    split; [done|]. eapply parsed_stage_advice; [done|]. by eapply Hedges.
  - apply analyzePath_insufficient. left. by rewrite Hw.
Qed.

(** Scenario A: the worst stage is the second one, from [NET1] to
    [INV1]. *)
Lemma parsed_path_advice_witness :
  consistent TimingParser_new /\ well_typed TimingParser_new /\
  exists p this',
    parseFile scenario_a TimingParser_new = Some ([p], this') /\
    optimizationSuggestion (analyzePath p)
    = "insert pipeline register between NET1 â†’ INV1".
Proof.
  split; [apply consistent_new|]. split; [apply well_typed_new|].
  destruct (parseFile scenario_a TimingParser_new)
    as [[paths this']|] eqn:Hrun; [|vm_compute in Hrun; discriminate].
  assert (exists p, paths = [p]) as [p ->].
  { vm_compute in Hrun. injection Hrun as <- _. by eexists. }
  exists p, this'. split; [reflexivity|].
  pose proof (parsed_path_advice scenario_a TimingParser_new [p] this' p
                consistent_new well_typed_new Hrun (list_elem_of_here _ _))
    as Hadvice.
  vm_compute in Hrun. injection Hrun as <- _.
  destruct (worstStage (analyzePath _)) as [e|] eqn:Hworst;
    [|vm_compute in Hworst; discriminate].
  destruct Hadvice as (_ & f & t & Hf & Ht & ->).
  vm_compute in Hworst. injection Hworst as <-.
  injection Hf as <-. injection Ht as <-. reflexivity.
Defined.

(** ** The tokens that the patterns capture *)

Lemma append_assoc (a b c : string) : (a ++ b) ++ c = a ++ (b ++ c).
Proof.
  induction a as [|x a IH]; [reflexivity|].
  by rewrite !append_cons, IH.
Qed.

Lemma length_append (a b : string) :
  String.length (a ++ b) = String.length a + String.length b.
Proof.
  induction a as [|x a IH]; [reflexivity|].
  rewrite append_cons. cbn [String.length]. by rewrite IH.
Qed.

Lemma substring_append (w s : string) :
  String.substring 0 (String.length w) (w ++ s) = w.
Proof.
  induction w as [|x w IH].
  - by destruct s.
  - rewrite append_cons. cbn [String.length String.substring]. by rewrite IH.
Qed.

Lemma consumed_append (w s : string) : consumed (w ++ s) s = w.
Proof.
  unfold consumed. rewrite length_append.
  replace (String.length w + String.length s - String.length s)
    with (String.length w) by lia.
  apply substring_append.
Qed.

Lemma plus_bt_sound {R : Type} p (k : string -> option R) res : forall s,
  plus_bt p s k = Some res ->
  exists w s', s = w ++ s' /\ word_of p w /\ k s' = Some res.
Proof.
  induction s as [|c s IH]; [discriminate|]. cbn [plus_bt].
  destruct (p c) eqn:Hc; [|discriminate].
  destruct (plus_bt p s k) as [res'|] eqn:Hlonger.
  - intros [= ->]. destruct (IH eq_refl) as (w & s' & -> & [_ Hw] & Hk).
    exists (String c w), s'. split; [by rewrite append_cons|].
    split; [|done]. split; [done|]. by constructor.
  - intros Hk. exists (String c EmptyString), s. split; [reflexivity|].
    split; [|done]. split; [done|]. by repeat constructor.
Qed.

(** Whatever the matcher reports is a match: the continuation was called
    on what follows a word that the pattern matches, with the groups of
    that match added to the list. *)
Lemma bt_sound {R : Type} (r : regex) :
  forall s caps (k : string -> list string -> option R) res,
    bt r s caps k = Some res ->
    exists w s' new, s = w ++ s' /\ matches r w new /\
      k s' (caps ++ new)%list = Some res.
Proof.
  induction r as [p|p|r1 IH1 r2 IH2|r IH]; intros s caps k res; cbn [bt].
  - destruct s as [|c s]; [discriminate|].
    destruct (p c) eqn:Hc; [|discriminate]. intros Hk.
    exists (String c EmptyString), s, []. split; [reflexivity|].
    split; [by constructor|]. by rewrite app_nil_r.
  - intros Hrun. apply plus_bt_sound in Hrun as (w & s' & -> & Hw & Hk).
    exists w, s', []. split; [done|]. split; [by constructor|].
    by rewrite app_nil_r.
  - intros Hrun.
    apply IH1 in Hrun as (w1 & s1 & new1 & -> & Hm1 & Hrun).
    apply IH2 in Hrun as (w2 & s2 & new2 & -> & Hm2 & Hk).
    exists (w1 ++ w2), s2, (new1 ++ new2)%list.
    split; [by rewrite append_assoc|]. split; [by constructor|].
    by rewrite app_assoc.
  - intros Hrun. apply IH in Hrun as (w & s' & new & -> & Hm & Hk).
    rewrite consumed_append in Hk.
    exists w, s', (new ++ [w])%list. split; [done|].
    split; [by constructor|]. by rewrite app_assoc.
Qed.

Lemma regex_search_sound (r : regex) caps : forall s,
  regex_search r s = Some caps ->
  exists pre w post, s = pre ++ w ++ post /\ matches r w caps.
Proof.
  assert (forall s, bt r s [] (fun _ caps => Some caps) = Some caps ->
            exists pre w post, s = pre ++ w ++ post /\ matches r w caps)
    as Hhere.
  { intros s Hrun.
    apply bt_sound in Hrun as (w & s' & new & -> & Hm & [= <-]).
    by exists EmptyString, w, s'. }
  induction s as [|c s IH]; cbn [regex_search].
  - destruct (bt r EmptyString [] _) as [caps'|] eqn:Hrun; [|discriminate].
    intros [= ->]. by apply Hhere.
  - destruct (bt r (String c s) [] _) as [caps'|] eqn:Hrun.
    + intros [= ->]. by apply Hhere.
    + intros Hlater. destruct (IH Hlater) as (pre & w & post & -> & Hm).
      by exists (String c pre), w, post.
Qed.

Ltac invert_matches :=
  repeat match goal with
  | H : matches (Seq _ _) _ _ |- _ => inversion H; subst; clear H
  | H : matches (Group _) _ _ |- _ => inversion H; subst; clear H
  | H : matches (Plus _) _ _ |- _ => inversion H; subst; clear H
  | H : matches (One _) _ _ |- _ => inversion H; subst; clear H
  end.

Lemma headerPattern_captures w caps :
  matches headerPattern w caps ->
  exists id endpoint startpoint delayText,
    caps = [id; endpoint; startpoint; delayText] /\
    token id /\ token endpoint /\ token startpoint /\
    word_of digit_or_dot delayText.
Proof.
  unfold headerPattern, literal. cbn [list_ascii_of_string fold_right].
  intros Hm. invert_matches. cbn [app]. do 4 eexists. by split.
Qed.

Lemma stagePattern_captures w caps :
  matches stagePattern w caps ->
  exists stageId toName fromName delayText,
    caps = [stageId; toName; fromName; delayText] /\
    token toName /\ token fromName /\ word_of digit_or_dot delayText.
Proof.
  unfold stagePattern. intros Hm. invert_matches. cbn [app].
  do 4 eexists. by split.
Qed.

Lemma parsePathHeader_tokens line id startpoint endpoint delay :
  parsePathHeader line = Ok (id, startpoint, endpoint, delay) ->
  token id /\ token startpoint /\ token endpoint.
Proof.
  unfold parsePathHeader.
  destruct (regex_search headerPattern line) as [caps|] eqn:Hsearch;
    [|discriminate].
  apply regex_search_sound in Hsearch as (pre & w & post & _ & Hm).
  apply headerPattern_captures in Hm
    as (id' & ep & sp & text & -> & Hid & Hep & Hsp & _).
  destruct (stod text); [|discriminate]. by intros [= <- <- <- <-].
Qed.

Lemma parsePathStage_tokens line this e this' :
  parsePathStage line this = (Ok (Some e), this') -> consistent this ->
  exists f t, from e = Some f /\ to e = Some t /\
    token (name (pointee f)) /\ token (name (pointee t)).
Proof.
  intros Hrun Hc.
  destruct (parsePathStage_edge _ _ _ _ Hrun)
    as (stageId & toName & fromName & delayText & d & f & t & this1
        & Hsearch & _ & Hf & Ht & ->).
  apply regex_search_sound in Hsearch as (pre & w & post & _ & Hm).
  apply stagePattern_captures in Hm
    as (? & ? & ? & ? & [= <- <- <- <-] & Hto & Hfrom & _).
  apply fromNode_of_spec in Hf as (_ & _ & Hc1).
  destruct (Hc1 Hc) as [Hc' <-].
  apply toNode_of_spec in Ht as (_ & _ & Hc2).
  destruct (Hc2 Hc') as [_ <-].
  exists f, t. unfold stage_edge.
  by destruct (String.eqb _ _).
Qed.

(** X10: whatever the report holds, the names that the parser hands on are
    tokens: the id, the startpoint and the endpoint of every path, and
    the names of both nodes of every edge, are not empty and contain no
    white space. *)
Theorem parsed_names_are_tokens (lines : list string) (this : TimingParser)
    (paths : list TimingPath) (this' : TimingParser) (p : TimingPath) :
  consistent this ->
  parseFile lines this = Some (paths, this') -> p ∈ paths ->
  token (id p) /\ token (startpoint p) /\ token (endpoint p) /\
  forall e, Some e ∈ edges p ->
    exists f t, from e = Some f /\ to e = Some t /\
      token (name (pointee f)) /\ token (name (pointee t)).
Proof.
  intros Hc Hrun Hp.
  assert (token (id p) /\ token (startpoint p) /\ token (endpoint p))
    as (Hid & Hsp & Hep).
  { destruct (parseFile_spec lines this)
      as (paths0 & this0 & Hrun0 & Hheaders & _).
    rewrite Hrun in Hrun0. injection Hrun0 as <- <-.
    assert (header_of p ∈ well_formed_headers lines) as Hheader
      by (rewrite <- Hheaders; by apply list_elem_of_fmap_2).
    apply list_elem_of_omap in Hheader as (line & _ & Hline).
    unfold well_formed_header in Hline.
    destruct (starts_with line "Path "); [|discriminate].
    destruct (parsePathHeader line) as [h|what] eqn:Hh; [|discriminate].
    injection Hline as ->. by apply parsePathHeader_tokens in Hh. }
  split; [done|]. split; [done|]. split; [done|]. intros e He.
  destruct (parseFile_keeps consistent
              (fun e => exists f t, from e = Some f /\ to e = Some t /\
                 token (name (pointee f)) /\ token (name (pointee t))))
    with (lines := lines) (this := this) (paths := paths) (this' := this')
    as [_ Hedges]; [|done|done|by eapply Hedges].
  intros line s r s' Hcs Hstage.
  destruct (parsePathStage_spec _ _ _ _ Hstage) as (_ & Hcons & _).
  split; [auto|]. intros e' ->. by eapply parsePathStage_tokens.
Qed.

(** Scenario A: the path [P1] from [PI] to [FF_Q]. *)
Lemma parsed_names_are_tokens_witness :
  consistent TimingParser_new /\
  exists p this',
    parseFile scenario_a TimingParser_new = Some ([p], this') /\
    id p = "P1" /\ token (id p).
Proof.
  split; [apply consistent_new|].
  destruct (parseFile scenario_a TimingParser_new)
    as [[paths this']|] eqn:Hrun; [|vm_compute in Hrun; discriminate].
  assert (exists p, paths = [p] /\ id p = "P1") as (p & -> & Hid).
  { vm_compute in Hrun. injection Hrun as <- _. by eexists. }
  exists p, this'. split; [reflexivity|]. split; [exact Hid|].
  exact (proj1 (parsed_names_are_tokens scenario_a TimingParser_new [p] this'
                  p consistent_new Hrun (list_elem_of_here _ _))).
Defined.

(** ** The command line *)

Lemma stoi_int s n : stoi s = Ok n -> (INT_MIN <= n <= INT_MAX)%Z.
Proof.
  unfold stoi.
  destruct (match skip_space s with
            | String "-" s' => (true, s')
            | String "+" s' => (false, s')
            | _ => (false, skip_space s)
            end) as [negative s2].
  destruct (fst (span_digits s2)) as [|d ds]; [discriminate|].
  destruct (_ && _) eqn:Hrange; [|discriminate]. intros [= <-].
  apply andb_true_iff in Hrange as [Hmin Hmax]. lia.
Qed.

Lemma is_flag_spec arg short long :
  is_flag arg short long = true <-> arg = short \/ arg = long.
Proof.
  unfold is_flag. rewrite orb_true_iff, !String.eqb_eq. tauto.
Qed.

Lemma given_here flag value rest short long :
  is_flag flag short long = true ->
  given (flag :: value :: rest) short long value.
Proof. intros Hflag. by exists 0, flag. Qed.

Lemma given_later flag value rest short long v :
  given rest short long v -> given (flag :: value :: rest) short long v.
Proof.
  intros (i & flag' & Hi & Hflag & Hv). exists (S i), flag'.
  replace (2 * S i) with (S (S (2 * i))) by lia. by repeat split.
Qed.

Lemma flags_later flag value (rest : list string) :
  flag ∈ value_flags ->
  (forall i arg, rest !! (2 * i) = Some arg -> arg ∈ value_flags) ->
  forall i arg, (flag :: value :: rest) !! (2 * i) = Some arg ->
    arg ∈ value_flags.
Proof.
  intros Hflag Hrest [|i] arg.
  - by intros [= <-].
  - replace (2 * S i) with (S (S (2 * i))) by lia. apply Hrest.
Qed.

Lemma parse_arguments_app_accepted : forall n a o o1 b,
  length a <= n -> parse_arguments a o = Accepted o1 ->
  parse_arguments (a ++ b)%list o = parse_arguments b o1.
Proof.
  induction n as [|n IH]; intros [|arg [|value rest]] o o1 b Hn;
    cbn [length] in Hn; try lia; cbn [parse_arguments app].
  - by intros [= ->].
  - by intros [= ->].
  - by destruct (is_flag arg "-h" "--help").
  - destruct (is_flag arg "-h" "--help"); [discriminate|].
    destruct (is_flag arg "-f" "--file"); [apply IH; lia|].
    destruct (is_flag arg "-d" "--dir"); [apply IH; lia|].
    destruct (is_flag arg "-o" "--output"); [apply IH; lia|].
    destruct (is_flag arg "-k" "--topk"); [|discriminate].
    destruct (stoi value); [apply IH; lia|discriminate].
Qed.

Lemma parse_arguments_accepted : forall n args o o',
  length args <= n -> parse_arguments args o = Accepted o' ->
  Nat.Even (length args) /\
  (forall i arg, args !! (2 * i) = Some arg -> arg ∈ value_flags) /\
  (inputFile o' = inputFile o \/ given args "-f" "--file" (inputFile o')) /\
  (inputDir o' = inputDir o \/ given args "-d" "--dir" (inputDir o')) /\
  (outputFile o' = outputFile o \/
   given args "-o" "--output" (outputFile o')) /\
  (topK o' = topK o \/
   exists text, given args "-k" "--topk" text /\ stoi text = Ok (topK o')).
Proof.
  induction n as [|n IH]; intros [|arg [|value rest]] o o' Hn;
    cbn [length] in Hn; try lia; cbn [parse_arguments].
  - intros [= ->]. split; [by exists 0|]. split; [by intros i arg|]. auto.
  - intros [= ->]. split; [by exists 0|]. split; [by intros i arg|]. auto.
  - by destruct (is_flag arg "-h" "--help").
  - destruct (is_flag arg "-h" "--help"); [discriminate|].
    assert (Nat.Even (length rest) -> Nat.Even (length (arg :: value :: rest)))
      as Heven.
    { intros [h Hh]. exists (S h). cbn [length]. lia. }
    destruct (is_flag arg "-f" "--file") eqn:Hf;
      [|destruct (is_flag arg "-d" "--dir") eqn:Hd;
        [|destruct (is_flag arg "-o" "--output") eqn:Ho;
          [|destruct (is_flag arg "-k" "--topk") eqn:Hk; [|discriminate];
            destruct (stoi value) as [k|what] eqn:Hstoi; [|discriminate]]]];
      intros Hrun;
      apply IH in Hrun as (Hlen & Hflags & Hfile & Hdir & Hout & Htop);
      try lia; cbn [inputFile inputDir outputFile topK] in *;
      (split; [by apply Heven|]);
      (split;
       [apply flags_later; [|done];
        match goal with
        | H : is_flag arg _ _ = true |- _ =>
            apply is_flag_spec in H as [-> | ->]; unfold value_flags;
            rewrite !elem_of_cons; auto 10
        end|]).
    + split; [right; destruct Hfile as [->|Hfile];
                [by apply given_here|by apply given_later]|].
      split; [destruct Hdir; [by left|right; by apply given_later]|].
      split; [destruct Hout; [by left|right; by apply given_later]|].
      destruct Htop as [|(text & Htext & Hvalue)]; [by left|].
      right. exists text. split; [by apply given_later|done].
    + split; [destruct Hfile; [by left|right; by apply given_later]|].
      split; [right; destruct Hdir as [->|Hdir];
                [by apply given_here|by apply given_later]|].
      split; [destruct Hout; [by left|right; by apply given_later]|].
      destruct Htop as [|(text & Htext & Hvalue)]; [by left|].
      right. exists text. split; [by apply given_later|done].
    + split; [destruct Hfile; [by left|right; by apply given_later]|].
      split; [destruct Hdir; [by left|right; by apply given_later]|].
      split; [right; destruct Hout as [->|Hout];
                [by apply given_here|by apply given_later]|].
      destruct Htop as [|(text & Htext & Hvalue)]; [by left|].
      right. exists text. split; [by apply given_later|done].
    + split; [destruct Hfile; [by left|right; by apply given_later]|].
      split; [destruct Hdir; [by left|right; by apply given_later]|].
      split; [destruct Hout; [by left|right; by apply given_later]|].
      right. destruct Htop as [Hsame|(text & Htext & Hvalue)].
      * exists value. split; [by apply given_here|]. by rewrite Hsame.
      * exists text. split; [by apply given_later|done].
Qed.

Lemma parse_arguments_uncaught : forall n args o what,
  length args <= n -> parse_arguments args o = Uncaught what ->
  exists text, given args "-k" "--topk" text /\ stoi text = Throw what.
Proof.
  induction n as [|n IH]; intros [|arg [|value rest]] o what Hn;
    cbn [length] in Hn; try lia; cbn [parse_arguments]; try discriminate.
  - by destruct (is_flag arg "-h" "--help").
  - destruct (is_flag arg "-h" "--help"); [discriminate|].
    assert (forall o, parse_arguments rest o = Uncaught what ->
              exists text, given (arg :: value :: rest) "-k" "--topk" text /\
                stoi text = Throw what) as Hlater.
    { intros o2 Hrun. apply IH in Hrun as (text & Htext & Hthrow); [|lia].
      exists text. split; [by apply given_later|done]. }
    destruct (is_flag arg "-f" "--file"); [by apply Hlater|].
    destruct (is_flag arg "-d" "--dir"); [by apply Hlater|].
    destruct (is_flag arg "-o" "--output"); [by apply Hlater|].
    destruct (is_flag arg "-k" "--topk") eqn:Hk; [|discriminate].
    destruct (stoi value) as [k|what'] eqn:Hstoi; [by apply Hlater|].
    intros [= ->]. exists value. split; [by apply given_here|done].
Qed.

(** X11: the arguments are read in turn: once the loop has accepted the
    arguments [a], the arguments [b] that follow are read as they would
    be on their own, starting from the options that [a] has set. So a
    flag that is given twice keeps its last value, and a request for
    help or an unknown argument in [b] still ends the run. *)
Theorem parse_arguments_app (a b : list string) (o o1 : Options) :
  parse_arguments a o = Accepted o1 ->
  parse_arguments (a ++ b)%list o = parse_arguments b o1.
Proof. by apply (parse_arguments_app_accepted (length a)). Qed.

Lemma parse_arguments_app_witness :
  parse_arguments ["-f"; "a.rpt"; "-k"; "3"] default_options
    = Accepted {| inputFile := "a.rpt"; inputDir := EmptyString;
                  outputFile := EmptyString; topK := 3 |} /\
  parse_arguments (["-f"; "a.rpt"; "-k"; "3"] ++ ["--file"; "b.rpt"])%list
      default_options
    = Accepted {| inputFile := "b.rpt"; inputDir := EmptyString;
                  outputFile := EmptyString; topK := 3 |}.
Proof.
  assert (parse_arguments ["-f"; "a.rpt"; "-k"; "3"] default_options
          = Accepted {| inputFile := "a.rpt"; inputDir := EmptyString;
                        outputFile := EmptyString; topK := 3 |}) as Hfirst
    by reflexivity.
  split; [exact Hfirst|].
  rewrite (parse_arguments_app _ ["--file"; "b.rpt"] _ _ Hfirst).
  reflexivity.
Defined.

(** X12: [main] reads only what the command line names. When it goes on to
    read a report, the file is not the empty string and is a value given
    to [-f] or [--file]; when it goes on to read a directory, no file is
    left set, and the directory is not the empty string and is a value
    given to [-d] or [--dir]. In both cases the arguments are pairs of a
    known flag and its value, and the number of paths asked for is the
    default or a value of [-k] or [--topk] that is an [int]. *)
Theorem main_reads_what_is_given (args : list string) :
  match main args with
  | ProcessFile file output k =>
      file <> EmptyString /\ given args "-f" "--file" file /\
      accepted_command_line args output k
  | ProcessDirectory dir output k =>
      dir <> EmptyString /\ given args "-d" "--dir" dir /\
      accepted_command_line args output k
  | Return _ | Terminate _ => True
  end.
Proof.
  unfold main.
  destruct (parse_arguments args default_options) as [|arg|what|o] eqn:Hrun;
    try done.
  apply (parse_arguments_accepted (length args)) in Hrun
    as (Hlen & Hflags & Hfile & Hdir & Hout & Htop); [|done].
  cbn [inputFile inputDir outputFile topK default_options] in *.
  assert (accepted_command_line args (outputFile o) (topK o)) as Hshape.
  { split; [done|]. split; [done|]. split; [done|].
    destruct Htop as [->|(text & Htext & Hvalue)].
    - split; [done|]. by left.
    - split; [by eapply stoi_int|]. right. by exists text. }
  destruct (String.eqb_spec (inputFile o) EmptyString) as [Hnofile|Hfile'];
    cbn [andb negb].
  - destruct (String.eqb_spec (inputDir o) EmptyString) as [Hnodir|Hdir'];
      [done|].
    split; [done|]. split; [|done]. by destruct Hdir.
  - split; [done|]. split; [|done]. by destruct Hfile.
Qed.

(** X13: before any report is read, the only exception that ends the run is
    the one that [std::stoi] throws for the value of [-k] or [--topk]:
    [main] calls it outside its [try] block. *)
Theorem main_terminate (args : list string) (what : string) :
  main args = Terminate what ->
  exists text, given args "-k" "--topk" text /\ stoi text = Throw what.
Proof.
  unfold main.
  destruct (parse_arguments args default_options) as [|arg|what'|o] eqn:Hrun;
    try discriminate.
  - intros [= ->]. by apply (parse_arguments_uncaught (length args)) in Hrun.
  - destruct (_ && _); [discriminate|]. by destruct (negb _).
Qed.

Lemma main_terminate_witness :
  main ["-f"; "a.rpt"; "-k"; "ten"] = Terminate "stoi" /\
  exists text,
    given ["-f"; "a.rpt"; "-k"; "ten"] "-k" "--topk" text /\
    stoi text = Throw "stoi".
Proof.
  assert (main ["-f"; "a.rpt"; "-k"; "ten"] = Terminate "stoi") as Hrun
    by reflexivity.
  split; [exact Hrun|]. exact (main_terminate _ _ Hrun).
Defined.

(** ** The reports of a directory *)

Lemma starts_a_section_concat (reports : list (list string)) :
  Forall starts_a_section reports -> starts_a_section (concat reports).
Proof.
  induction 1 as [|lines reports Hlines _ IH]; [done|].
  cbn [concat]. by destruct lines.
Qed.

Lemma parse_reports_spec : forall reports allPaths this,
  Forall starts_a_section (tail reports) ->
  exists paths this',
    parseFile (concat reports) this = Some (paths, this') /\
    parse_reports reports allPaths this
      = Some ((allPaths ++ paths)%list, this').
Proof.
  induction reports as [|lines reports IH]; intros allPaths this Hstart.
  - exists [], this. split; [reflexivity|]. cbn [parse_reports].
    by rewrite app_nil_r.
  - cbn [tail] in Hstart. cbn [concat parse_reports].
    destruct (parseFile_spec lines this) as (paths1 & this1 & Hrun1 & _).
    rewrite Hrun1.
    destruct (IH (allPaths ++ paths1)%list this1)
      as (paths2 & this2 & Hrun2 & Hloop).
    { destruct Hstart; [constructor|done]. }
    exists (paths1 ++ paths2)%list, this2. split.
    + apply (parseFile_append _ _ _ this1); [|done|done].
      by apply starts_a_section_concat.
    + by rewrite Hloop, app_assoc.
Qed.

(** X14: reading the reports of a directory with one parser gives the paths,
    and leaves the node cache, that reading the reports as one file
    gives, when every report after the first is empty or starts with a
    line that ends a section (a header line, for one). *)
Theorem parse_reports_concat (reports : list (list string))
    (this : TimingParser) :
  Forall starts_a_section (tail reports) ->
  parse_reports reports [] this = parseFile (concat reports) this.
Proof.
  intros Hstart.
  destruct (parse_reports_spec reports [] this Hstart)
    as (paths & this' & -> & ->). reflexivity.
Qed.

(** The two sections of [two_sections], as the two reports of a
    directory. *)
Lemma parse_reports_concat_witness :
  Forall starts_a_section (tail [take 3 two_sections; drop 3 two_sections]) /\
  parse_reports [take 3 two_sections; drop 3 two_sections] []
      TimingParser_new
    = parseFile two_sections TimingParser_new.
Proof.
  assert (Forall starts_a_section
            (tail [take 3 two_sections; drop 3 two_sections])) as Hstart
    by (by repeat constructor).
  split; [exact Hstart|].
  exact (parse_reports_concat _ TimingParser_new Hstart).
Defined.

(** ** From the report to the critical paths *)

Lemma parsePathHeader_finite line id startpoint endpoint delay :
  parsePathHeader line = Ok (id, startpoint, endpoint, delay) ->
  is_finite delay = true.
Proof.
  unfold parsePathHeader.
  destruct (regex_search headerPattern line)
    as [[|? [|? [|? [|text [|? ?]]]]]|]; try discriminate.
  destruct (stod text) as [d|what] eqn:Hd; [|discriminate].
  intros [= <- <- <- <-]. by eapply stod_finite.
Qed.

(** X15: the total delay of every path that the parser produces is a finite
    double, so the paths of a report meet the requirement of [std::sort]
    whatever the report holds, and [findCriticalPaths] has a result for
    them: a header with a delay that [std::stod] does not turn into a
    finite double gives no path. *)
Theorem parsed_paths_are_ranked (lines : list string) (this : TimingParser)
    (paths : list TimingPath) (this' : TimingParser) (topK : Z) :
  parseFile lines this = Some (paths, this') ->
  (forall p, p ∈ paths -> is_finite (totalDelay p) = true) /\
  exists criticalPaths, findCriticalPaths paths topK criticalPaths.
Proof.
  intros Hrun.
  assert (forall p, p ∈ paths -> is_finite (totalDelay p) = true) as Hfinite.
  { intros p Hp.
    destruct (parseFile_spec lines this)
      as (paths0 & this0 & Hrun0 & Hheaders & _).
    rewrite Hrun in Hrun0. injection Hrun0 as <- <-.
    assert (header_of p ∈ well_formed_headers lines) as Hheader
      by (rewrite <- Hheaders; by apply list_elem_of_fmap_2).
    apply list_elem_of_omap in Hheader as (line & _ & Hline).
    unfold well_formed_header in Hline.
    destruct (starts_with line "Path "); [|discriminate].
    destruct (parsePathHeader line) as [h|what] eqn:Hh; [|discriminate].
    injection Hline as ->. by apply parsePathHeader_finite in Hh. }
  split; [done|]. apply findCriticalPaths_returns.
  apply Forall_forall. intros p Hp. by apply F64.is_finite_ordered, Hfinite.
Qed.

(** The report of scenario A has one path, of total delay [2.345]. *)
Lemma parsed_paths_are_ranked_witness :
  exists p this',
    parseFile scenario_a TimingParser_new = Some ([p], this') /\
    is_finite (totalDelay p) = true.
Proof.
  destruct (parseFile scenario_a TimingParser_new)
    as [[paths this']|] eqn:Hrun; [|vm_compute in Hrun; discriminate].
  assert (exists p, paths = [p]) as [p ->].
  { vm_compute in Hrun. injection Hrun as <- _. by eexists. }
  exists p, this'. split; [reflexivity|].
  exact (proj1 (parsed_paths_are_ranked scenario_a TimingParser_new [p] this'
                  1 Hrun) p (list_elem_of_here _ _)).
Defined.

(** ** Header lines in the format of a report *)

Example stod_tiny :
  stod ("0." ++ zeros 307 ++ "22250738585072012") = Throw "stod".
Proof. vm_compute. reflexivity. Qed.

Example stod_least_normal :
  stod ("0." ++ zeros 307 ++ "22250738585072014")
  = Ok 0x1p-1022%float.
Proof. vm_compute. reflexivity. Qed.

Lemma append_empty_r (s : string) : s ++ EmptyString = s.
Proof. induction s as [|c s IH]; [done|]. by rewrite append_cons, IH. Qed.

Lemma list_ascii_of_string_append (a b : string) :
  list_ascii_of_string (a ++ b)
  = (list_ascii_of_string a ++ list_ascii_of_string b)%list.
Proof.
  induction a as [|c a IH]; [done|].
  rewrite append_cons. cbn [list_ascii_of_string app]. by rewrite IH.
Qed.

Lemma word_of_starts_outside p q w rest :
  word_of q w -> (forall c, q c = true -> p c = false) ->
  starts_outside p (w ++ rest).
Proof.
  intros [Hne Hall] Hpq. destruct w as [|c w]; [done|].
  rewrite append_cons. apply Hpq. by apply Forall_cons in Hall as [Hc _].
Qed.

(** A greedy [p+] in front of a word of [p] takes the whole word when
    what follows the word starts outside [p] and the rest of the pattern
    matches there. *)
Lemma plus_bt_greedy {R : Type} p (k : string -> option R) res s' :
  starts_outside p s' -> k s' = Some res ->
  forall w, word_of p w -> plus_bt p (w ++ s') k = Some res.
Proof.
  intros Hout Hk.
  assert (plus_bt p s' k = None) as Hstop.
  { destruct s' as [|c s']; [done|]. cbn [plus_bt]. cbn in Hout.
    by rewrite Hout. }
  induction w as [|c w IH]; intros [Hne Hall]; [done|].
  apply Forall_cons in Hall as [Hc Hall].
  rewrite append_cons. cbn [plus_bt]. rewrite Hc.
  destruct w as [|c' w].
  - change (EmptyString ++ s') with s'. by rewrite Hstop.
  - by rewrite IH.
Qed.

Lemma bt_plus_greedy {R : Type} p r w s' caps
    (k : string -> list string -> option R) res :
  word_of p w -> starts_outside p s' ->
  bt r s' caps k = Some res ->
  bt (Seq (Plus p) r) (w ++ s') caps k = Some res.
Proof. intros Hw Hout Hrest. cbn [bt]. by apply plus_bt_greedy. Qed.

Lemma bt_group_greedy {R : Type} p r w s' caps
    (k : string -> list string -> option R) res :
  word_of p w -> starts_outside p s' ->
  bt r s' (caps ++ [w])%list k = Some res ->
  bt (Seq (Group (Plus p)) r) (w ++ s') caps k = Some res.
Proof.
  intros Hw Hout Hrest. cbn [bt]. apply plus_bt_greedy; [done| |done].
  by rewrite consumed_append.
Qed.

Lemma bt_last_group {R : Type} p w caps
    (k : string -> list string -> option R) res :
  word_of p w -> k EmptyString (caps ++ [w])%list = Some res ->
  bt (Group (Plus p)) w caps k = Some res.
Proof.
  intros Hw Hk. cbn [bt].
  assert (consumed w EmptyString = w) as Hall.
  { rewrite <- (append_empty_r w) at 1. apply consumed_append. }
  rewrite <- (append_empty_r w) at 1.
  apply plus_bt_greedy; [done| |done]. by rewrite Hall.
Qed.

Lemma bt_literal_Path {R : Type} r rest caps
    (k : string -> list string -> option R) :
  bt (literal "Path" r) ("Path" ++ rest) caps k = bt r rest caps k.
Proof. reflexivity. Qed.

Lemma regex_search_here r s caps :
  bt r s [] (fun _ caps => Some caps) = Some caps ->
  regex_search r s = Some caps.
Proof. intros Hrun. destruct s; cbn [regex_search]; by rewrite Hrun. Qed.

Lemma nonspace_isspace c : nonspace c = true -> isspace c = false.
Proof. unfold nonspace. by destruct (isspace c). Qed.

Lemma isspace_nonspace c : isspace c = true -> nonspace c = false.
Proof. unfold nonspace. by intros ->. Qed.

Lemma isdigit_digit_or_dot c : isdigit c = true -> digit_or_dot c = true.
Proof. unfold digit_or_dot. by intros ->. Qed.

Lemma digit_or_dot_isspace c : digit_or_dot c = true -> isspace c = false.
Proof.
  destruct c as [[] [] [] [] [] [] [] []]; vm_compute; congruence.
Qed.

Lemma decimal_word text : decimal text -> word_of digit_or_dot text.
Proof.
  intros (int & frac & Hint & Hfrac & Hne & Htext).
  assert (Forall (fun c => digit_or_dot c = true) (list_ascii_of_string int))
    as Hint' by (eapply Forall_impl; [done|apply isdigit_digit_or_dot]).
  assert (Forall (fun c => digit_or_dot c = true) (list_ascii_of_string frac))
    as Hfrac' by (eapply Forall_impl; [done|apply isdigit_digit_or_dot]).
  destruct Htext as [->|[-> ->]].
  - split.
    + destruct int; [done|]. by rewrite append_cons.
    + rewrite !list_ascii_of_string_append. apply Forall_app. split; [done|].
      apply Forall_app. split; [by repeat constructor|done].
  - split; [|done]. by rewrite append_empty_r in Hne.
Qed.

(** A line in the header format matches the pattern of the parser at its
    start, every group taking its token. *)
Lemma header_format_search line id endpoint startpoint totalDelay :
  header_format line id endpoint startpoint totalDelay ->
  regex_search headerPattern line
  = Some [id; endpoint; startpoint; totalDelay].
Proof.
  intros (ws1 & ws2 & ws3 & ws4 & -> & Hws1 & Hws2 & Hws3 & Hws4
          & Hid & Hep & Hsp & Hdelay).
  apply decimal_word in Hdelay.
  apply regex_search_here. unfold headerPattern.
  rewrite bt_literal_Path.
  apply bt_plus_greedy; [done| |].
  { eapply word_of_starts_outside; [exact Hid|apply nonspace_isspace]. }
  apply bt_group_greedy; [done| |].
  { eapply word_of_starts_outside; [exact Hws2|apply isspace_nonspace]. }
  apply bt_plus_greedy; [done| |].
  { eapply word_of_starts_outside; [exact Hep|apply nonspace_isspace]. }
  apply bt_group_greedy; [done| |].
  { eapply word_of_starts_outside; [exact Hws3|apply isspace_nonspace]. }
  apply bt_plus_greedy; [done| |].
  { eapply word_of_starts_outside; [exact Hsp|apply nonspace_isspace]. }
  apply bt_group_greedy; [done| |].
  { eapply word_of_starts_outside; [exact Hws4|apply isspace_nonspace]. }
  apply bt_plus_greedy; [done| |].
  { rewrite <- (append_empty_r totalDelay).
    eapply word_of_starts_outside; [exact Hdelay|apply digit_or_dot_isspace]. }
  by apply bt_last_group.
Qed.

Lemma valid_header_accepted line h :
  valid_header line h -> parsePathHeader line = Ok h.
Proof.
  destruct h as [[[id startpoint] endpoint] delay].
  intros (_ & totalDelay & Hformat & Hstod). unfold parsePathHeader.
  by rewrite (header_format_search _ _ _ _ _ Hformat), Hstod.
Qed.

Lemma valid_header_well_formed line h :
  valid_header line h -> well_formed_header line = Some h.
Proof.
  intros Hvalid. unfold well_formed_header.
  rewrite (valid_header_accepted _ _ Hvalid).
  destruct h as [[[id startpoint] endpoint] delay].
  by destruct Hvalid as [-> _].
Qed.

Lemma all_headers_valid lines : forall hs,
  Forall2 valid_header (header_lines lines) hs ->
  well_formed_headers lines = hs.
Proof.
  induction lines as [|line lines IH]; intros hs; cbn [header_lines List.filter].
  - by intros ->%Forall2_nil_inv_l.
  - rewrite well_formed_headers_cons.
    destruct (starts_with line "Path ") eqn:Hpath.
    + intros (h & hs' & Hh & Hrest & ->)%Forall2_cons_inv_l.
      rewrite (valid_header_well_formed _ _ Hh). f_equal. by apply IH.
    + unfold well_formed_header. rewrite Hpath. apply IH.
Qed.

Lemma some_headers_valid sub lines :
  sub `sublist_of` lines -> forall hs,
  Forall2 valid_header sub hs -> hs `sublist_of` well_formed_headers lines.
Proof.
  induction 1 as [|line sub lines _ IH|line sub lines _ IH]; intros hs.
  - intros ->%Forall2_nil_inv_l. constructor.
  - intros (h & hs' & Hh & Hrest & ->)%Forall2_cons_inv_l.
    rewrite well_formed_headers_cons, (valid_header_well_formed _ _ Hh).
    apply sublist_skip. by apply IH.
  - intros Hhs. rewrite well_formed_headers_cons.
    destruct (well_formed_header line); [apply sublist_cons|]; by apply IH.
Qed.

Lemma well_formed_headers_length lines :
  length (well_formed_headers lines) <= length (header_lines lines).
Proof.
  induction lines as [|line lines IH]; [done|].
  rewrite well_formed_headers_cons. cbn [header_lines List.filter].
  unfold well_formed_header.
  destruct (starts_with line "Path "); [|done].
  destruct (parsePathHeader line); cbn [length]; fold (header_lines lines);
    lia.
Qed.

(** The scan goes on behind a header that is not accepted as it does at
    the start of a report. *)
Lemma parseFile_rejected_header line lines this what :
  starts_with line "Path " = true -> parsePathHeader line = Throw what ->
  parseFile (line :: lines) this = parseFile lines this.
Proof.
  intros Hpath Hthrow. unfold parseFile. cbn [length parseFile_loop].
  change ((line :: lines) !! 0) with (Some line). cbn iota beta.
  rewrite Hpath, parsePath_spec.
  change ((line :: lines) !!! 0) with line. rewrite Hthrow.
  apply (parseFile_loop_shift [line] lines (length lines) 0).
Qed.

(** C5: the scan of a report never aborts. A line that starts with
    ["Path "], has the format [Path <id> <endpoint> <startpoint>
    <totalDelay>] and a delay that [std::stod] converts is accepted as
    the header of a path with these fields. So a report in which all [N]
    lines that start with ["Path "] are such headers gives exactly [N]
    paths, with the fields of these lines and in their order; in any
    report such headers give their paths, in the order of the lines,
    among at most as many paths as there are lines that start with
    ["Path "], and a report without such a line gives no path. A header
    that the parser rejects loses its block and nothing else: the report
    gives the paths of the lines in front of it followed by the paths of
    the lines behind it. *)
Theorem parseFile_one_path_per_header (lines : list string)
    (this : TimingParser) :
  exists paths this',
    parseFile lines this = Some (paths, this') /\
    (forall line h, valid_header line h -> parsePathHeader line = Ok h) /\
    (forall hs, Forall2 valid_header (header_lines lines) hs ->
       map header_of paths = hs /\ length paths = length (header_lines lines)) /\
    (forall sub hs, sub `sublist_of` lines -> Forall2 valid_header sub hs ->
       hs `sublist_of` map header_of paths) /\
    length paths <= length (header_lines lines) /\
    (header_lines lines = [] -> paths = []) /\
    (forall before line behind what,
       lines = (before ++ line :: behind)%list ->
       starts_with line "Path " = true ->
       parsePathHeader line = Throw what ->
       exists paths1 this1 paths2,
         parseFile before this = Some (paths1, this1) /\
         parseFile behind this1 = Some (paths2, this') /\
         paths = (paths1 ++ paths2)%list).
Proof.
  destruct (parseFile_spec lines this)
    as (paths & this' & Hrun & Hheaders & _).
  assert (length paths <= length (header_lines lines)) as Hlen.
  { rewrite <- (length_map header_of), Hheaders.
    apply well_formed_headers_length. }
  exists paths, this'. split; [done|].
  split; [apply valid_header_accepted|]. split; [|split; [|split; [|split]]].
  - intros hs Hvalid. rewrite Hheaders.
    split; [by apply all_headers_valid|].
    rewrite <- (length_map header_of), Hheaders,
      (all_headers_valid _ _ Hvalid).
    symmetry. by eapply Forall2_length.
  - intros sub hs Hsub Hvalid. rewrite Hheaders.
    by eapply some_headers_valid.
  - done.
  - intros Hnone. rewrite Hnone in Hlen.
    destruct paths; [done|cbn [length] in Hlen; lia].
  - intros before line behind what -> Hpath Hthrow.
    destruct (parseFile_spec before this) as (paths1 & this1 & Hrun1 & _).
    destruct (parseFile_spec behind this1) as (paths2 & this2 & Hrun2 & _).
    rewrite (parseFile_append before (line :: behind) this this1 this2
               paths1 paths2) in Hrun.
    + injection Hrun as <- <-. by exists paths1, this1, paths2.
    + by apply starts_with_ends_section.
    + done.
    + by rewrite (parseFile_rejected_header _ _ _ _ Hpath Hthrow).
Qed.

Ltac word_by_computation := split; [done|by repeat constructor].

Lemma two_sections_valid :
  Forall2 valid_header (header_lines two_sections)
    [("P1", "PI", "FF_Q", 2.345%float); ("P2", "PI2", "NAND1_Y", 3.21%float)].
Proof.
  repeat constructor.
  - exists "2.345". split; [|reflexivity].
    exists " ", " ", " ", " ". split; [reflexivity|].
    do 7 (split; [word_by_computation|]).
    exists "2", "345". split; [by repeat constructor|].
    split; [by repeat constructor|]. split; [done|]. by left.
  - exists "3.210". split; [|reflexivity].
    exists " ", " ", " ", " ". split; [reflexivity|].
    do 7 (split; [word_by_computation|]).
    exists "3", "210". split; [by repeat constructor|].
    split; [by repeat constructor|]. split; [done|]. by left.
Qed.

(** Both headers of [two_sections] are valid: two paths, with the fields
    of the two lines. In [broken_header] the header of [P9] misses its
    delay: the paths are those of the two lines in front of it and of the
    three lines behind it. *)
Lemma parseFile_one_path_per_header_witness :
  (exists paths this',
     parseFile two_sections TimingParser_new = Some (paths, this') /\
     map header_of paths
     = [("P1", "PI", "FF_Q", 2.345%float);
        ("P2", "PI2", "NAND1_Y", 3.21%float)] /\
     length paths = 2) /\
  (exists paths this',
     parseFile broken_header TimingParser_new = Some (paths, this') /\
     map id paths = ["P1"; "P2"]).
Proof.
  split.
  - destruct (parseFile_one_path_per_header two_sections TimingParser_new)
      as (paths & this' & Hrun & _ & Hall & _).
    exists paths, this'. split; [exact Hrun|].
    exact (Hall _ two_sections_valid).
  - destruct (parseFile_one_path_per_header broken_header TimingParser_new)
      as (paths & this' & Hrun & _ & _ & _ & _ & _ & Hrejected).
    exists paths, this'. split; [exact Hrun|].
    destruct (Hrejected (take 2 broken_header) "Path P9 FF_Q PI"
                (drop 3 broken_header)
                "Invalid path header format: Path P9 FF_Q PI"
                eq_refl eq_refl eq_refl)
      as (paths1 & this1 & paths2 & Hrun1 & Hrun2 & ->).
    vm_compute in Hrun1. injection Hrun1 as <- <-.
    vm_compute in Hrun2. injection Hrun2 as <- _. reflexivity.
Defined.

(** A header in the format of a report, with the delay [10^309], a
    non-negative decimal: [std::stod] throws [std::out_of_range], and the
    report that holds this header gives no path. *)
Lemma parseFile_one_path_per_header_counterexample :
  starts_with out_of_range_header "Path " = true /\
  header_format out_of_range_header "P1" "FF_Q" "PI" ("1" ++ zeros 309) /\
  header_lines [out_of_range_header] = [out_of_range_header] /\
  parseFile [out_of_range_header] TimingParser_new
  = Some ([], TimingParser_new).
Proof.
  split; [reflexivity|]. split; [|split; [reflexivity|]].
  - exists " ", " ", " ", " ". split; [vm_compute; reflexivity|].
    do 7 (split; [word_by_computation|]).
    exists ("1" ++ zeros 309), EmptyString.
    split; [|split; [constructor|split; [done|by right]]].
    apply (bool_decide_unpack _). vm_compute. exact I.
  - vm_compute. reflexivity.
Qed.

(** The pattern is searched for, not matched against the whole line: text
    behind the delay does not make the parser reject a header. *)
Example parsePathHeader_trailing_text :
  parsePathHeader "Path P1 FF_Q PI 2.345 extra"
  = Ok ("P1", "PI", "FF_Q", 2.345%float).
Proof. vm_compute. reflexivity. Qed.
